(** * ClawQuant scheduling core: event log, cron engine, cron listener, heartbeat

    A shallow embedding of the event-sourced scheduling core (the event log
    of [src/core/event-log.ts], the cron engine and the cron listener that
    [src/task/cron/index.ts] exports from [./engine.js] and [./listener.js],
    and the heartbeat of [src/task/heartbeat/heartbeat.ts]) together with the
    properties its specification states about it.

    Conventions of the embedding.
    - A JavaScript [number] that the code only uses as an integer (sequence
      numbers, epoch milliseconds, counters) is a [Z]; JavaScript integers are
      exact up to 2^53, far beyond any value these counters reach.
    - A JavaScript string is a [string]: one [ascii] per code unit, so the
      model covers strings whose code units are below 256.
    - [null] and [undefined] are [None].
    - A promise that may reject is a [result]; the clock, the disk and the
      other collaborators are explicit arguments. *)

From Stdlib Require Import ZArith List Bool Lia String Ascii.
From Stdlib Require Import Sorted.
Import ListNotations.

Local Open Scope string_scope.
Local Open Scope list_scope.
Local Open Scope Z_scope.

Set Implicit Arguments.

(** ** Results of fallible operations *)

Inductive result (A : Type) : Type :=
| Ok (a : A)
| Err (msg : string).

Arguments Ok {A} a.
Arguments Err {A} msg.

(** ** JavaScript primitives used by the sources *)

Module JS.

(** Code units that [\s] and [String.prototype.trim] treat as white space
    (TAB, LF, VT, FF, CR, SP, NBSP are the ones below 256). *)
Definition is_ws (c : ascii) : bool :=
  let n := nat_of_ascii c in
  ((9 <=? n) && (n <=? 13))%nat || (n =? 32)%nat || (n =? 160)%nat.

(** Line terminators (LF and CR are the ones below 256). *)
Definition is_lt (c : ascii) : bool :=
  let n := nat_of_ascii c in (n =? 10)%nat || (n =? 13)%nat.

(** [\d] *)
Definition is_digit (c : ascii) : bool :=
  let n := nat_of_ascii c in ((48 <=? n) && (n <=? 57))%nat.

Fixpoint trimStart (s : string) : string :=
  match s with
  | EmptyString => EmptyString
  | String c s' => if is_ws c then trimStart s' else s
  end.

Fixpoint trimEnd (s : string) : string :=
  match s with
  | EmptyString => EmptyString
  | String c s' =>
      match trimEnd s' with
      | EmptyString => if is_ws c then EmptyString else String c EmptyString
      | t => String c t
      end
  end.

(** [s.trim()] *)
Definition trim (s : string) : string := trimEnd (trimStart s).

(** [!s]: the empty string is the only falsy string. *)
Definition is_empty (s : string) : bool :=
  match s with EmptyString => true | _ => false end.

(** [s.split(sep)] for a one-character separator. *)
Fixpoint split (sep : ascii) (s : string) : list string :=
  match s with
  | EmptyString => [EmptyString]
  | String c s' =>
      if Ascii.eqb c sep then EmptyString :: split sep s'
      else match split sep s' with
           | h :: t => String c h :: t
           | [] => [String c EmptyString]
           end
  end.

(** [arr.slice(start)]: a negative [start] counts from the end, and is
    clamped at 0; a non-negative one is clamped at the length.  [-0] is [0]. *)
Definition slice {A : Type} (start : Z) (l : list A) : list A :=
  let len := Z.of_nat (List.length l) in
  let k := if start <? 0 then Z.max (len + start) 0 else Z.min start len in
  skipn (Z.to_nat k) l.

(** [arr[arr.length - 1]] *)
Fixpoint last_opt {A : Type} (l : list A) : option A :=
  match l with
  | [] => None
  | x :: t => match t with [] => Some x | _ => last_opt t end
  end.

Definition LF : ascii := ascii_of_nat 10.

(** Every code unit of [s] is white space. *)
Fixpoint all_ws (s : string) : bool :=
  match s with
  | EmptyString => true
  | String c s' => is_ws c && all_ws s'
  end.

(** No code unit of [s] is a line feed. *)
Fixpoint no_LF (s : string) : bool :=
  match s with
  | EmptyString => true
  | String c s' => negb (Ascii.eqb c LF) && no_LF s'
  end.

(** Every code unit of [s] is a decimal digit. *)
Fixpoint all_digits (s : string) : bool :=
  match s with
  | EmptyString => true
  | String c s' => is_digit c && all_digits s'
  end.

(** The last [n] elements of a list (all of them when there are fewer). *)
Definition last_n {A : Type} (n : nat) (l : list A) : list A :=
  skipn (List.length l - n) l.

Lemma trimEnd_empty (s : string) : trimEnd s = EmptyString <-> all_ws s = true.
Proof.
  induction s as [|c s IH]; cbn; [tauto|].
  destruct (trimEnd s) eqn:E.
  - destruct (is_ws c); cbn.
    + split; intros _; [now apply IH | reflexivity].
    + split; discriminate.
  - split; [discriminate|]. intros H. apply andb_true_iff in H.
    destruct H as [_ H]. apply IH in H. discriminate.
Qed.

Lemma all_ws_trimStart (s : string) : all_ws (trimStart s) = all_ws s.
Proof.
  induction s as [|c s IH]; cbn; [reflexivity|].
  destruct (is_ws c) eqn:E; cbn; [exact IH | now rewrite E].
Qed.

Lemma trim_empty (s : string) : is_empty (trim s) = true <-> all_ws s = true.
Proof.
  unfold trim. rewrite <- all_ws_trimStart, <- trimEnd_empty.
  destruct (trimEnd (trimStart s)); cbn; split; congruence.
Qed.

Lemma trimEnd_all_ws (s : string) : all_ws (trimEnd s) = true -> trimEnd s = EmptyString.
Proof.
  induction s as [|c s IH]; cbn; [reflexivity|].
  destruct (trimEnd s) as [|x t] eqn:E.
  - destruct (is_ws c) eqn:Ec; [reflexivity|]. cbn. rewrite Ec. discriminate.
  - cbn [all_ws]. intros H. apply andb_true_iff in H. destruct H as [_ H].
    specialize (IH H). discriminate IH.
Qed.

(** Trimming a trimmed text that is not empty leaves it not empty. *)
Lemma trim_trim_not_empty (s : string) :
  is_empty (trim s) = false -> is_empty (trim (trim s)) = false.
Proof.
  intros H. destruct (is_empty (trim (trim s))) eqn:E; [|reflexivity].
  apply trim_empty in E. unfold trim in E at 1. apply trimEnd_all_ws in E.
  unfold trim in H. rewrite E in H. discriminate H.
Qed.

Lemma all_ws_app (a b : string) : all_ws (a ++ b) = all_ws a && all_ws b.
Proof.
  induction a as [|c a IH]; cbn; [reflexivity|].
  now rewrite IH, andb_assoc.
Qed.

Lemma split_line (a rest : string) :
  no_LF a = true ->
  split LF (a ++ String LF rest) = a :: split LF rest.
Proof.
  induction a as [|c a IH]; cbn [append no_LF split]; intros H.
  - now rewrite Ascii.eqb_refl.
  - apply andb_true_iff in H. destruct H as [Hc Ha].
    apply negb_true_iff in Hc. rewrite Hc, (IH Ha). reflexivity.
Qed.

Lemma slice_neg_last_n {A : Type} (n : Z) (l : list A) :
  0 < n -> slice (- n) l = last_n (Z.to_nat n) l.
Proof.
  intros Hn. unfold slice, last_n.
  replace (- n <? 0) with true by (symmetry; apply Z.ltb_lt; lia).
  f_equal. lia.
Qed.

Lemma slice_neg_zero {A : Type} (l : list A) : slice (- 0) l = l.
Proof. unfold slice. cbn. destruct l; reflexivity. Qed.

End JS.

(** ** Regular expressions

    The sources parse strings with regular-expression literals.  This is a
    backtracking matcher with the priorities of [RegExp.prototype.exec]:
    leftmost start, alternatives left to right, greedy or lazy repetition,
    capture groups, look-ahead, and [^] / [$] with or without the [m] flag. *)

Module Regex.

Inductive re : Type :=
| Eps
| Chr (f : ascii -> bool)
| Cat (a b : re)
| Alt (a b : re)
| Star (a : re)
| LazyStar (a : re)
| Bol (multiline : bool)
| Eol (multiline : bool)
| Group (i : nat) (a : re)
| Ahead (a : re).

(** A position in the input: the code unit before it and the text after it. *)
Record pos : Type := mkPos { prev : option ascii; rest : string }.

(** Captures, most recent first. *)
Definition captures : Type := list (nat * string).

Fixpoint group (i : nat) (cs : captures) : option string :=
  match cs with
  | [] => None
  | (j, s) :: cs' => if Nat.eqb i j then Some s else group i cs'
  end.

Fixpoint take (n : nat) (s : string) : string :=
  match n, s with
  | S n', String c s' => String c (take n' s')
  | _, _ => EmptyString
  end.

(** The text between two positions of one input. *)
Definition between (p p' : pos) : string :=
  take (String.length (rest p) - String.length (rest p')) (rest p).

Definition at_bol (multiline : bool) (p : pos) : bool :=
  match prev p with
  | None => true
  | Some c => multiline && JS.is_lt c
  end.

Definition at_eol (multiline : bool) (p : pos) : bool :=
  match rest p with
  | EmptyString => true
  | String c _ => multiline && JS.is_lt c
  end.

Definition cont : Type := pos -> captures -> option captures.

(** The loops of [a*] and [a*?], where [m] matches [a].  An iteration that
    consumed nothing is given up, as the ECMAScript semantics does, so
    [fuel] above the length of the remaining input is never used up. *)
Fixpoint star_loop (m : cont -> pos -> captures -> option captures) (k : cont)
    (fuel : nat) (p : pos) (cs : captures) {struct fuel} : option captures :=
  match fuel with
  | O => k p cs
  | S fuel' =>
      match m (fun p' cs' =>
                 if (String.length (rest p') <? String.length (rest p))%nat
                 then star_loop m k fuel' p' cs' else None) p cs with
      | Some x => Some x
      | None => k p cs
      end
  end.

Fixpoint lazy_loop (m : cont -> pos -> captures -> option captures) (k : cont)
    (fuel : nat) (p : pos) (cs : captures) {struct fuel} : option captures :=
  match fuel with
  | O => k p cs
  | S fuel' =>
      match k p cs with
      | Some x => Some x
      | None =>
          m (fun p' cs' =>
               if (String.length (rest p') <? String.length (rest p))%nat
               then lazy_loop m k fuel' p' cs' else None) p cs
      end
  end.

(** [mt r k p cs]: match [r] at [p], then continue with [k]; [None] makes the
    caller backtrack. *)
Fixpoint mt (r : re) (k : cont) (p : pos) (cs : captures) {struct r} : option captures :=
  match r with
  | Eps => k p cs
  | Chr f =>
      match rest p with
      | String c t => if f c then k {| prev := Some c; rest := t |} cs else None
      | EmptyString => None
      end
  | Cat a b => mt a (mt b k) p cs
  | Alt a b =>
      match mt a k p cs with
      | Some x => Some x
      | None => mt b k p cs
      end
  | Star a => star_loop (mt a) k (S (String.length (rest p))) p cs
  | LazyStar a => lazy_loop (mt a) k (S (String.length (rest p))) p cs
  | Bol ml => if at_bol ml p then k p cs else None
  | Eol ml => if at_eol ml p then k p cs else None
  | Group i a => mt a (fun p' cs' => k p' ((i, between p p') :: cs')) p cs
  | Ahead a =>
      match mt a (fun _ cs' => Some cs') p cs with
      | Some cs' => k p cs'
      | None => None
      end
  end.

Definition accept : cont := fun _ cs => Some cs.

(** Try every start position, left to right. *)
Fixpoint search (r : re) (before : option ascii) (s : string) : option captures :=
  match mt r accept {| prev := before; rest := s |} [] with
  | Some cs => Some cs
  | None =>
      match s with
      | String c t => search r (Some c) t
      | EmptyString => None
      end
  end.

(** [re.exec(s)]: the captures of the first match, [None] for [null]. *)
Definition exec (r : re) (s : string) : option captures := search r None s.

(** Building blocks *)

Fixpoint cat (rs : list re) : re :=
  match rs with
  | [] => Eps
  | [r] => r
  | r :: rs' => Cat r (cat rs')
  end.

Definition opt (a : re) : re := Alt a Eps.
Definition plus (a : re) : re := Cat a (Star a).
Definition lazy_plus (a : re) : re := Cat a (LazyStar a).
Definition chr (c : ascii) : re := Chr (fun x => Ascii.eqb x c).
Definition digit : re := Chr JS.is_digit.
Definition space : re := Chr JS.is_ws.
Definition any : re := Chr (fun _ => true).

(** Case folding of the [i] flag, on code units below 128. *)
Definition upper (c : ascii) : ascii :=
  let n := nat_of_ascii c in
  if ((97 <=? n) && (n <=? 122))%nat then ascii_of_nat (n - 32) else c.

Definition chr_ci (c : ascii) : re := Chr (fun x => Ascii.eqb (upper x) (upper c)).

Fixpoint lit_ci (s : string) : re :=
  match s with
  | EmptyString => Eps
  | String c EmptyString => chr_ci c
  | String c s' => Cat (chr_ci c) (lit_ci s')
  end.

(** [Number(text)] for a text of decimal digits ([0] for the empty text). *)
Definition digit_value (c : ascii) : Z := Z.of_nat (nat_of_ascii c) - 48.

Fixpoint digits_acc (acc : Z) (s : string) : Z :=
  match s with
  | EmptyString => acc
  | String c s' => digits_acc (acc * 10 + digit_value c) s'
  end.

Definition Number_digits (s : string) : Z := digits_acc 0 s.

(** The matcher depends on its continuation only through its values. *)
Definition respects (m : cont -> pos -> captures -> option captures) : Prop :=
  forall k1 k2 : cont, (forall p cs, k1 p cs = k2 p cs) ->
  forall p cs, m k1 p cs = m k2 p cs.

Lemma star_loop_ext (m : cont -> pos -> captures -> option captures) (k1 k2 : cont) :
  respects m -> (forall p cs, k1 p cs = k2 p cs) ->
  forall fuel p cs, star_loop m k1 fuel p cs = star_loop m k2 fuel p cs.
Proof.
  intros Hm Hk. induction fuel as [|fuel IH]; intros p cs; cbn [star_loop]; [apply Hk|].
  rewrite Hk. erewrite Hm; [reflexivity|].
  intros p' cs'. cbv beta.
  destruct (Nat.ltb (String.length (rest p')) (String.length (rest p)));
    [apply IH | reflexivity].
Qed.

Lemma lazy_loop_ext (m : cont -> pos -> captures -> option captures) (k1 k2 : cont) :
  respects m -> (forall p cs, k1 p cs = k2 p cs) ->
  forall fuel p cs, lazy_loop m k1 fuel p cs = lazy_loop m k2 fuel p cs.
Proof.
  intros Hm Hk. induction fuel as [|fuel IH]; intros p cs; cbn [lazy_loop]; [apply Hk|].
  rewrite Hk. destruct (k2 p cs); [reflexivity|]. apply Hm.
  intros p' cs'. cbv beta.
  destruct (Nat.ltb (String.length (rest p')) (String.length (rest p)));
    [apply IH | reflexivity].
Qed.

Lemma mt_respects (r : re) : respects (mt r).
Proof.
  induction r as [|f|a IHa b IHb|a IHa b IHb|a IHa|a IHa|ml|ml|i a IHa|a IHa];
    intros k1 k2 Hk p cs; cbn [mt].
  - apply Hk.
  - destruct (rest p) as [|c t]; [reflexivity|]. destruct (f c); [apply Hk | reflexivity].
  - apply IHa. intros p' cs'. apply IHb, Hk.
  - rewrite (IHa k1 k2 Hk), (IHb k1 k2 Hk). reflexivity.
  - apply star_loop_ext; assumption.
  - apply lazy_loop_ext; assumption.
  - destruct (at_bol ml p); [apply Hk | reflexivity].
  - destruct (at_eol ml p); [apply Hk | reflexivity].
  - apply IHa. intros p' cs'. apply Hk.
  - destruct (mt a _ p cs); [apply Hk | reflexivity].
Qed.

(** More fuel than the remaining input changes nothing: the loops of the
    matcher never run out of it. *)
Lemma star_loop_fuel (m : cont -> pos -> captures -> option captures) (k : cont) :
  respects m ->
  forall fuel p cs, (String.length (rest p) < fuel)%nat ->
  star_loop m k (S fuel) p cs = star_loop m k fuel p cs.
Proof.
  intros Hm. induction fuel as [|fuel IH]; intros p cs Hlen; [lia|].
  cbn [star_loop]. erewrite Hm; [reflexivity|].
  intros p' cs'. cbv beta.
  destruct (String.length (rest p') <? String.length (rest p))%nat eqn:E; [|reflexivity].
  apply Nat.ltb_lt in E. apply IH. lia.
Qed.

Lemma lazy_loop_fuel (m : cont -> pos -> captures -> option captures) (k : cont) :
  respects m ->
  forall fuel p cs, (String.length (rest p) < fuel)%nat ->
  lazy_loop m k (S fuel) p cs = lazy_loop m k fuel p cs.
Proof.
  intros Hm. induction fuel as [|fuel IH]; intros p cs Hlen; [lia|].
  cbn [lazy_loop]. destruct (k p cs); [reflexivity|]. apply Hm.
  intros p' cs'. cbv beta.
  destruct (String.length (rest p') <? String.length (rest p))%nat eqn:E; [|reflexivity].
  apply Nat.ltb_lt in E. apply IH. lia.
Qed.

Lemma star_fuel_enough (a : re) (k : cont) (p : pos) (cs : captures) (extra : nat) :
  star_loop (mt a) k (S (String.length (rest p)) + extra) p cs = mt (Star a) k p cs.
Proof.
  induction extra as [|extra IH]; cbn [mt].
  - now rewrite Nat.add_0_r.
  - rewrite Nat.add_succ_r, star_loop_fuel; [exact IH | apply mt_respects | lia].
Qed.

Lemma lazy_fuel_enough (a : re) (k : cont) (p : pos) (cs : captures) (extra : nat) :
  lazy_loop (mt a) k (S (String.length (rest p)) + extra) p cs = mt (LazyStar a) k p cs.
Proof.
  induction extra as [|extra IH]; cbn [mt].
  - now rewrite Nat.add_0_r.
  - rewrite Nat.add_succ_r, lazy_loop_fuel; [exact IH | apply mt_respects | lia].
Qed.

(** A pattern that starts with [^] (no [m] flag) only matches at the start. *)
Lemma search_anchored (r : re) (s : string) : forall c,
  search (Cat (Bol false) r) (Some c) s = None.
Proof.
  induction s as [|x s IH]; intros c; cbn; [reflexivity | apply IH].
Qed.

Lemma exec_anchored (r : re) (s : string) :
  exec (Cat (Bol false) r) s = mt r accept {| prev := None; rest := s |} [].
Proof.
  unfold exec. destruct s as [|x s]; cbn.
  - destruct (mt r accept _ _); reflexivity.
  - destruct (mt r accept _ _); [reflexivity | apply search_anchored].
Qed.

(** *** What a reported match is

    [reach r p cs p' cs']: the pattern [r] can match from position [p] to
    position [p'], turning the captures [cs] into [cs'].  Every match the
    matcher reports is one of these. *)

Inductive reach : re -> pos -> captures -> pos -> captures -> Prop :=
| reach_eps p cs : reach Eps p cs p cs
| reach_chr f p cs c t :
    rest p = String c t -> f c = true ->
    reach (Chr f) p cs {| prev := Some c; rest := t |} cs
| reach_cat a b p cs p1 cs1 p2 cs2 :
    reach a p cs p1 cs1 -> reach b p1 cs1 p2 cs2 -> reach (Cat a b) p cs p2 cs2
| reach_alt_l a b p cs p' cs' : reach a p cs p' cs' -> reach (Alt a b) p cs p' cs'
| reach_alt_r a b p cs p' cs' : reach b p cs p' cs' -> reach (Alt a b) p cs p' cs'
| reach_star_0 a p cs : reach (Star a) p cs p cs
| reach_star_S a p cs p1 cs1 p2 cs2 :
    reach a p cs p1 cs1 -> reach (Star a) p1 cs1 p2 cs2 -> reach (Star a) p cs p2 cs2
| reach_lazy_0 a p cs : reach (LazyStar a) p cs p cs
| reach_lazy_S a p cs p1 cs1 p2 cs2 :
    reach a p cs p1 cs1 -> reach (LazyStar a) p1 cs1 p2 cs2 ->
    reach (LazyStar a) p cs p2 cs2
| reach_bol ml p cs : at_bol ml p = true -> reach (Bol ml) p cs p cs
| reach_eol ml p cs : at_eol ml p = true -> reach (Eol ml) p cs p cs
| reach_group i a p cs p' cs' :
    reach a p cs p' cs' -> reach (Group i a) p cs p' ((i, between p p') :: cs')
| reach_ahead a p cs p1 cs1 : reach a p cs p1 cs1 -> reach (Ahead a) p cs p cs1.

Definition sound (r : re) : Prop :=
  forall (k : cont) p cs res, mt r k p cs = Some res ->
  exists p' cs', reach r p cs p' cs' /\ k p' cs' = Some res.

Lemma star_loop_sound (a : re) (k : cont) :
  sound a ->
  forall fuel p cs res, star_loop (mt a) k fuel p cs = Some res ->
  exists p' cs', reach (Star a) p cs p' cs' /\ k p' cs' = Some res.
Proof.
  intros Ha. induction fuel as [|fuel IH]; intros p cs res H; cbn [star_loop] in H.
  - exists p, cs. split; [constructor | exact H].
  - match type of H with match ?m with _ => _ end = _ => destruct m as [x|] eqn:E end.
    + inversion H; subst x. apply Ha in E. destruct E as (p1 & cs1 & Hr & Hk).
      cbv beta in Hk.
      destruct (Nat.ltb (String.length (rest p1)) (String.length (rest p)));
        [|discriminate Hk].
      destruct (IH _ _ _ Hk) as (p2 & cs2 & Hr2 & Hk2).
      exists p2, cs2. split; [eapply reach_star_S; eassumption | exact Hk2].
    + exists p, cs. split; [constructor | exact H].
Qed.

Lemma lazy_loop_sound (a : re) (k : cont) :
  sound a ->
  forall fuel p cs res, lazy_loop (mt a) k fuel p cs = Some res ->
  exists p' cs', reach (LazyStar a) p cs p' cs' /\ k p' cs' = Some res.
Proof.
  intros Ha. induction fuel as [|fuel IH]; intros p cs res H; cbn [lazy_loop] in H.
  - exists p, cs. split; [constructor | exact H].
  - destruct (k p cs) as [x|] eqn:E.
    + exists p, cs. split; [constructor | congruence].
    + apply Ha in H. destruct H as (p1 & cs1 & Hr & Hk). cbv beta in Hk.
      destruct (Nat.ltb (String.length (rest p1)) (String.length (rest p)));
        [|discriminate Hk].
      destruct (IH _ _ _ Hk) as (p2 & cs2 & Hr2 & Hk2).
      exists p2, cs2. split; [eapply reach_lazy_S; eassumption | exact Hk2].
Qed.

Lemma mt_sound (r : re) : sound r.
Proof.
  induction r as [|f|a IHa b IHb|a IHa b IHb|a IHa|a IHa|ml|ml|i a IHa|a IHa];
    intros k p cs res H; cbn [mt] in H.
  - exists p, cs. split; [constructor | exact H].
  - destruct (rest p) as [|c t] eqn:E; [discriminate|].
    destruct (f c) eqn:Ef; [|discriminate].
    eexists _, cs. split; [econstructor; eassumption | exact H].
  - apply IHa in H. destruct H as (p1 & cs1 & Hr1 & H).
    apply IHb in H. destruct H as (p2 & cs2 & Hr2 & H).
    exists p2, cs2. split; [econstructor; eassumption | exact H].
  - destruct (mt a k p cs) as [x|] eqn:E.
    + inversion H; subst x. apply IHa in E. destruct E as (p1 & cs1 & Hr & Hk).
      exists p1, cs1. split; [now apply reach_alt_l | exact Hk].
    + apply IHb in H. destruct H as (p1 & cs1 & Hr & Hk).
      exists p1, cs1. split; [now apply reach_alt_r | exact Hk].
  - eapply star_loop_sound; eassumption.
  - eapply lazy_loop_sound; eassumption.
  - destruct (at_bol ml p) eqn:E; [|discriminate].
    exists p, cs. split; [now constructor | exact H].
  - destruct (at_eol ml p) eqn:E; [|discriminate].
    exists p, cs. split; [now constructor | exact H].
  - apply IHa in H. destruct H as (p1 & cs1 & Hr & Hk).
    eexists p1, _. split; [constructor; exact Hr | exact Hk].
  - destruct (mt a (fun _ cs' => Some cs') p cs) as [cs1|] eqn:E; [|discriminate].
    apply IHa in E. destruct E as (p1 & cs1' & Hr & Hk). inversion Hk; subst cs1'.
    exists p, cs1. split; [econstructor; exact Hr | exact H].
Qed.

(** A pattern that consumes decimal digits only, and sets no capture. *)
Fixpoint digits_only (r : re) : Prop :=
  match r with
  | Eps | Bol _ | Eol _ => True
  | Chr f => forall c, f c = true -> JS.is_digit c = true
  | Cat a b | Alt a b => digits_only a /\ digits_only b
  | Star a | LazyStar a => digits_only a
  | Group _ _ | Ahead _ => False
  end.

(** A pattern whose capture groups enclose digits-only patterns. *)
Fixpoint digit_groups (r : re) : Prop :=
  match r with
  | Eps | Bol _ | Eol _ | Chr _ => True
  | Cat a b | Alt a b => digit_groups a /\ digit_groups b
  | Star a | LazyStar a | Ahead a => digit_groups a
  | Group _ a => digits_only a
  end.

Lemma all_digits_app (a b : string) :
  JS.all_digits (a ++ b) = JS.all_digits a && JS.all_digits b.
Proof.
  induction a as [|c a IH]; cbn [String.append JS.all_digits]; [reflexivity|].
  now rewrite IH, andb_assoc.
Qed.

Lemma string_app_assoc (a b c : string) : ((a ++ b) ++ c = a ++ (b ++ c))%string.
Proof. induction a as [|x a IH]; cbn; [reflexivity | now rewrite IH]. Qed.

Lemma string_app_length (a b : string) :
  String.length (a ++ b) = (String.length a + String.length b)%nat.
Proof. induction a as [|x a IH]; cbn; [reflexivity | now rewrite IH]. Qed.

Lemma take_app (d r : string) : take (String.length d) (d ++ r) = d.
Proof. induction d as [|c d IH]; cbn; [now destruct r | now rewrite IH]. Qed.

Lemma reach_digits_only (r : re) p cs p' cs' :
  reach r p cs p' cs' -> digits_only r ->
  cs' = cs /\ exists d, rest p = (d ++ rest p')%string /\ JS.all_digits d = true.
Proof.
  induction 1 as [p cs | f p cs c t Hrest Hf
                 | a b p cs p1 cs1 p2 cs2 _ IH1 _ IH2
                 | a b p cs p' cs' _ IH | a b p cs p' cs' _ IH
                 | a p cs | a p cs p1 cs1 p2 cs2 _ IH1 _ IH2
                 | a p cs | a p cs p1 cs1 p2 cs2 _ IH1 _ IH2
                 | ml p cs _ | ml p cs _ | i a p cs p' cs' _ _ | a p cs p1 cs1 _ _];
    cbn [digits_only]; intros Hd;
    try (split; [reflexivity | exists EmptyString; split; reflexivity]);
    try contradiction.
  - split; [reflexivity|]. exists (String c EmptyString). cbn [rest].
    split; [exact Hrest | cbn; now rewrite (Hd c Hf)].
  - destruct Hd as [Ha Hb].
    destruct (IH1 Ha) as (-> & d1 & E1 & D1). destruct (IH2 Hb) as (-> & d2 & E2 & D2).
    split; [reflexivity|]. exists (d1 ++ d2)%string.
    rewrite string_app_assoc, <- E2, <- E1, all_digits_app, D1, D2. auto.
  - apply IH, Hd.
  - apply IH, Hd.
  - destruct (IH1 Hd) as (-> & d1 & E1 & D1). destruct (IH2 Hd) as (-> & d2 & E2 & D2).
    split; [reflexivity|]. exists (d1 ++ d2)%string.
    rewrite string_app_assoc, <- E2, <- E1, all_digits_app, D1, D2. auto.
  - destruct (IH1 Hd) as (-> & d1 & E1 & D1). destruct (IH2 Hd) as (-> & d2 & E2 & D2).
    split; [reflexivity|]. exists (d1 ++ d2)%string.
    rewrite string_app_assoc, <- E2, <- E1, all_digits_app, D1, D2. auto.
Qed.

(** Every capture is a text of digits. *)
Definition digit_captures (cs : captures) : Prop :=
  forall i s, group i cs = Some s -> JS.all_digits s = true.

Lemma reach_digit_groups (r : re) p cs p' cs' :
  reach r p cs p' cs' -> digit_groups r -> digit_captures cs -> digit_captures cs'.
Proof.
  induction 1 as [p cs | f p cs c t Hrest Hf
                 | a b p cs p1 cs1 p2 cs2 _ IH1 _ IH2
                 | a b p cs p' cs' _ IH | a b p cs p' cs' _ IH
                 | a p cs | a p cs p1 cs1 p2 cs2 _ IH1 _ IH2
                 | a p cs | a p cs p1 cs1 p2 cs2 _ IH1 _ IH2
                 | ml p cs _ | ml p cs _ | i a p cs p' cs' Hr _ | a p cs p1 cs1 _ IH];
    cbn [digit_groups]; intros Hd Hcs; auto.
  - destruct Hd as [Ha Hb]. auto.
  - apply IH; [apply Hd | exact Hcs].
  - apply IH; [apply Hd | exact Hcs].
  - destruct (reach_digits_only Hr Hd) as (-> & d & E & D).
    intros j s. cbn [group]. destruct (Nat.eqb j i); [|apply Hcs].
    intros H. inversion H; subst s. unfold between. rewrite E.
    rewrite string_app_length, Nat.add_sub, take_app. exact D.
Qed.

Lemma digits_acc_nonneg (s : string) : forall acc,
  JS.all_digits s = true -> 0 <= acc -> 0 <= digits_acc acc s.
Proof.
  induction s as [|c s IH]; intros acc H Hacc; cbn [digits_acc]; [exact Hacc|].
  cbn [JS.all_digits] in H. apply andb_true_iff in H. destruct H as [Hc Hs].
  apply IH; [exact Hs|]. unfold JS.is_digit in Hc. apply andb_true_iff in Hc.
  destruct Hc as [H1 H2]. apply Nat.leb_le in H1. unfold digit_value. lia.
Qed.

(** The captures of an anchored pattern whose groups enclose digits. *)
Lemma exec_digit_captures (r : re) (s : string) (m : captures) :
  digit_groups r -> exec (Cat (Bol false) r) s = Some m -> digit_captures m.
Proof.
  intros Hd H. rewrite exec_anchored in H. apply mt_sound in H.
  destruct H as (p' & cs' & Hr & Hk). inversion Hk; subst cs'.
  eapply reach_digit_groups; [exact Hr | exact Hd |]. intros i x Hx. discriminate Hx.
Qed.

(** *** Where a match lies in the text *)

(** The code unit at the end of [pre], or [before] when [pre] is empty. *)
Fixpoint last_unit (before : option ascii) (pre : string) : option ascii :=
  match pre with
  | EmptyString => before
  | String c pre' => last_unit (Some c) pre'
  end.

Lemma last_unit_cases (pre : string) : forall before,
  (pre = EmptyString /\ last_unit before pre = before)
  \/ exists pre0 c, pre = (pre0 ++ String c EmptyString)%string
                    /\ last_unit before pre = Some c.
Proof.
  induction pre as [|x pre IH]; intros before; [left; split; reflexivity|].
  right. cbn [last_unit]. destruct (IH (Some x)) as [[-> E]|(pre0 & c & -> & E)].
  - exists EmptyString, x. split; [reflexivity | exact E].
  - exists (String x pre0), c. split; [reflexivity | exact E].
Qed.

(** A match that [search] reports starts at some position of the text. *)
Lemma search_found (r : re) : forall s before m,
  search r before s = Some m ->
  exists pre s', s = (pre ++ s')%string
    /\ mt r accept {| prev := last_unit before pre; rest := s' |} [] = Some m.
Proof.
  induction s as [|c s IH]; intros before m H; cbn [search] in H.
  - destruct (mt r accept {| prev := before; rest := EmptyString |} []) as [cs|] eqn:E;
      [|discriminate].
    inversion H; subst cs. exists EmptyString, EmptyString. split; [reflexivity | exact E].
  - destruct (mt r accept {| prev := before; rest := String c s |} []) as [cs|] eqn:E.
    + inversion H; subst cs. exists EmptyString, (String c s). split; [reflexivity | exact E].
    + destruct (IH _ _ H) as (pre & s' & -> & Hm).
      exists (String c pre), s'. split; [reflexivity | exact Hm].
Qed.

(** Every code unit of [s] satisfies [f]. *)
Fixpoint all_units (f : ascii -> bool) (s : string) : bool :=
  match s with
  | EmptyString => true
  | String c s' => f c && all_units f s'
  end.

(** What [(c)*] for a class [c] of code units matches. *)
Lemma reach_star_chr (f : ascii -> bool) (r : re) p cs p' cs' :
  reach r p cs p' cs' -> r = Star (Chr f) ->
  cs' = cs /\ exists w, rest p = (w ++ rest p')%string /\ all_units f w = true.
Proof.
  induction 1 as [p cs | g p cs c t Hrest Hf
                 | a b p cs p1 cs1 p2 cs2 _ IH1 _ IH2
                 | a b p cs p' cs' _ IH | a b p cs p' cs' _ IH
                 | a p cs | a p cs p1 cs1 p2 cs2 H1 _ _ IH2
                 | a p cs | a p cs p1 cs1 p2 cs2 _ IH1 _ IH2
                 | ml p cs _ | ml p cs _ | i a p cs p' cs' _ _ | a p cs p1 cs1 _ _];
    intros E; try discriminate E.
  - split; [reflexivity|]. exists EmptyString. split; reflexivity.
  - inversion E; subst a. destruct (IH2 eq_refl) as (-> & w & Hw & Hall).
    inversion H1 as [|g p0 cs0 c t Hrest Hf| | | | | | | | | | |]; subst.
    split; [reflexivity|]. exists (String c w). cbn [rest] in Hw.
    split; [rewrite Hrest, Hw; reflexivity | cbn; now rewrite Hf, Hall].
Qed.

Lemma reach_eps_inv p cs p' cs' : reach Eps p cs p' cs' -> p' = p /\ cs' = cs.
Proof. intros H. inversion H; subst. auto. Qed.

Lemma reach_chr_inv (f : ascii -> bool) p cs p' cs' :
  reach (Chr f) p cs p' cs' ->
  exists c t, rest p = String c t /\ f c = true
              /\ p' = {| prev := Some c; rest := t |} /\ cs' = cs.
Proof. intros H. inversion H; subst. eauto 10. Qed.

Lemma reach_cat_inv (a b : re) p cs p2 cs2 :
  reach (Cat a b) p cs p2 cs2 ->
  exists p1 cs1, reach a p cs p1 cs1 /\ reach b p1 cs1 p2 cs2.
Proof. intros H. inversion H; subst. eauto. Qed.

Lemma reach_alt_inv (a b : re) p cs p' cs' :
  reach (Alt a b) p cs p' cs' -> reach a p cs p' cs' \/ reach b p cs p' cs'.
Proof. intros H. inversion H; subst; auto. Qed.

Lemma reach_bol_inv (ml : bool) p cs p' cs' :
  reach (Bol ml) p cs p' cs' -> p' = p /\ cs' = cs /\ at_bol ml p = true.
Proof. intros H. inversion H; subst. auto. Qed.

Lemma reach_eol_inv (ml : bool) p cs p' cs' :
  reach (Eol ml) p cs p' cs' -> p' = p /\ cs' = cs /\ at_eol ml p = true.
Proof. intros H. inversion H; subst. auto. Qed.

Lemma reach_group_inv (i : nat) (a : re) p cs p' cs' :
  reach (Group i a) p cs p' cs' -> exists cs0, reach a p cs p' cs0.
Proof. intros H. inversion H; subst. eauto. Qed.

Lemma string_app_nil_r (a : string) : (a ++ EmptyString)%string = a.
Proof. induction a as [|x a IH]; cbn; [reflexivity | now rewrite IH]. Qed.

(** A match that [exec] reports: where it starts and where it ends. *)
Lemma exec_found (r : re) (s : string) (m : captures) :
  exec r s = Some m ->
  exists pre s' p',
    s = (pre ++ s')%string
    /\ exists cs', reach r {| prev := last_unit None pre; rest := s' |} [] p' cs'.
Proof.
  unfold exec. intros H. apply search_found in H. destruct H as (pre & s' & -> & H).
  apply mt_sound in H. destruct H as (p' & cs' & Hr & _).
  exists pre, s', p'. split; [reflexivity|]. exists cs'. exact Hr.
Qed.

End Regex.

(** ** Event log ([src/core/event-log.ts]) *)

Module EventLog.

Section WithPayload.

(** The payload type [T] of [EventLogEntry<T>], and the JSON codec of the
    platform, which the log uses on whole entries. *)
Variable Payload : Type.

Record EventLogEntry : Type := mkEntry {
  seq : Z;
  ts : Z;
  type : string;
  payload : Payload
}.

(** [JSON.stringify(entry)], and [JSON.parse(line)] with [None] when it
    throws.  The source types the value [JSON.parse] returns as an
    [EventLogEntry]. *)
Variable JSON_stringify : EventLogEntry -> string.
Variable JSON_parse : string -> option EventLogEntry.

(** A subscriber is known by its identity. *)
Definition EventLogListener : Type := nat.

(** The closure state of one [createEventLog] call, with the log file it owns
    ([None]: the file does not exist). *)
Record t : Type := mkLog {
  file : option string;
  bufferSize : Z;
  buffer : list EventLogEntry;
  seq_counter : Z;
  listeners : list EventLogListener;
  typeListeners : list (string * list EventLogListener)
}.

Definition DEFAULT_BUFFER_SIZE : Z := 500.

(** The lines the recovery and [read] loops keep: non-blank and parsed. *)
Fixpoint parse_lines (lines : list string) : list EventLogEntry :=
  match lines with
  | [] => []
  | line :: rest =>
      if JS.is_empty (JS.trim line) then parse_lines rest
      else match JSON_parse line with
           | Some e => e :: parse_lines rest
           | None => parse_lines rest
           end
  end.

(** [recoverState(logPath, buffer, bufferSize)]: the entries pushed into the
    (empty) buffer and the restored counter. *)
Definition recoverState (f : option string) (bufferSize : Z)
  : list EventLogEntry * Z :=
  match f with
  | None => ([], 0)
  | Some raw =>
      if JS.is_empty (JS.trim raw) then ([], 0)
      else
        let entries := parse_lines (JS.split JS.LF raw) in
        match JS.last_opt entries with
        | None => ([], 0)
        | Some e => (JS.slice (- bufferSize) entries, seq e)
        end
  end.

(** [createEventLog({logPath, bufferSize})] on the file found at [logPath]. *)
Definition createEventLog (f : option string) (bufferSize : option Z) : t :=
  let size := match bufferSize with Some n => n | None => DEFAULT_BUFFER_SIZE end in
  let '(buf, s) := recoverState f size in
  {| file := f; bufferSize := size; buffer := buf; seq_counter := s;
     listeners := []; typeListeners := [] |}.

Definition lastSeq (l : t) : Z := seq_counter l.

Fixpoint lookup_type (ty : string) (m : list (string * list EventLogListener))
  : option (list EventLogListener) :=
  match m with
  | [] => None
  | (k, v) :: m' => if String.eqb k ty then Some v else lookup_type ty m'
  end.

(** The subscribers an append calls, in call order. *)
Definition fan_out (l : t) (ty : string) : list EventLogListener :=
  listeners l ++ match lookup_type ty (typeListeners l) with
                 | Some s => s
                 | None => []
                 end.

(** [append(type, payload)] at clock reading [now]; [disk] is the outcome of
    [appendFile].  The counter is bumped before the write, the buffer and the
    subscribers are reached only after it.  Returns the new state, the
    settled promise and the subscribers notified with the entry. *)
Definition append (l : t) (now : Z) (ty : string) (p : Payload) (disk : result unit)
  : t * result EventLogEntry * list EventLogListener :=
  let s := seq_counter l + 1 in
  let entry := {| seq := s; ts := now; type := ty; payload := p |} in
  let line := (JSON_stringify entry ++ String JS.LF EmptyString)%string in
  match disk with
  | Err msg =>
      ({| file := file l; bufferSize := bufferSize l; buffer := buffer l;
          seq_counter := s; listeners := listeners l;
          typeListeners := typeListeners l |}, Err msg, [])
  | Ok _ =>
      let f' := match file l with Some old => (old ++ line)%string | None => line end in
      let pushed := buffer l ++ [entry] in
      let buf' :=
        if Z.of_nat (List.length pushed) >? bufferSize l
        then JS.slice (Z.of_nat (List.length pushed) - bufferSize l) pushed
        else pushed in
      ({| file := Some f'; bufferSize := bufferSize l; buffer := buf';
          seq_counter := s; listeners := listeners l;
          typeListeners := typeListeners l |}, Ok entry, fan_out l ty)
  end.

(** The filtering loop shared by [read] and [recent]. *)
Fixpoint collect (afterSeq : Z) (limit : option Z) (filterType : option string)
    (es : list EventLogEntry) (results : list EventLogEntry) : list EventLogEntry :=
  match es with
  | [] => results
  | e :: es' =>
      if seq e <=? afterSeq then collect afterSeq limit filterType es' results
      else
        let skip := match filterType with
                    | Some ft => negb (JS.is_empty ft) && negb (String.eqb (type e) ft)
                    | None => false
                    end in
        if skip then collect afterSeq limit filterType es' results
        else
          let results' := results ++ [e] in
          let full := match limit with
                      | Some n => Z.of_nat (List.length results') >=? n
                      | None => false
                      end in
          if full then results' else collect afterSeq limit filterType es' results'
  end.

Record ReadOpts : Type := mkOpts {
  afterSeq : option Z;
  limit : option Z;
  filter : option string
}.

Definition no_opts : ReadOpts := {| afterSeq := None; limit := None; filter := None |}.

Definition opt_afterSeq (o : ReadOpts) : Z :=
  match afterSeq o with Some n => n | None => 0 end.

(** [recent(opts)]: the in-memory buffer. *)
Definition recent (l : t) (o : ReadOpts) : list EventLogEntry :=
  collect (opt_afterSeq o) (limit o) (filter o) (buffer l) [].

(** [read(opts)]: the file, line by line. *)
Definition read (l : t) (o : ReadOpts) : list EventLogEntry :=
  match file l with
  | None => []
  | Some raw =>
      collect (opt_afterSeq o) (limit o) (filter o)
        (parse_lines (JS.split JS.LF raw)) []
  end.

(** [subscribe(listener)]: a [Set] keeps one copy, in insertion order. *)
Definition set_add (x : EventLogListener) (s : list EventLogListener)
  : list EventLogListener :=
  if existsb (Nat.eqb x) s then s else s ++ [x].

Definition subscribe (l : t) (fn : EventLogListener) : t :=
  {| file := file l; bufferSize := bufferSize l; buffer := buffer l;
     seq_counter := seq_counter l; listeners := set_add fn (listeners l);
     typeListeners := typeListeners l |}.

Fixpoint map_add (ty : string) (fn : EventLogListener)
    (m : list (string * list EventLogListener)) : list (string * list EventLogListener) :=
  match m with
  | [] => [(ty, [fn])]
  | (k, v) :: m' =>
      if String.eqb k ty then (k, set_add fn v) :: m' else (k, v) :: map_add ty fn m'
  end.

(** [subscribeType(type, listener)] *)
Definition subscribeType (l : t) (ty : string) (fn : EventLogListener) : t :=
  {| file := file l; bufferSize := bufferSize l; buffer := buffer l;
     seq_counter := seq_counter l; listeners := listeners l;
     typeListeners := map_add ty fn (typeListeners l) |}.

(** [close()] *)
Definition close (l : t) : t :=
  {| file := file l; bufferSize := bufferSize l; buffer := [];
     seq_counter := seq_counter l; listeners := []; typeListeners := [] |}.

(** One [append] request: clock reading, type and payload. *)
Definition request : Type := (Z * string * Payload)%type.

(** A run of awaited appends whose disk writes all succeed: the final state
    and the entries the promises resolve to, in call order. *)
Fixpoint appends (l : t) (reqs : list request) : t * list EventLogEntry :=
  match reqs with
  | [] => (l, [])
  | (now, ty, p) :: rest =>
      match append l now ty p (Ok tt) with
      | (l', Ok e, _) => let '(l'', es) := appends l' rest in (l'', e :: es)
      | (l', Err _, _) => (l', [])
      end
  end.

(** The entry an append builds for a request at sequence number [s]. *)
Definition entry_of (s : Z) (r : request) : EventLogEntry :=
  let '(now, ty, p) := r in {| seq := s; ts := now; type := ty; payload := p |}.

Fixpoint entries_from (s : Z) (reqs : list request) : list EventLogEntry :=
  match reqs with
  | [] => []
  | r :: rest => entry_of s r :: entries_from (s + 1) rest
  end.

Definition line_of (e : EventLogEntry) : string :=
  (JSON_stringify e ++ String JS.LF EmptyString)%string.

Definition lines_of (es : list EventLogEntry) : string :=
  List.fold_right (fun e acc => (line_of e ++ acc)%string) EmptyString es.

Definition file_content (l : t) : string :=
  match file l with Some raw => raw | None => EmptyString end.

(** A fresh log: opened where no file exists, or on an empty file. *)
Definition fresh (l : t) : Prop :=
  exists size, l = createEventLog None size \/ l = createEventLog (Some EmptyString) size.

(** The sequence numbers 1..n. *)
Definition one_to (n : nat) : list Z := List.map Z.of_nat (List.seq 1 n).

(** What the platform codec does on an entry the log wrote: the line parses
    back to the entry, holds no line feed and is not blank. *)
Definition codec_ok (e : EventLogEntry) : Prop :=
  JSON_parse (JSON_stringify e) = Some e
  /\ JS.no_LF (JSON_stringify e) = true
  /\ JS.is_empty (JS.trim (JSON_stringify e)) = false.

(** The well-formed entries of a log file, in file order. *)
Definition well_formed_entries (f : option string) : list EventLogEntry :=
  parse_lines (JS.split JS.LF (match f with Some raw => raw | None => EmptyString end)).

(** Closing a log and opening its file again. *)
Definition reopen (l : t) (bufferSize : option Z) : t :=
  createEventLog (file (close l)) bufferSize.

(** *** Sequence numbers *)

Lemma append_ok_seq (l : t) (now : Z) (ty : string) (p : Payload) :
  exists l' subs,
    append l now ty p (Ok tt)
    = (l', Ok {| seq := lastSeq l + 1; ts := now; type := ty; payload := p |}, subs)
    /\ lastSeq l' = lastSeq l + 1
    /\ file_content l'
       = (file_content l
          ++ line_of {| seq := lastSeq l + 1; ts := now; type := ty; payload := p |})%string.
Proof.
  unfold append, lastSeq, file_content, line_of; cbn.
  do 2 eexists; split; [reflexivity|]; cbn.
  split; [reflexivity|]. destruct (file l); reflexivity.
Qed.

Lemma append_assoc (a b c : string) : ((a ++ b) ++ c = a ++ (b ++ c))%string.
Proof. induction a as [|x a IH]; cbn; [reflexivity | now rewrite IH]. Qed.

Lemma append_nil_r (a : string) : (a ++ EmptyString)%string = a.
Proof. induction a as [|x a IH]; cbn; [reflexivity | now rewrite IH]. Qed.

Lemma appends_spec (reqs : list request) : forall l,
  let '(l', es) := appends l reqs in
  es = entries_from (lastSeq l + 1) reqs
  /\ lastSeq l' = lastSeq l + Z.of_nat (List.length reqs)
  /\ file_content l' = (file_content l ++ lines_of es)%string.
Proof.
  induction reqs as [|[[now ty] p] rest IH]; intros l.
  - cbn. repeat split; [lia | now rewrite append_nil_r].
  - cbn [appends].
    destruct (append_ok_seq l now ty p) as (l1 & subs & Happ & Hseq & Hfile).
    rewrite Happ. specialize (IH l1). destruct (appends l1 rest) as [l2 es].
    destruct IH as (Hes & Hlast & Hf). repeat split.
    + cbn [entries_from entry_of]. now rewrite Hes, Hseq.
    + rewrite Hlast, Hseq. cbn [List.length]. lia.
    + rewrite Hf, Hfile. cbn [lines_of fold_right]. now rewrite append_assoc.
Qed.

Lemma entries_from_seq (reqs : list request) : forall s,
  List.map seq (entries_from s reqs)
  = List.map (fun k => s + Z.of_nat k) (List.seq 0 (List.length reqs)).
Proof.
  induction reqs as [|[[now ty] p] rest IH]; intros s; cbn; [reflexivity|].
  f_equal; [lia|]. rewrite IH, <- seq_shift, map_map.
  apply map_ext; intros k; lia.
Qed.

Lemma fresh_state (l : t) :
  fresh l -> lastSeq l = 0 /\ buffer l = [] /\ file_content l = EmptyString.
Proof. intros [size [-> | ->]]; cbn; auto. Qed.

(** C1. On a fresh log, N awaited appends resolve to N entries numbered
    1..N in call order, the file holds exactly their N lines in that order,
    [lastSeq()] is N afterwards, and any single append returns an entry whose
    [seq] is the previous [lastSeq()] plus one. *)
Theorem fresh_appends_number_1_to_N (l : t) (reqs : list request) :
  fresh l ->
  let '(l', es) := appends l reqs in
  List.length es = List.length reqs
  /\ es = entries_from 1 reqs
  /\ List.map seq es = one_to (List.length reqs)
  /\ file_content l' = lines_of es
  /\ lastSeq l' = Z.of_nat (List.length reqs)
  /\ (forall l0 now ty p, exists l1 e subs,
        append l0 now ty p (Ok tt) = (l1, Ok e, subs)
        /\ seq e = lastSeq l0 + 1 /\ lastSeq l1 = seq e).
Proof.
  intros Hf. destruct (fresh_state Hf) as (H0 & _ & Hfile).
  pose proof (appends_spec reqs l) as H.
  destruct (appends l reqs) as [l' es]. destruct H as (Hes & Hlast & Hfc).
  rewrite H0 in Hes, Hlast. rewrite Hfile in Hfc. cbn in Hes, Hlast, Hfc.
  assert (Hmap : List.map seq es = one_to (List.length reqs)).
  { rewrite Hes, entries_from_seq. unfold one_to.
    rewrite <- seq_shift, map_map. apply map_ext; intros k; lia. }
  repeat split; auto.
  - rewrite <- (length_map seq), Hmap. unfold one_to.
    now rewrite length_map, length_seq.
  - intros l0 now ty p.
    destruct (append_ok_seq l0 now ty p) as (l1 & subs & Happ & Hseq & _).
    exists l1, {| seq := lastSeq l0 + 1; ts := now; type := ty; payload := p |}, subs.
    cbn; auto.
Qed.


(** *** Recovery *)

Lemma split_all_ws (raw : string) :
  JS.all_ws raw = true -> Forall (fun line => JS.all_ws line = true) (JS.split JS.LF raw).
Proof.
  induction raw as [|c raw IH]; cbn [JS.all_ws JS.split]; intros H.
  - repeat constructor.
  - apply andb_true_iff in H. destruct H as [Hc Hraw]. specialize (IH Hraw).
    destruct (Ascii.eqb c JS.LF).
    + constructor; [reflexivity | exact IH].
    + destruct (JS.split JS.LF raw) as [|h t].
      * repeat constructor. cbn. now rewrite Hc.
      * inversion IH; subst. constructor; [cbn; now rewrite Hc | assumption].
Qed.

Lemma parse_lines_blank (lines : list string) :
  Forall (fun line => JS.all_ws line = true) lines -> parse_lines lines = [].
Proof.
  induction 1 as [|line rest Hl _ IH]; cbn; [reflexivity|].
  apply JS.trim_empty in Hl. now rewrite Hl.
Qed.

Lemma last_n_nil (A : Type) (n : nat) : JS.last_n n (@nil A) = [].
Proof. unfold JS.last_n. now rewrite skipn_nil. Qed.

(** For a positive buffer size, recovery restores the counter to the [seq] of
    the last well-formed line (0 when there is none) and loads the last
    [bufferSize] well-formed entries. *)
Lemma recoverState_positive (f : option string) (size : Z) :
  0 < size ->
  recoverState f size
  = (JS.last_n (Z.to_nat size) (well_formed_entries f),
     match JS.last_opt (well_formed_entries f) with Some e => seq e | None => 0 end).
Proof.
  intros Hsize. unfold recoverState, well_formed_entries.
  destruct f as [raw|].
  2:{ change (parse_lines (JS.split JS.LF EmptyString)) with (@nil EventLogEntry).
      now rewrite last_n_nil. }
  destruct (JS.is_empty (JS.trim raw)) eqn:E.
  - apply JS.trim_empty in E.
    rewrite (parse_lines_blank (split_all_ws raw E)). now rewrite last_n_nil.
  - destruct (JS.last_opt (parse_lines (JS.split JS.LF raw))) eqn:L.
    + now rewrite JS.slice_neg_last_n.
    + destruct (parse_lines (JS.split JS.LF raw)) as [|x t]; [now rewrite last_n_nil|].
      exfalso. clear - L. revert x L. induction t as [|y t IH]; intros x L; cbn in L;
        [discriminate | exact (IH y L)].
Qed.

Lemma lines_of_cons (e : EventLogEntry) (es : list EventLogEntry) :
  lines_of (e :: es) = (JSON_stringify e ++ String JS.LF (lines_of es))%string.
Proof. cbn. unfold line_of. now rewrite append_assoc. Qed.

Lemma parse_lines_lines_of (es : list EventLogEntry) :
  Forall codec_ok es -> parse_lines (JS.split JS.LF (lines_of es)) = es.
Proof.
  induction 1 as [|e es (Hparse & Hlf & Hblank) _ IH]; [reflexivity|].
  rewrite lines_of_cons, (JS.split_line _ _ Hlf). cbn [parse_lines].
  now rewrite Hblank, Hparse, IH.
Qed.

Lemma lines_of_not_blank (e : EventLogEntry) (es : list EventLogEntry) :
  codec_ok e -> JS.is_empty (JS.trim (lines_of (e :: es))) = false.
Proof.
  intros (_ & _ & Hblank). rewrite lines_of_cons.
  destruct (JS.is_empty (JS.trim (JSON_stringify e ++ String JS.LF (lines_of es)))) eqn:E;
    [|reflexivity].
  apply JS.trim_empty in E. rewrite JS.all_ws_app in E.
  apply andb_true_iff in E. destruct E as [E _].
  apply JS.trim_empty in E. congruence.
Qed.

Lemma last_opt_entries_from (reqs : list request) : forall s r,
  exists r', JS.last_opt (entries_from s (r :: reqs))
             = Some (entry_of (s + Z.of_nat (List.length reqs)) r').
Proof.
  induction reqs as [|r' reqs IH]; intros s r.
  - exists r. cbn. now rewrite Z.add_0_r.
  - destruct (IH (s + 1) r') as [r'' H]. exists r''.
    change (JS.last_opt (entries_from s (r :: r' :: reqs)))
      with (JS.last_opt (entries_from (s + 1) (r' :: reqs))).
    rewrite H. cbn [List.length]. do 2 f_equal. lia.
Qed.

Lemma seq_entry_of (s : Z) (r : request) : seq (entry_of s r) = s.
Proof. destruct r as [[now ty] p]. reflexivity. Qed.

Lemma file_after_appends (l : t) (reqs : list request) :
  fresh l ->
  well_formed_entries (file (fst (appends l reqs)))
  = parse_lines (JS.split JS.LF (lines_of (snd (appends l reqs)))).
Proof.
  intros Hf. destruct (fresh_state Hf) as (_ & _ & Hfile).
  pose proof (appends_spec reqs l) as H.
  destruct (appends l reqs) as [l' es]. destruct H as (_ & _ & Hfc).
  rewrite Hfile in Hfc. cbn in Hfc. cbn [fst snd]. rewrite <- Hfc.
  unfold well_formed_entries, file_content. reflexivity.
Qed.

(** Reopening after a run of appends on a fresh log, with a positive buffer
    size: the buffer holds the last [size] entries written and the counter is
    the number of appends. *)
Lemma reopen_after_appends (l : t) (reqs : list request) (size : Z) :
  fresh l -> 0 < size ->
  Forall codec_ok (entries_from 1 reqs) ->
  let '(l', es) := appends l reqs in
  buffer (reopen l' (Some size)) = JS.last_n (Z.to_nat size) es
  /\ lastSeq (reopen l' (Some size)) = Z.of_nat (List.length reqs).
Proof.
  intros Hf Hsize Hcodec.
  pose proof (file_after_appends reqs Hf) as Hwf.
  pose proof (appends_spec reqs l) as H.
  destruct (fresh_state Hf) as (H0 & _ & _).
  destruct (appends l reqs) as [l' es]. cbn [fst snd] in Hwf.
  destruct H as (Hes & _ & _). rewrite H0 in Hes. cbn in Hes. subst es.
  rewrite (parse_lines_lines_of Hcodec) in Hwf.
  unfold reopen, createEventLog, lastSeq. cbn [close file].
  rewrite (recoverState_positive _ Hsize), Hwf. cbn. split; [reflexivity|].
  destruct reqs as [|r reqs]; [reflexivity|].
  destruct (last_opt_entries_from reqs 1 r) as [r' Hlast].
  rewrite Hlast, seq_entry_of. cbn [List.length]. lia.
Qed.

Lemma collect_all (es : list EventLogEntry) : forall acc,
  Forall (fun e => 0 < seq e) es -> collect 0 None None es acc = acc ++ es.
Proof.
  induction es as [|e es IH]; intros acc H; cbn; [now rewrite app_nil_r|].
  inversion H as [|? ? He Hes]; subst.
  replace (seq e <=? 0) with false by (symmetry; apply Z.leb_gt; exact He).
  rewrite (IH _ Hes), <- app_assoc. reflexivity.
Qed.

(** The restart scenario of the specification: 7 appends on a fresh log,
    close, reopen with [bufferSize = 3]; [recent()] is the entries numbered
    5, 6, 7 and the next append is numbered 8. *)
Lemma reopen_after_7_appends (l : t) (r1 r2 r3 r4 r5 r6 r7 : request) :
  fresh l ->
  Forall codec_ok (entries_from 1 [r1; r2; r3; r4; r5; r6; r7]) ->
  let l2 := reopen (fst (appends l [r1; r2; r3; r4; r5; r6; r7])) (Some 3) in
  recent l2 no_opts = [entry_of 5 r5; entry_of 6 r6; entry_of 7 r7]
  /\ List.map seq (recent l2 no_opts) = [5; 6; 7]
  /\ forall now ty p, exists l3 e subs,
       append l2 now ty p (Ok tt) = (l3, Ok e, subs) /\ seq e = 8.
Proof.
  intros Hf Hcodec.
  pose proof (@reopen_after_appends l [r1; r2; r3; r4; r5; r6; r7] 3 Hf eq_refl Hcodec) as H.
  pose proof (appends_spec [r1; r2; r3; r4; r5; r6; r7] l) as Hs.
  destruct (fresh_state Hf) as (H0 & _ & _).
  destruct (appends l [r1; r2; r3; r4; r5; r6; r7]) as [l' es].
  destruct Hs as (Hes & _ & _). rewrite H0 in Hes. subst es.
  destruct H as [Hbuf Hseq]. cbn [fst]. cbv zeta.
  assert (Hrecent : recent (reopen l' (Some 3)) no_opts
                    = [entry_of 5 r5; entry_of 6 r6; entry_of 7 r7]).
  { unfold recent. rewrite Hbuf. cbn -[entry_of].
    rewrite collect_all; [reflexivity|].
    repeat constructor; rewrite seq_entry_of; lia. }
  split; [exact Hrecent|]. split.
  - rewrite Hrecent. cbn [List.map]. now rewrite !seq_entry_of.
  - intros now ty p.
    destruct (append_ok_seq (reopen l' (Some 3)) now ty p) as (l3 & subs & Happ & _).
    exists l3, {| seq := lastSeq (reopen l' (Some 3)) + 1; ts := now; type := ty; payload := p |}, subs.
    split; [exact Happ|]. cbn [seq]. rewrite Hseq. reflexivity.
Qed.

(** C2. With [bufferSize = 0] recovery loads every entry of the file, not
    the last [bufferSize] of them: after one append on a fresh log, close and
    reopen with [bufferSize = 0], the buffer and [recent()] hold the entry
    numbered 1, where the last 0 well-formed entries are none.  The append
    path of the same log does keep its buffer within [bufferSize]. *)
Theorem reopen_bufferSize_0_loads_every_entry (l : t) (r : request) :
  fresh l ->
  codec_ok (entry_of 1 r) ->
  let l' := fst (appends l [r]) in
  well_formed_entries (file l') = [entry_of 1 r]
  /\ buffer (reopen l' (Some 0)) = [entry_of 1 r]
  /\ recent (reopen l' (Some 0)) no_opts = [entry_of 1 r]
  /\ JS.last_n (Z.to_nat 0) (well_formed_entries (file l')) = []
  /\ (bufferSize l = 0 -> buffer l' = []).
Proof.
  intros Hf Hcodec.
  assert (Hall : Forall codec_ok (entries_from 1 [r])).
  { cbn [entries_from]. constructor; [exact Hcodec | constructor]. }
  pose proof (file_after_appends [r] Hf) as Hwf.
  pose proof (appends_spec [r] l) as Hs.
  destruct (fresh_state Hf) as (H0 & Hb & Hfile).
  remember (appends l [r]) as res eqn:Hres. destruct res as [l' es].
  destruct Hs as (Hes & _ & Hfc). rewrite H0 in Hes. cbn in Hes. subst es.
  cbn [fst snd] in *. cbv zeta.
  change (lines_of [entry_of 1 r]) with (lines_of (entries_from 1 [r])) in Hwf.
  rewrite (parse_lines_lines_of Hall) in Hwf. cbn in Hwf.
  assert (Hbuf : buffer (reopen l' (Some 0)) = [entry_of 1 r]).
  { unfold reopen, createEventLog, recoverState. cbn [close file].
    unfold well_formed_entries in Hwf.
    destruct (file l') as [raw|] eqn:Efile; [|discriminate Hwf].
    assert (Hraw : raw = lines_of [entry_of 1 r]).
    { rewrite Hfile in Hfc. unfold file_content in Hfc. rewrite Efile in Hfc. exact Hfc. }
    rewrite Hraw at 1. rewrite (lines_of_not_blank [] Hcodec), Hwf.
    cbn [JS.last_opt]. rewrite JS.slice_neg_zero. reflexivity. }
  repeat split.
  - exact Hwf.
  - exact Hbuf.
  - unfold recent. rewrite Hbuf.
    rewrite collect_all; [reflexivity|].
    repeat constructor. rewrite seq_entry_of. lia.
  - rewrite Hwf. reflexivity.
  - intros Hsize. cbn in Hres. destruct r as [[now ty] p]. cbn in Hres.
    inversion Hres; subst l'. cbn. rewrite Hb, Hsize. reflexivity.
Qed.

(** *** Queries *)

(** The entries the loop of [read] and [recent] keeps: those after
    [afterSeq] whose type is the filter's; an empty filter is no filter. *)
Definition kept (afterSeq : Z) (filterType : option string) (e : EventLogEntry) : bool :=
  negb (seq e <=? afterSeq)
  && negb (match filterType with
           | Some ft => negb (JS.is_empty ft) && negb (String.eqb (type e) ft)
           | None => false
           end).

(** How many entries the loop returns at most, out of [all] candidates: the
    limit is tested after an entry is pushed. *)
Definition cap (limit : option Z) (all : nat) : nat :=
  match limit with
  | Some n => Z.to_nat (Z.max 1 n)
  | None => all
  end.

Lemma collect_unlimited (a : Z) (ft : option string) (es : list EventLogEntry) :
  forall acc, collect a None ft es acc = acc ++ List.filter (kept a ft) es.
Proof.
  induction es as [|e es IH]; intros acc; cbn [collect List.filter];
    [now rewrite app_nil_r|].
  unfold kept at 1. destruct (seq e <=? a); cbn [negb andb]; [apply IH|].
  destruct (match ft with Some _ => _ | None => false end); cbn [negb]; [apply IH|].
  rewrite IH, <- app_assoc. reflexivity.
Qed.

Lemma collect_limited (a n : Z) (ft : option string) (es : list EventLogEntry) :
  forall acc,
  collect a (Some n) ft es acc
  = acc ++ firstn (Z.to_nat (Z.max 1 (n - Z.of_nat (List.length acc))))
                  (List.filter (kept a ft) es).
Proof.
  induction es as [|e es IH]; intros acc; cbn [collect List.filter].
  - now rewrite firstn_nil, app_nil_r.
  - unfold kept at 1. destruct (seq e <=? a); cbn [negb andb]; [apply IH|].
    destruct (match ft with Some _ => _ | None => false end); cbn [negb]; [apply IH|].
    rewrite length_app. cbn [List.length].
    destruct (Z.of_nat (List.length acc + 1) >=? n) eqn:E.
    + apply Z.geb_le in E.
      replace (Z.to_nat (Z.max 1 (n - Z.of_nat (List.length acc)))) with 1%nat by lia.
      reflexivity.
    + rewrite Z.geb_leb in E. apply Z.leb_gt in E.
      rewrite IH, length_app, <- app_assoc. cbn [List.length app]. f_equal.
      replace (Z.to_nat (Z.max 1 (n - Z.of_nat (List.length acc))))
        with (S (Z.to_nat (Z.max 1 (n - Z.of_nat (List.length acc + 1))))) by lia.
      reflexivity.
Qed.

Lemma collect_filter_firstn (a : Z) (lim : option Z) (ft : option string)
    (es : list EventLogEntry) :
  collect a lim ft es [] = firstn (cap lim (List.length es)) (List.filter (kept a ft) es).
Proof.
  destruct lim as [n|]; cbn [cap].
  - rewrite collect_limited. cbn [List.length app]. now rewrite Z.sub_0_r.
  - rewrite collect_unlimited. cbn [app]. symmetry. apply firstn_all2.
    apply filter_length_le.
Qed.

(** X1. [recent] and [read] return, in log order, the entries numbered
    above [afterSeq] whose type is the filter's (an empty filter string
    filters nothing), cut after [limit] of them; the limit is tested after
    the push, so a limit of zero or less still returns the first such entry.
    [recent] ranges over the buffer and [read] over the well-formed lines of
    the file (none when the file does not exist). *)
Theorem query_is_filter_then_limit (l : t) (o : ReadOpts) :
  recent l o
  = firstn (cap (limit o) (List.length (buffer l)))
           (List.filter (kept (opt_afterSeq o) (filter o)) (buffer l))
  /\ read l o
     = firstn (cap (limit o) (List.length (well_formed_entries (file l))))
              (List.filter (kept (opt_afterSeq o) (filter o)) (well_formed_entries (file l)))
  /\ (forall n, n <= 1 -> cap (Some n) (List.length (buffer l)) = 1%nat)
  /\ kept (opt_afterSeq o) (Some EmptyString) = kept (opt_afterSeq o) None.
Proof.
  split; [apply collect_filter_firstn|]. split.
  - unfold read, well_formed_entries. destruct (file l) as [raw|].
    + apply collect_filter_firstn.
    + cbn. now rewrite firstn_nil.
  - split; [intros n Hn; cbn; lia | reflexivity].
Qed.

(** *** The ring buffer *)

Lemma last_n_app_last_n (A : Type) (n : nat) (b c : list A) :
  JS.last_n n (JS.last_n n b ++ c) = JS.last_n n (b ++ c).
Proof.
  unfold JS.last_n. rewrite !length_app, length_skipn.
  destruct (Nat.le_gt_cases (List.length b) n) as [H|H].
  - replace (List.length b - n)%nat with 0%nat by lia. cbn [skipn].
    now rewrite Nat.sub_0_r.
  - replace (List.length b - (List.length b - n) + List.length c - n)%nat
      with (List.length c) by lia.
    replace (List.length b + List.length c - n)%nat
      with (List.length c + (List.length b - n))%nat by lia.
    rewrite <- skipn_skipn. f_equal. rewrite skipn_app.
    replace (List.length b - n - List.length b)%nat with 0%nat by lia. reflexivity.
Qed.

Lemma last_n_length (A : Type) (n : nat) (b : list A) :
  List.length (JS.last_n n b) = Nat.min n (List.length b).
Proof. unfold JS.last_n. rewrite length_skipn. lia. Qed.

Lemma append_buffer (l : t) (now : Z) (ty : string) (p : Payload) :
  buffer (fst (fst (append l now ty p (Ok tt))))
  = JS.last_n (Z.to_nat (bufferSize l))
      (buffer l ++ [{| seq := lastSeq l + 1; ts := now; type := ty; payload := p |}])
  /\ bufferSize (fst (fst (append l now ty p (Ok tt)))) = bufferSize l.
Proof.
  split; [|reflexivity]. unfold append, lastSeq. cbn [fst buffer].
  set (pushed := buffer l ++ _).
  unfold JS.last_n, JS.slice.
  destruct (Z.of_nat (List.length pushed) >? bufferSize l) eqn:E.
  - apply Z.gtb_lt in E.
    replace (Z.of_nat (List.length pushed) - bufferSize l <? 0) with false
      by (symmetry; apply Z.ltb_ge; lia).
    f_equal. lia.
  - rewrite Z.gtb_ltb in E. apply Z.ltb_ge in E.
    replace (List.length pushed - Z.to_nat (bufferSize l))%nat with 0%nat by lia.
    reflexivity.
Qed.

Lemma appends_cons (l : t) (now : Z) (ty : string) (p : Payload) (reqs : list request) :
  appends l ((now, ty, p) :: reqs)
  = (fst (appends (fst (fst (append l now ty p (Ok tt)))) reqs),
     {| seq := lastSeq l + 1; ts := now; type := ty; payload := p |}
       :: snd (appends (fst (fst (append l now ty p (Ok tt)))) reqs)).
Proof.
  cbn [appends]. destruct (append_ok_seq l now ty p) as (l1 & subs & Happ & _).
  rewrite Happ. cbn [fst]. destruct (appends l1 reqs); reflexivity.
Qed.

Lemma appends_buffer (reqs : list request) : forall l r,
  buffer (fst (appends l (r :: reqs)))
  = JS.last_n (Z.to_nat (bufferSize l)) (buffer l ++ snd (appends l (r :: reqs))).
Proof.
  induction reqs as [|r' reqs IH]; intros l [[now ty] p]; rewrite appends_cons; cbn [fst snd].
  - cbn [appends fst snd]. apply append_buffer.
  - rewrite IH. destruct (append_buffer l now ty p) as [-> ->].
    rewrite last_n_app_last_n, <- app_assoc. reflexivity.
Qed.

(** X2. After one or more appends the buffer holds the last [bufferSize]
    entries of what it held before followed by the entries appended, in
    order, and never more than [bufferSize] (none when [bufferSize] is zero
    or negative), however many entries it held before. *)
Theorem buffer_keeps_last_bufferSize_entries (l : t) (r : request) (reqs : list request) :
  let l' := fst (appends l (r :: reqs)) in
  let es := snd (appends l (r :: reqs)) in
  buffer l' = JS.last_n (Z.to_nat (bufferSize l)) (buffer l ++ es)
  /\ Z.of_nat (List.length (buffer l')) <= Z.max 0 (bufferSize l)
  /\ recent l' no_opts
     = List.filter (fun e => 0 <? seq e) (JS.last_n (Z.to_nat (bufferSize l)) (buffer l ++ es)).
Proof.
  cbv zeta. rewrite appends_buffer. split; [reflexivity|]. split.
  - rewrite last_n_length. lia.
  - unfold recent. rewrite appends_buffer, collect_unlimited. cbn [app].
    apply filter_ext. intros e. unfold kept, opt_afterSeq. cbn.
    rewrite andb_true_r, Z.ltb_antisym. reflexivity.
Qed.

(** *** The file as the full history *)

Lemma filter_after (k : Z) (reqs : list request) : forall s,
  k < s + Z.of_nat (List.length reqs) ->
  List.filter (kept k None) (entries_from s reqs)
  = skipn (Z.to_nat (k - s + 1)) (entries_from s reqs).
Proof.
  induction reqs as [|r reqs IH]; intros s Hk; cbn [entries_from List.filter].
  - now rewrite skipn_nil.
  - unfold kept at 1. rewrite seq_entry_of, andb_true_r.
    destruct (s <=? k) eqn:E; cbn [negb].
    + apply Z.leb_le in E. cbn [List.length] in Hk.
      rewrite IH by lia.
      replace (Z.to_nat (k - s + 1)) with (S (Z.to_nat (k - (s + 1) + 1))) by lia.
      reflexivity.
    + apply Z.leb_gt in E.
      replace (Z.to_nat (k - s + 1)) with 0%nat by lia. cbn [skipn]. f_equal.
      destruct reqs as [|r' reqs']; [reflexivity|].
      rewrite IH by (cbn [List.length]; lia).
      replace (Z.to_nat (k - (s + 1) + 1)) with 0%nat by lia. reflexivity.
Qed.

Lemma filter_after_all (k : Z) (reqs : list request) (s : Z) :
  List.filter (kept k None) (entries_from s reqs)
  = skipn (Z.to_nat (k - s + 1)) (entries_from s reqs).
Proof.
  destruct (Z_lt_le_dec k (s + Z.of_nat (List.length reqs))) as [H|H];
    [now apply filter_after|].
  rewrite skipn_all2.
  - clear - H. revert s H. induction reqs as [|r reqs IH]; intros s H; [reflexivity|].
    cbn [entries_from List.filter]. unfold kept at 1. rewrite seq_entry_of.
    cbn [List.length] in H.
    replace (s <=? k) with true by (symmetry; apply Z.leb_le; lia).
    cbn [negb andb]. apply IH. lia.
  - assert (L : List.length (entries_from s reqs) = List.length reqs).
    { rewrite <- (length_map seq), entries_from_seq, length_map, length_seq. reflexivity. }
    rewrite L. lia.
Qed.

(** X3. The file is the full history, whatever the buffer size: after a run
    of appends on a fresh log, [read({afterSeq: k})] returns every entry
    written except the first [k] (all of them for [k <= 0], none for [k] at
    or above their number), in the order written. *)
Theorem read_returns_history_after_seq (l : t) (reqs : list request) (k : Z) :
  fresh l ->
  Forall codec_ok (entries_from 1 reqs) ->
  read (fst (appends l reqs)) {| afterSeq := Some k; limit := None; filter := None |}
  = skipn (Z.to_nat k) (entries_from 1 reqs)
  /\ read (fst (appends l reqs)) no_opts = entries_from 1 reqs.
Proof.
  intros Hf Hcodec.
  pose proof (file_after_appends reqs Hf) as Hwf.
  pose proof (appends_spec reqs l) as Hs.
  destruct (fresh_state Hf) as (H0 & _ & _).
  destruct (appends l reqs) as [l' es]. cbn [fst snd] in *.
  destruct Hs as (Hes & _ & _). rewrite H0 in Hes. cbn in Hes. subst es.
  rewrite (parse_lines_lines_of Hcodec) in Hwf.
  assert (Hread : forall o, read l' o
            = collect (opt_afterSeq o) (limit o) (filter o) (entries_from 1 reqs) []).
  { intros o. unfold read. unfold well_formed_entries in Hwf.
    destruct (file l') as [raw|]; [now rewrite Hwf|].
    cbn in Hwf. rewrite <- Hwf. reflexivity. }
  split; rewrite Hread; unfold opt_afterSeq; cbn [afterSeq limit filter no_opts];
    rewrite collect_unlimited, filter_after_all; cbn [app].
  - f_equal. lia.
  - reflexivity.
Qed.

(** *** Recovery from a damaged file *)

Lemma parse_lines_app (a b : list string) :
  parse_lines (a ++ b) = parse_lines a ++ parse_lines b.
Proof.
  induction a as [|line a IH]; cbn [app parse_lines]; [reflexivity|].
  destruct (JS.is_empty (JS.trim line)); [exact IH|].
  destruct (JSON_parse line); [now rewrite IH | exact IH].
Qed.

Lemma no_LF_app (a b : string) : JS.no_LF (a ++ b) = JS.no_LF a && JS.no_LF b.
Proof.
  induction a as [|c a IH]; cbn [String.append JS.no_LF]; [reflexivity|].
  now rewrite IH, andb_assoc.
Qed.

Lemma no_LF_split (s : string) : JS.no_LF s = true -> JS.split JS.LF s = [s].
Proof.
  induction s as [|c s IH]; cbn [JS.no_LF JS.split]; intros H; [reflexivity|].
  apply andb_true_iff in H. destruct H as [Hc Hs]. apply negb_true_iff in Hc.
  now rewrite Hc, (IH Hs).
Qed.

Lemma split_lines_of (es : list EventLogEntry) (tail : string) :
  Forall codec_ok es ->
  JS.split JS.LF (lines_of es ++ tail)
  = List.map JSON_stringify es ++ JS.split JS.LF tail.
Proof.
  induction 1 as [|e es (_ & Hlf & _) _ IH]; [reflexivity|].
  rewrite lines_of_cons. cbn [List.map app].
  rewrite append_assoc.
  change (String JS.LF (lines_of es) ++ tail)%string
    with (String JS.LF (lines_of es ++ tail)).
  rewrite (JS.split_line _ _ Hlf), IH. reflexivity.
Qed.

Lemma parse_lines_written (es : list EventLogEntry) :
  Forall codec_ok es -> parse_lines (List.map JSON_stringify es) = es.
Proof.
  induction 1 as [|e es (Hparse & _ & Hblank) _ IH]; [reflexivity|].
  cbn [List.map parse_lines]. now rewrite Hblank, Hparse, IH.
Qed.

(** The well-formed entries of a file that starts with written lines. *)
Lemma well_formed_entries_app (es : list EventLogEntry) (tail : string) :
  Forall codec_ok es ->
  well_formed_entries (Some (lines_of es ++ tail)%string)
  = es ++ well_formed_entries (Some tail).
Proof.
  intros H. unfold well_formed_entries.
  now rewrite (split_lines_of tail H), parse_lines_app, (parse_lines_written H).
Qed.

(** A line that the loops skip: blank, or not JSON. *)
Definition skipped (line : string) : Prop :=
  JS.is_empty (JS.trim line) = true \/ JSON_parse line = None.

Lemma parse_lines_skipped (line : string) : skipped line -> parse_lines [line] = [].
Proof.
  intros [H|H]; cbn [parse_lines]; [now rewrite H|].
  destruct (JS.is_empty (JS.trim line)); [reflexivity | now rewrite H].
Qed.

Lemma last_opt_none (A : Type) (l : list A) : JS.last_opt l = None -> l = [].
Proof.
  destruct l as [|x l]; [reflexivity|]. intros H. exfalso.
  revert x H. induction l as [|y l IH]; intros x H; cbn in H; [discriminate | exact (IH y H)].
Qed.

(** [recoverState] in terms of the well-formed entries, for any size. *)
Lemma recoverState_entries (f : option string) (size : Z) :
  recoverState f size
  = match JS.last_opt (well_formed_entries f) with
    | Some e => (JS.slice (- size) (well_formed_entries f), seq e)
    | None => ([], 0)
    end.
Proof.
  unfold recoverState, well_formed_entries. destruct f as [raw|]; [|reflexivity].
  destruct (JS.is_empty (JS.trim raw)) eqn:E; [|reflexivity].
  apply JS.trim_empty in E. rewrite (parse_lines_blank (split_all_ws raw E)). reflexivity.
Qed.

Lemma read_entries (l : t) (o : ReadOpts) :
  read l o
  = collect (opt_afterSeq o) (limit o) (filter o) (well_formed_entries (file l)) [].
Proof. unfold read, well_formed_entries. destruct (file l); reflexivity. Qed.

Lemma createEventLog_file (f : option string) (size : option Z) :
  file (createEventLog f size) = f.
Proof. unfold createEventLog. destruct (recoverState _ _). reflexivity. Qed.

Lemma createEventLog_recovered (f : option string) (size : option Z) :
  (buffer (createEventLog f size), lastSeq (createEventLog f size))
  = recoverState f (match size with Some n => n | None => DEFAULT_BUFFER_SIZE end).
Proof. unfold createEventLog, lastSeq. destruct (recoverState _ _). reflexivity. Qed.

Lemma torn_tail_entries (es : list EventLogEntry) (torn : string) :
  Forall codec_ok es -> JS.no_LF torn = true -> skipped torn ->
  well_formed_entries (Some (lines_of es ++ torn)%string) = es.
Proof.
  intros Hes Hlf Hskip.
  rewrite (well_formed_entries_app torn Hes). unfold well_formed_entries.
  rewrite (no_LF_split _ Hlf), (parse_lines_skipped Hskip). apply app_nil_r.
Qed.

(** X4. A torn last line (a write cut short by a crash: text without a line
    feed that is blank or not JSON) after the written lines is ignored:
    recovery restores the same buffer and counter, and [read] returns the
    same entries, as on the file without it. *)
Theorem recovery_ignores_torn_last_line (es : list EventLogEntry) (torn : string)
    (size : option Z) (o : ReadOpts) :
  Forall codec_ok es ->
  JS.no_LF torn = true ->
  skipped torn ->
  well_formed_entries (Some (lines_of es ++ torn)%string) = es
  /\ buffer (createEventLog (Some (lines_of es ++ torn)%string) size)
     = buffer (createEventLog (Some (lines_of es)) size)
  /\ lastSeq (createEventLog (Some (lines_of es ++ torn)%string) size)
     = lastSeq (createEventLog (Some (lines_of es)) size)
  /\ read (createEventLog (Some (lines_of es ++ torn)%string) size) o
     = read (createEventLog (Some (lines_of es)) size) o.
Proof.
  intros Hes Hlf Hskip.
  pose proof (torn_tail_entries Hes Hlf Hskip) as H1.
  assert (H2 : well_formed_entries (Some (lines_of es)) = es).
  { unfold well_formed_entries. apply (parse_lines_lines_of Hes). }
  split; [exact H1|].
  pose proof (createEventLog_recovered (Some (lines_of es ++ torn)%string) size) as R1.
  pose proof (createEventLog_recovered (Some (lines_of es)) size) as R2.
  rewrite recoverState_entries, H1 in R1. rewrite recoverState_entries, H2, <- R1 in R2.
  split; [symmetry; exact (f_equal fst R2) |].
  split; [symmetry; exact (f_equal snd R2) |].
  now rewrite !read_entries, !createEventLog_file, H1, H2.
Qed.

(** X5. The first append after recovering a file with a torn last line
    writes its line right behind the torn text.  When the joined line is not
    JSON the appended entry is lost to the file: the promise resolves to it,
    but [read] does not return it, and after a restart the counter is back at
    its old value, so that its sequence number is given out again. *)
Theorem torn_line_swallows_next_append (es : list EventLogEntry) (torn : string)
    (size : option Z) (now : Z) (ty : string) (p : Payload) :
  let l := createEventLog (Some (lines_of es ++ torn)%string) size in
  let e := {| seq := lastSeq l + 1; ts := now; type := ty; payload := p |} in
  let l' := fst (fst (append l now ty p (Ok tt))) in
  Forall codec_ok es ->
  JS.no_LF torn = true ->
  skipped torn ->
  JS.no_LF (JSON_stringify e) = true ->
  skipped (torn ++ JSON_stringify e)%string ->
  snd (fst (append l now ty p (Ok tt))) = Ok e
  /\ lastSeq l' = lastSeq l + 1
  /\ well_formed_entries (file l') = es
  /\ read l' no_opts = read l no_opts
  /\ lastSeq (reopen l' size) = lastSeq l.
Proof.
  intros l e l' Hes Hlf Hskip0 Hlfe Hskip.
  assert (Hl : file l = Some (lines_of es ++ torn)%string)
    by apply createEventLog_file.
  assert (Hfile : file l'
            = Some (lines_of es
                    ++ (torn ++ JSON_stringify e) ++ String JS.LF EmptyString)%string).
  { unfold l', append. cbn [fst file]. rewrite Hl. fold e.
    now rewrite !append_assoc. }
  assert (Hno : JS.no_LF (torn ++ JSON_stringify e) = true).
  { now rewrite no_LF_app, Hlf, Hlfe. }
  assert (Hwf' : well_formed_entries (file l') = es).
  { rewrite Hfile, (well_formed_entries_app _ Hes). unfold well_formed_entries.
    rewrite (JS.split_line _ _ Hno). cbn [JS.split].
    change [(torn ++ JSON_stringify e)%string; EmptyString]
      with ([(torn ++ JSON_stringify e)%string] ++ [EmptyString]).
    rewrite parse_lines_app, (parse_lines_skipped Hskip). cbn. apply app_nil_r. }
  assert (Hwf : well_formed_entries (file l) = es).
  { rewrite Hl. now apply torn_tail_entries. }
  split; [reflexivity|]. split; [reflexivity|]. split; [exact Hwf'|]. split.
  - now rewrite !read_entries, Hwf, Hwf'.
  - pose proof (createEventLog_recovered (file (close l')) size) as R1.
    pose proof (createEventLog_recovered (Some (lines_of es ++ torn)%string) size) as R2.
    fold l in R2. rewrite recoverState_entries in R1, R2.
    cbn [close file] in R1. rewrite Hwf' in R1. rewrite <- Hl, Hwf, <- R1 in R2.
    unfold reopen. change (file (close l')) with (file l').
    apply (f_equal snd) in R2. cbn [snd] in R2. symmetry. exact R2.
Qed.

(** *** Appends whose disk write may fail *)

(** A run of awaited appends, each with the outcome of its disk write; the
    caller goes on after a rejected one.  Returns the final state and what
    the promises settle to, in call order. *)
Fixpoint append_each (l : t) (reqs : list (request * result unit))
  : t * list (result EventLogEntry) :=
  match reqs with
  | [] => (l, [])
  | ((now, ty, p), disk) :: rest =>
      let '(l', r, _) := append l now ty p disk in
      let '(l'', rs) := append_each l' rest in
      (l'', r :: rs)
  end.

(** The outcomes when the attempts are numbered from [s] on. *)
Fixpoint numbered (s : Z) (reqs : list (request * result unit))
  : list (result EventLogEntry) :=
  match reqs with
  | [] => []
  | (r, disk) :: rest =>
      match disk with
      | Ok _ => Ok (entry_of s r)
      | Err msg => Err msg
      end :: numbered (s + 1) rest
  end.

(** The entries of the resolved promises. *)
Fixpoint resolved (rs : list (result EventLogEntry)) : list EventLogEntry :=
  match rs with
  | [] => []
  | Ok e :: rest => e :: resolved rest
  | Err _ :: rest => resolved rest
  end.

Lemma append_each_spec (reqs : list (request * result unit)) : forall l,
  snd (append_each l reqs) = numbered (lastSeq l + 1) reqs
  /\ lastSeq (fst (append_each l reqs)) = lastSeq l + Z.of_nat (List.length reqs)
  /\ file_content (fst (append_each l reqs))
     = (file_content l ++ lines_of (resolved (snd (append_each l reqs))))%string
  /\ (Forall (fun d => exists msg, snd d = Err msg) reqs ->
      file (fst (append_each l reqs)) = file l
      /\ buffer (fst (append_each l reqs)) = buffer l).
Proof.
  induction reqs as [|[[[now ty] p] disk] rest IH]; intros l.
  - cbn. rewrite append_nil_r. repeat split; lia.
  - cbn [append_each].
    destruct disk as [[]|msg].
    + destruct (append_ok_seq l now ty p) as (l1 & subs & Happ & Hseq & Hfile).
      rewrite Happ. specialize (IH l1). destruct (append_each l1 rest) as [l2 rs].
      cbn [fst snd] in *. destruct IH as (Hrs & Hlast & Hf & _).
      subst rs. cbn [numbered entry_of resolved List.length].
      rewrite Hlast, Hf, Hfile, Hseq.
      split; [f_equal; f_equal; lia|]. split; [lia|]. split.
      * cbn [lines_of fold_right]. now rewrite !append_assoc.
      * intros H. inversion H as [|? ? [m Hm] _]; discriminate Hm.
    + cbn [append]. set (l1 := mkLog _ _ _ _ _ _).
      specialize (IH l1). destruct (append_each l1 rest) as [l2 rs].
      cbn [fst snd] in *. destruct IH as (Hrs & Hlast & Hf & Hall).
      subst rs. cbn [numbered resolved List.length]. rewrite Hlast, Hf.
      unfold l1 at 1 2, lastSeq, file_content. cbn [seq_counter file].
      split; [f_equal; f_equal; unfold l1, lastSeq; cbn; lia|].
      split; [unfold l1, lastSeq; cbn; lia|]. split; [reflexivity|].
      intros H. inversion H; subst. destruct Hall as [-> ->]; [assumption|].
      split; reflexivity.
Qed.

Lemma numbered_increasing (reqs : list (request * result unit)) : forall s,
  Forall (fun e => s <= seq e) (resolved (numbered s reqs))
  /\ StronglySorted Z.lt (List.map seq (resolved (numbered s reqs))).
Proof.
  induction reqs as [|[r disk] rest IH]; intros s; cbn [numbered resolved].
  - split; constructor.
  - destruct (IH (s + 1)) as [Hlow Hsorted].
    assert (Hlow' : Forall (fun e => s <= seq e) (resolved (numbered (s + 1) rest))).
    { eapply Forall_impl; [|exact Hlow]. cbv beta. intros e He. lia. }
    destruct disk as [[]|msg]; cbn [resolved List.map]; [|auto].
    split.
    + constructor; [rewrite seq_entry_of; lia | exact Hlow'].
    + constructor; [exact Hsorted|]. rewrite seq_entry_of.
      apply Forall_map. eapply Forall_impl; [|exact Hlow]. cbv beta. intros e He. lia.
Qed.

(** X6. The counter counts attempts, not entries: in a run of appends whose
    disk writes may be rejected, the k-th call is numbered [lastSeq + k]
    whether or not earlier writes failed.  A rejected append leaves the file
    and the buffer as they were, yet uses up its number, so the numbers
    written are strictly increasing but skip one at every failure, and
    [lastSeq()] ends at the number of calls. *)
Theorem sequence_numbers_count_attempts (l : t) (reqs : list (request * result unit)) :
  let l' := fst (append_each l reqs) in
  let rs := snd (append_each l reqs) in
  rs = numbered (lastSeq l + 1) reqs
  /\ lastSeq l' = lastSeq l + Z.of_nat (List.length reqs)
  /\ file_content l' = (file_content l ++ lines_of (resolved rs))%string
  /\ StronglySorted Z.lt (List.map seq (resolved rs))
  /\ (Forall (fun d => exists msg, snd d = Err msg) reqs ->
      file l' = file l /\ buffer l' = buffer l).
Proof.
  cbv zeta. destruct (append_each_spec reqs l) as (Hrs & Hlast & Hf & Hall).
  repeat split; auto; try (now apply Hall).
  rewrite Hrs. apply numbered_increasing.
Qed.

(** *** Restart *)

Lemma appends_frame (reqs : list request) : forall l,
  bufferSize (fst (appends l reqs)) = bufferSize l
  /\ listeners (fst (appends l reqs)) = listeners l
  /\ typeListeners (fst (appends l reqs)) = typeListeners l.
Proof.
  induction reqs as [|[[now ty] p] rest IH]; intros l; [cbn; auto|].
  rewrite appends_cons. cbn [fst].
  destruct (IH (fst (fst (append l now ty p (Ok tt))))) as (-> & -> & ->).
  cbn. auto.
Qed.

Lemma appends_file_some (reqs : list request) : forall l,
  file l <> None -> file (fst (appends l reqs)) <> None.
Proof.
  induction reqs as [|[[now ty] p] rest IH]; intros l H; [exact H|].
  rewrite appends_cons. cbn [fst]. apply IH. cbn. discriminate.
Qed.

(** X7. A restart is invisible to the log's own state: after a run of
    appends on a fresh log with a positive buffer size, closing the log
    and opening its file again with the same buffer size gives back exactly
    the state the live log had (file, buffer, counter; no subscribers). *)
Theorem reopen_restores_live_state (l : t) (reqs : list request) :
  fresh l ->
  0 < bufferSize l ->
  Forall codec_ok (entries_from 1 reqs) ->
  reopen (fst (appends l reqs)) (Some (bufferSize l)) = fst (appends l reqs).
Proof.
  intros Hf Hsize Hcodec.
  pose proof (@reopen_after_appends l reqs (bufferSize l) Hf Hsize Hcodec) as Hre.
  pose proof (appends_spec reqs l) as Hs.
  destruct (appends_frame reqs l) as (Hbs & Hls & Htl).
  destruct (fresh_state Hf) as (H0 & Hb0 & _).
  assert (Hl0 : listeners l = [] /\ typeListeners l = []).
  { destruct Hf as [sz [-> | ->]]; cbn; auto. }
  assert (Hbuf : buffer (fst (appends l reqs))
                 = JS.last_n (Z.to_nat (bufferSize l)) (snd (appends l reqs))).
  { destruct reqs as [|r reqs]; [cbn [appends fst snd]; now rewrite Hb0, last_n_nil|].
    now rewrite appends_buffer, Hb0. }
  destruct (appends l reqs) as [l' es]. cbn [fst snd] in *.
  destruct Hs as (_ & Hlast & _). destruct Hre as [Hrb Hrs].
  assert (Hfile : file (reopen l' (Some (bufferSize l))) = file l')
    by (unfold reopen; now rewrite createEventLog_file).
  assert (Hsz : bufferSize (reopen l' (Some (bufferSize l))) = bufferSize l')
    by (unfold reopen, createEventLog; destruct (recoverState _ _); cbn; congruence).
  assert (Hsub : listeners (reopen l' (Some (bufferSize l))) = listeners l'
                 /\ typeListeners (reopen l' (Some (bufferSize l))) = typeListeners l').
  { destruct Hl0 as [E1 E2]. rewrite Hls, Htl, E1, E2.
    unfold reopen, createEventLog; destruct (recoverState _ _); cbn; auto. }
  destruct Hsub as [Hsub1 Hsub2]. unfold lastSeq in *.
  rewrite <- Hbuf in Hrb. rewrite H0 in Hlast. cbn in Hlast. rewrite <- Hlast in Hrs.
  destruct (reopen l' (Some (bufferSize l))), l'. cbn in *. congruence.
Qed.

End WithPayload.

(** *** A small instance

    A codec over payload-free entries that writes the sequence number in
    unary, to run the statements above on concrete logs. *)

Fixpoint unary (n : nat) : string :=
  match n with O => EmptyString | S k => String "|" (unary k) end.

Definition demo_stringify (e : EventLogEntry unit) : string :=
  String "#" (unary (Z.to_nat (seq e))).

Definition demo_parse (line : string) : option (EventLogEntry unit) :=
  match line with
  | String "#" bars =>
      Some {| seq := Z.of_nat (String.length bars); ts := 0; type := "tick"; payload := tt |}
  | _ => None
  end.

Definition demo_log : t unit := createEventLog demo_parse None (Some 3).

Definition tick : request unit := (0, "tick", tt).

Lemma demo_log_fresh : fresh demo_parse demo_log.
Proof. exists (Some 3). left. reflexivity. Defined.

Lemma fresh_appends_number_1_to_N_witness :
  fresh demo_parse demo_log
  /\ List.map (@seq unit) (snd (appends demo_stringify demo_log [tick; tick; tick])) = [1; 2; 3].
Proof.
  split; [exact demo_log_fresh|].
  pose proof (@fresh_appends_number_1_to_N unit demo_stringify demo_parse
                demo_log [tick; tick; tick] demo_log_fresh) as H.
  destruct (appends demo_stringify demo_log [tick; tick; tick]) as [l' es].
  destruct H as (_ & _ & H & _). exact H.
Defined.

Lemma reopen_bufferSize_0_loads_every_entry_witness :
  fresh demo_parse demo_log
  /\ codec_ok demo_stringify demo_parse (entry_of 1 tick)
  /\ buffer (reopen demo_parse (fst (appends demo_stringify demo_log [tick])) (Some 0))
     = [entry_of 1 tick].
Proof.
  assert (Hc : codec_ok demo_stringify demo_parse (entry_of 1 tick))
    by (repeat split; reflexivity).
  split; [exact demo_log_fresh|]. split; [exact Hc|].
  exact (proj1 (proj2 (@reopen_bufferSize_0_loads_every_entry unit demo_stringify
                         demo_parse demo_log tick demo_log_fresh Hc))).
Defined.

(** The filter of [read] and [recent] on the events a, b, a, a, b, a:
    [{afterSeq: 2, type: 'a', limit: 2}] gives the entries 3 and 4. *)
Example collect_filters :
  List.map (@seq unit)
    (collect 2 (Some 2) (Some "a")
       (entries_from 1 [(0, "a", tt); (0, "b", tt); (0, "a", tt); (0, "a", tt);
                        (0, "b", tt); (0, "a", tt)]) [])
  = [3; 4].
Proof. reflexivity. Qed.

Lemma demo_codec_ok :
  Forall (codec_ok demo_stringify demo_parse)
         (entries_from 1 [tick; tick; tick; tick; tick; tick; tick]).
Proof. repeat constructor. Qed.

(** The restart scenario on the instance. *)
Example reopen_after_7_appends_demo :
  List.map (@seq unit)
    (recent (reopen demo_parse
               (fst (appends demo_stringify demo_log [tick; tick; tick; tick; tick; tick; tick]))
               (Some 3)) no_opts)
  = [5; 6; 7].
Proof.
  exact (proj1 (proj2 (@reopen_after_7_appends unit demo_stringify demo_parse demo_log
                         tick tick tick tick tick tick tick demo_log_fresh demo_codec_ok))).
Qed.

(** The further statements on the instance. *)

Lemma demo_codec_ok_3 :
  Forall (codec_ok demo_stringify demo_parse) (entries_from 1 [tick; tick; tick]).
Proof. repeat constructor. Defined.

Lemma read_returns_history_after_seq_witness :
  fresh demo_parse demo_log
  /\ Forall (codec_ok demo_stringify demo_parse) (entries_from 1 [tick; tick; tick])
  /\ List.map (@seq unit)
       (read demo_parse (fst (appends demo_stringify demo_log [tick; tick; tick]))
             {| afterSeq := Some 1; limit := None; filter := None |})
     = [2; 3].
Proof.
  split; [exact demo_log_fresh|]. split; [exact demo_codec_ok_3|].
  rewrite (proj1 (@read_returns_history_after_seq unit demo_stringify demo_parse
                    demo_log [tick; tick; tick] 1 demo_log_fresh demo_codec_ok_3)).
  reflexivity.
Defined.

Definition torn_text : string := "{".

Lemma torn_text_skipped : skipped demo_parse torn_text.
Proof. right. reflexivity. Defined.

Lemma recovery_ignores_torn_last_line_witness :
  Forall (codec_ok demo_stringify demo_parse) (entries_from 1 [tick; tick; tick])
  /\ JS.no_LF torn_text = true
  /\ skipped demo_parse torn_text
  /\ lastSeq (createEventLog demo_parse
                (Some (lines_of demo_stringify (entries_from 1 [tick; tick; tick])
                       ++ torn_text)%string) (Some 2))
     = lastSeq (createEventLog demo_parse
                  (Some (lines_of demo_stringify (entries_from 1 [tick; tick; tick])))
                  (Some 2)).
Proof.
  split; [exact demo_codec_ok_3|]. split; [reflexivity|]. split; [exact torn_text_skipped|].
  exact (proj1 (proj2 (proj2 (@recovery_ignores_torn_last_line unit demo_stringify
           demo_parse (entries_from 1 [tick; tick; tick]) torn_text (Some 2) no_opts
           demo_codec_ok_3 eq_refl torn_text_skipped)))).
Defined.

Definition torn_log : t unit :=
  createEventLog demo_parse
    (Some (lines_of demo_stringify (entries_from 1 [tick; tick; tick]) ++ torn_text)%string)
    (Some 2).

Lemma torn_line_swallows_next_append_witness :
  Forall (codec_ok demo_stringify demo_parse) (entries_from 1 [tick; tick; tick])
  /\ JS.no_LF torn_text = true
  /\ skipped demo_parse torn_text
  /\ JS.no_LF (demo_stringify {| seq := lastSeq torn_log + 1; ts := 0; type := "tick";
                                 payload := tt |}) = true
  /\ skipped demo_parse
       (torn_text ++ demo_stringify {| seq := lastSeq torn_log + 1; ts := 0; type := "tick";
                                       payload := tt |})%string
  /\ lastSeq (fst (fst (append demo_stringify torn_log 0 "tick" tt (Ok tt)))) = 4
  /\ lastSeq (reopen demo_parse
                (fst (fst (append demo_stringify torn_log 0 "tick" tt (Ok tt)))) (Some 2))
     = 3.
Proof.
  assert (H4 : JS.no_LF (demo_stringify {| seq := lastSeq torn_log + 1; ts := 0;
                                           type := "tick"; payload := tt |}) = true)
    by reflexivity.
  assert (H5 : skipped demo_parse
                 (torn_text ++ demo_stringify {| seq := lastSeq torn_log + 1; ts := 0;
                                                 type := "tick"; payload := tt |})%string)
    by (right; reflexivity).
  split; [exact demo_codec_ok_3|]. split; [reflexivity|]. split; [exact torn_text_skipped|].
  split; [exact H4|]. split; [exact H5|].
  pose proof (@torn_line_swallows_next_append unit demo_stringify demo_parse
                (entries_from 1 [tick; tick; tick]) torn_text (Some 2) 0 "tick" tt
                demo_codec_ok_3 eq_refl torn_text_skipped H4 H5) as (_ & Hlast & _ & _ & Hre).
  split; [exact Hlast | exact Hre].
Defined.

Lemma reopen_restores_live_state_witness :
  fresh demo_parse demo_log
  /\ 0 < bufferSize demo_log
  /\ Forall (codec_ok demo_stringify demo_parse) (entries_from 1 [tick; tick; tick])
  /\ reopen demo_parse (fst (appends demo_stringify demo_log [tick; tick; tick]))
            (Some (bufferSize demo_log))
     = fst (appends demo_stringify demo_log [tick; tick; tick]).
Proof.
  split; [exact demo_log_fresh|]. split; [reflexivity|]. split; [exact demo_codec_ok_3|].
  exact (@reopen_restores_live_state unit demo_stringify demo_parse demo_log
           [tick; tick; tick] demo_log_fresh eq_refl demo_codec_ok_3).
Defined.

End EventLog.

(** ** The subscriber sets of the event log ([subscribe], [subscribeType])

    The function [subscribeType] returns closes over the [Set] object it
    added the listener to, not over the type's entry of the map.  Here the
    [Set] objects are kept in a store and known by their address, so that an
    unsubscribe function and the map can refer to the same or to different
    sets. *)

Module Subscribers.

Definition EventLogListener : Type := nat.

(** [listeners] is one [Set]; [typeListeners] maps a type to the address of a
    [Set] in [sets], which holds every set created so far. *)
Record t : Type := mkSubscribers {
  listeners : list EventLogListener;
  typeListeners : list (string * nat);
  sets : list (list EventLogListener)
}.

(** The sets of a log that [createEventLog] has just returned. *)
Definition create : t := {| listeners := []; typeListeners := []; sets := [] |}.

(** [set.add(x)] and [set.delete(x)] *)
Definition set_add (x : EventLogListener) (s : list EventLogListener)
  : list EventLogListener :=
  if existsb (Nat.eqb x) s then s else s ++ [x].

Definition set_delete (x : EventLogListener) (s : list EventLogListener)
  : list EventLogListener :=
  List.filter (fun y => negb (Nat.eqb x y)) s.

(** [typeListeners.get(type)] and [typeListeners.delete(type)] *)
Fixpoint map_get (ty : string) (m : list (string * nat)) : option nat :=
  match m with
  | [] => None
  | (k, a) :: m' => if String.eqb k ty then Some a else map_get ty m'
  end.

Fixpoint map_delete (ty : string) (m : list (string * nat)) : list (string * nat) :=
  match m with
  | [] => []
  | (k, a) :: m' => if String.eqb k ty then m' else (k, a) :: map_delete ty m'
  end.

(** A method call on the set at address [a]. *)
Fixpoint set_at (a : nat) (f : list EventLogListener -> list EventLogListener)
    (ss : list (list EventLogListener)) : list (list EventLogListener) :=
  match ss, a with
  | [], _ => []
  | x :: ss', O => f x :: ss'
  | x :: ss', S a' => x :: set_at a' f ss'
  end.

(** The functions [subscribe] and [subscribeType] return. *)
Inductive unsubscribe : Type :=
| Unsubscribe (listener : EventLogListener)
| UnsubscribeType (type : string) (set : nat) (listener : EventLogListener).

Definition subscribe (s : t) (listener : EventLogListener) : t * unsubscribe :=
  ({| listeners := set_add listener (listeners s); typeListeners := typeListeners s;
      sets := sets s |},
   Unsubscribe listener).

Definition subscribeType (s : t) (type : string) (listener : EventLogListener)
  : t * unsubscribe :=
  match map_get type (typeListeners s) with
  | Some a =>
      ({| listeners := listeners s; typeListeners := typeListeners s;
          sets := set_at a (set_add listener) (sets s) |},
       UnsubscribeType type a listener)
  | None =>
      let a := List.length (sets s) in
      ({| listeners := listeners s; typeListeners := typeListeners s ++ [(type, a)];
          sets := sets s ++ [[listener]] |},
       UnsubscribeType type a listener)
  end.

(** Calling an unsubscribe function. *)
Definition call (u : unsubscribe) (s : t) : t :=
  match u with
  | Unsubscribe listener =>
      {| listeners := set_delete listener (listeners s); typeListeners := typeListeners s;
         sets := sets s |}
  | UnsubscribeType type a listener =>
      let sets' := set_at a (set_delete listener) (sets s) in
      match nth a sets' [] with
      | [] => {| listeners := listeners s;
                 typeListeners := map_delete type (typeListeners s); sets := sets' |}
      | _ => {| listeners := listeners s; typeListeners := typeListeners s; sets := sets' |}
      end
  end.

(** [close()]: [listeners.clear()] and [typeListeners.clear()]; the sets the
    map held are left as they are. *)
Definition close (s : t) : t :=
  {| listeners := []; typeListeners := []; sets := sets s |}.

(** The subscribers an append of an entry of type [type] calls, in order. *)
Definition notified (s : t) (type : string) : list EventLogListener :=
  listeners s ++ match map_get type (typeListeners s) with
                 | Some a => nth a (sets s) []
                 | None => []
                 end.

Lemma map_get_new (ty : string) (a : nat) (m : list (string * nat)) :
  map_get ty m = None -> map_get ty (m ++ [(ty, a)]) = Some a.
Proof.
  induction m as [|[k b] m IH]; cbn [app map_get]; intros H.
  - now rewrite String.eqb_refl.
  - destruct (String.eqb k ty); [discriminate | exact (IH H)].
Qed.

Lemma map_delete_new (ty : string) (a : nat) (m : list (string * nat)) :
  map_get ty m = None -> map_delete ty (m ++ [(ty, a)]) = m.
Proof.
  induction m as [|[k b] m IH]; cbn [app map_get map_delete]; intros H.
  - now rewrite String.eqb_refl.
  - destruct (String.eqb k ty); [discriminate | now rewrite (IH H)].
Qed.

Lemma set_at_middle (f : list EventLogListener -> list EventLogListener)
    (l : list (list EventLogListener)) (x : list EventLogListener)
    (r : list (list EventLogListener)) :
  set_at (List.length l) f (l ++ x :: r) = l ++ f x :: r.
Proof. induction l as [|y l IH]; cbn; [reflexivity | now rewrite IH]. Qed.

Lemma set_delete_one (x : EventLogListener) : set_delete x [x] = [].
Proof. unfold set_delete. cbn. now rewrite Nat.eqb_refl. Qed.

(** X8. An unsubscribe function that is called late silences a subscriber
    it was not made for.  The function closes over the set it added
    its listener to, and removes the type's entry of the map whenever that
    set is empty.  So for a type without subscribers: after [f] subscribes
    and unsubscribes and [g] subscribes, a second call of the unsubscribe
    function of [f] removes the set of [g] from the map, and appends of
    that type no longer reach [g]; the same happens at its first call when
    the log was closed and [g] subscribed in between. *)
Theorem late_unsubscribe_silences_new_subscriber (s : t) (type : string)
    (f g : EventLogListener) :
  map_get type (typeListeners s) = None ->
  let '(s1, unsubscribe_f) := subscribeType s type f in
  let s2 := call unsubscribe_f s1 in
  let '(s3, _) := subscribeType s2 type g in
  let s4 := call unsubscribe_f s3 in
  let '(s3', _) := subscribeType (close s1) type g in
  let s4' := call unsubscribe_f s3' in
  notified s1 type = listeners s ++ [f]
  /\ notified s2 type = listeners s
  /\ notified s3 type = listeners s ++ [g]
  /\ notified s4 type = listeners s
  /\ notified s3' type = [g]
  /\ notified s4' type = [].
Proof.
  intros Hnone. unfold subscribeType at 1. rewrite Hnone. cbv zeta.
  set (n := List.length (sets s)).
  assert (H2 : call (UnsubscribeType type n f)
                 {| listeners := listeners s; typeListeners := typeListeners s ++ [(type, n)];
                    sets := sets s ++ [[f]] |}
               = {| listeners := listeners s; typeListeners := typeListeners s;
                    sets := sets s ++ [[]] |}).
  { unfold call. cbn [sets typeListeners listeners]. unfold n.
    rewrite set_at_middle, set_delete_one, nth_middle, (@map_delete_new _ _ _ Hnone).
    reflexivity. }
  rewrite H2. unfold subscribeType. cbn [typeListeners sets listeners close]. rewrite Hnone.
  assert (Hlen : List.length (sets s ++ [[]]) = S n) by (rewrite length_app; cbn; lia).
  rewrite Hlen.
  assert (H4 : call (UnsubscribeType type n f)
                 {| listeners := listeners s; typeListeners := typeListeners s ++ [(type, S n)];
                    sets := (sets s ++ [[]]) ++ [[g]] |}
               = {| listeners := listeners s; typeListeners := typeListeners s;
                    sets := (sets s ++ [[]]) ++ [[g]] |}).
  { unfold call. cbn [sets typeListeners listeners]. unfold n.
    rewrite <- app_assoc. cbn [app].
    rewrite set_at_middle, nth_middle. cbn [set_delete List.filter].
    rewrite (@map_delete_new _ _ _ Hnone). reflexivity. }
  rewrite H4. cbn [map_get].
  assert (Hlen' : List.length (sets s ++ [[f]]) = S n) by (rewrite length_app; cbn; lia).
  rewrite Hlen'.
  assert (H4' : call (UnsubscribeType type n f)
                  {| listeners := []; typeListeners := [] ++ [(type, S n)];
                     sets := (sets s ++ [[f]]) ++ [[g]] |}
                = {| listeners := []; typeListeners := [];
                     sets := (sets s ++ [[]]) ++ [[g]] |}).
  { unfold call. cbn [sets typeListeners listeners]. unfold n.
    rewrite <- !app_assoc. cbn [app].
    rewrite set_at_middle, nth_middle, set_delete_one. cbn [map_delete].
    now rewrite String.eqb_refl. }
  rewrite H4'. unfold notified. cbn [listeners typeListeners sets].
  rewrite !(@map_get_new _ _ _ Hnone), Hnone. cbn [app map_get]. rewrite String.eqb_refl.
  unfold n. rewrite nth_middle.
  replace (S (List.length (sets s))) with (List.length (sets s ++ [[]]))
    by (rewrite length_app; cbn; lia).
  rewrite nth_middle.
  replace (List.length (sets s ++ [[]])) with (List.length (sets s ++ [[f]]))
    by (rewrite !length_app; reflexivity).
  rewrite nth_middle.
  repeat split; auto using app_nil_r.
Qed.

Lemma late_unsubscribe_silences_new_subscriber_witness :
  map_get "cron.fire" (typeListeners create) = None
  /\ notified (call (snd (subscribeType create "cron.fire" 1%nat))
                    (fst (subscribeType
                            (call (snd (subscribeType create "cron.fire" 1%nat))
                                  (fst (subscribeType create "cron.fire" 1%nat)))
                            "cron.fire" 2%nat)))
              "cron.fire"
     = [].
Proof.
  split; [reflexivity|].
  exact (proj1 (proj2 (proj2 (proj2
           (@late_unsubscribe_silences_new_subscriber create "cron.fire" 1%nat 2%nat
              eq_refl))))).
Defined.

End Subscribers.

(** ** Heartbeat: response parser, active hours, dedup ([src/task/heartbeat/heartbeat.ts]) *)

Module HeartbeatParse.

Import Regex.

Definition NL : string := String JS.LF EmptyString.

Definition HEARTBEAT_JOB_NAME : string := "__heartbeat__".

Record ActiveHours : Type := mkActiveHours {
  start : string;
  end_ : string;
  timezone : string
}.

Record HeartbeatConfig : Type := mkConfig {
  enabled : bool;
  every : string;
  prompt : string;
  activeHours : option ActiveHours
}.

Inductive HeartbeatStatus : Type := HEARTBEAT_OK | CHAT_YES | CHAT_NO.

Record ParsedHeartbeatResponse : Type := mkParsed {
  status : HeartbeatStatus;
  reason : string;
  content : string;
  unparsed : bool
}.

(** [/^\s*STATUS:\s*(HEARTBEAT_OK|CHAT_YES|CHAT_NO)\s*$/im] *)
Definition STATUS_RE : re :=
  cat [Bol true; Star space; lit_ci "STATUS:"; Star space;
       Group 1 (Alt (lit_ci "HEARTBEAT_OK") (Alt (lit_ci "CHAT_YES") (lit_ci "CHAT_NO")));
       Star space; Eol true].

(** [/^\s*REASON:\s*(.+?)(?=\n\s*(?:STATUS|CONTENT):|\s*$)/ims] *)
Definition REASON_RE : re :=
  cat [Bol true; Star space; lit_ci "REASON:"; Star space;
       Group 1 (lazy_plus any);
       Ahead (Alt (cat [chr JS.LF; Star space;
                        Alt (lit_ci "STATUS") (lit_ci "CONTENT"); chr_ci ":"])
                  (cat [Star space; Eol true]))].

(** [/^\s*CONTENT:\s*(.+)/ims] *)
Definition CONTENT_RE : re :=
  cat [Bol true; Star space; lit_ci "CONTENT:"; Star space; Group 1 (plus any)].

Fixpoint string_eqb_ci (a b : string) : bool :=
  match a, b with
  | EmptyString, EmptyString => true
  | String x a', String y b' => Ascii.eqb (upper x) (upper y) && string_eqb_ci a' b'
  | _, _ => false
  end.

(** [statusMatch[1].toUpperCase() as HeartbeatStatus]: the capture is one of
    the three alternatives, up to case. *)
Definition status_of (cap : string) : HeartbeatStatus :=
  if string_eqb_ci cap "HEARTBEAT_OK" then HEARTBEAT_OK
  else if string_eqb_ci cap "CHAT_NO" then CHAT_NO
  else CHAT_YES.

(** [m?.[1]?.trim() ?? ''] *)
Definition trimmed_group (m : option captures) : string :=
  match m with
  | Some cs => match group 1 cs with Some s => JS.trim s | None => EmptyString end
  | None => EmptyString
  end.

Definition parseHeartbeatResponse (raw : string) : ParsedHeartbeatResponse :=
  let trimmed := JS.trim raw in
  if JS.is_empty trimmed then
    {| status := HEARTBEAT_OK; reason := "empty response"; content := EmptyString;
       unparsed := false |}
  else
    match exec STATUS_RE trimmed with
    | None =>
        {| status := CHAT_YES; reason := "unparsed response"; content := trimmed;
           unparsed := true |}
    | Some statusMatch =>
        let status := status_of (match group 1 statusMatch with
                                 | Some s => s
                                 | None => EmptyString
                                 end) in
        let reason := trimmed_group (exec REASON_RE trimmed) in
        let content := trimmed_group (exec CONTENT_RE trimmed) in
        {| status := status; reason := reason; content := content; unparsed := false |}
    end.

(** [/^(\d{1,2}):(\d{2})$/] *)
Definition HHMM_RE : re :=
  cat [Bol false; Group 1 (Cat digit (opt digit)); chr ":"; Group 2 (Cat digit digit);
       Eol false].

Definition parseHHMM (s : string) : option Z :=
  match exec HHMM_RE s with
  | None => None
  | Some m =>
      match group 1 m, group 2 m with
      | Some g1, Some g2 =>
          let h := Number_digits g1 in
          let min := Number_digits g2 in
          if (h >? 23) || (min >? 59) then None else Some (h * 60 + min)
      | _, _ => None
      end
  end.

Section ActiveHours.

(** [currentMinutesInTimezone(tz, nowMs)]: the minute of the day at [nowMs]
    on the wall clock of time zone [tz], which the source takes from [Date]
    and [Intl.DateTimeFormat] of the platform. *)
Variable currentMinutesInTimezone : string -> option Z -> Z.

Definition isWithinActiveHours (activeHours : option ActiveHours) (nowMs : option Z) : bool :=
  match activeHours with
  | None => true
  | Some ah =>
      match parseHHMM (start ah), parseHHMM (end_ ah) with
      | Some startMinutes, Some endMinutes =>
          let nowMinutes := currentMinutesInTimezone (timezone ah) nowMs in
          if startMinutes <=? endMinutes
          then (nowMinutes >=? startMinutes) && (nowMinutes <? endMinutes)
          else (nowMinutes >=? startMinutes) || (nowMinutes <? endMinutes)
      | _, _ => true
      end
  end.

End ActiveHours.

(** [class HeartbeatDedup] *)
Record HeartbeatDedup : Type := mkDedup {
  lastText : option string;
  lastSentAt : Z;
  windowMs : Z
}.

Definition new_HeartbeatDedup : HeartbeatDedup :=
  {| lastText := None; lastSentAt := 0; windowMs := 24 * 60 * 60 * 1000 |}.

Definition isDuplicate (d : HeartbeatDedup) (text : string) (nowMs : Z) : bool :=
  match lastText d with
  | None => false
  | Some t => if negb (String.eqb text t) then false else nowMs - lastSentAt d <? windowMs d
  end.

Definition record (d : HeartbeatDedup) (text : string) (nowMs : Z) : HeartbeatDedup :=
  {| lastText := Some text; lastSentAt := nowMs; windowMs := windowMs d |}.

(** One of the three status words, up to case. *)
Definition status_word (w : string) : Prop :=
  string_eqb_ci w "HEARTBEAT_OK" = true \/ string_eqb_ci w "CHAT_YES" = true
  \/ string_eqb_ci w "CHAT_NO" = true.

(** A [STATUS:] line, in the words of the specification: [STATUS:] followed
    by one of the three status words, case-insensitively, with white space
    tolerated around them. *)
Definition status_line (l : string) : Prop :=
  exists w1 kw w2 word w3,
    l = (w1 ++ kw ++ w2 ++ word ++ w3)%string
    /\ JS.all_ws w1 = true /\ string_eqb_ci kw "STATUS:" = true
    /\ JS.all_ws w2 = true /\ status_word word /\ JS.all_ws w3 = true.

(** The lines of a text: the runs between its line terminators. *)
Fixpoint lines (s : string) : list string :=
  match s with
  | EmptyString => [EmptyString]
  | String c s' =>
      if JS.is_lt c then EmptyString :: lines s'
      else match lines s' with
           | l :: ls => String c l :: ls
           | [] => [String c EmptyString]
           end
  end.

(** No line of the reply is a [STATUS:] line. *)
Definition no_status_line (raw : string) : Prop :=
  forall l, In l (lines raw) -> ~ status_line l.

(** The text [pre] before a position ends a line: the position is at the
    start of the text or behind a line terminator. *)
Definition at_line_start (pre : string) : Prop :=
  pre = EmptyString
  \/ exists pre0 c, pre = (pre0 ++ String c EmptyString)%string /\ JS.is_lt c = true.

(** The text [post] behind a position starts a line: the position is at the
    end of the text or before a line terminator. *)
Definition at_line_end (post : string) : Prop :=
  post = EmptyString \/ exists c post0, post = String c post0 /\ JS.is_lt c = true.

(** An occurrence of [STATUS:] and a status word that starts at the start of
    a line and ends at the end of a line, where the white space around the two
    may hold line breaks: the header and the word need not be on one line. *)
Definition status_occurrence (s : string) : Prop :=
  exists pre w1 kw w2 word w3 post,
    s = (pre ++ w1 ++ kw ++ w2 ++ word ++ w3 ++ post)%string
    /\ at_line_start pre
    /\ JS.all_ws w1 = true /\ string_eqb_ci kw "STATUS:" = true
    /\ JS.all_ws w2 = true /\ status_word word /\ JS.all_ws w3 = true
    /\ at_line_end post.

(** The fail-open result for the reply [raw]. *)
Definition fail_open (raw : string) : ParsedHeartbeatResponse :=
  {| status := CHAT_YES; reason := "unparsed response"; content := JS.trim raw;
     unparsed := true |}.

(** [c] is a code unit of [s]. *)
Fixpoint has_unit (c : ascii) (s : string) : bool :=
  match s with
  | EmptyString => false
  | String x s' => Ascii.eqb x c || has_unit c s'
  end.

(** A valid 'HH:MM' time, in the words of the specification: an hour of one
    or two digits, at most 23, a colon, and a minute of two digits, at most
    59. *)
Definition valid_HHMM (s : string) : Prop :=
  exists hh mm,
    s = (hh ++ ":" ++ mm)%string
    /\ JS.all_digits hh = true
    /\ (String.length hh = 1 \/ String.length hh = 2)%nat
    /\ Number_digits hh <= 23
    /\ JS.all_digits mm = true
    /\ String.length mm = 2%nat
    /\ Number_digits mm <= 59.

(** *** The parser on the responses of the test suite *)

Example parse_heartbeat_ok :
  parseHeartbeatResponse ("STATUS: HEARTBEAT_OK" ++ NL ++ "REASON: All good.")
  = {| status := HEARTBEAT_OK; reason := "All good."; content := ""; unparsed := false |}.
Proof. vm_compute. reflexivity. Qed.

Example parse_chat_yes :
  parseHeartbeatResponse
    ("STATUS: CHAT_YES" ++ NL ++ "REASON: Price alert." ++ NL
     ++ "CONTENT: BTC dropped 8% to $87,200.")
  = {| status := CHAT_YES; reason := "Price alert.";
       content := "BTC dropped 8% to $87,200."; unparsed := false |}.
Proof. vm_compute. reflexivity. Qed.

Example parse_multiline_content :
  content (parseHeartbeatResponse
    ("STATUS: CHAT_YES" ++ NL ++ "REASON: Multiple alerts." ++ NL
     ++ "CONTENT: Line 1" ++ NL ++ "Line 2" ++ NL ++ "Line 3"))
  = ("Line 1" ++ NL ++ "Line 2" ++ NL ++ "Line 3")%string.
Proof. vm_compute. reflexivity. Qed.

Example parse_case_insensitive :
  status (parseHeartbeatResponse ("status: heartbeat_ok" ++ NL ++ "reason: ok")) = HEARTBEAT_OK.
Proof. vm_compute. reflexivity. Qed.

Example parse_extra_whitespace :
  parseHeartbeatResponse ("  STATUS:   CHAT_NO  " ++ NL ++ "  REASON:   All quiet.  ")
  = {| status := CHAT_NO; reason := "All quiet."; content := ""; unparsed := false |}.
Proof. vm_compute. reflexivity. Qed.

Example parse_unparseable :
  parseHeartbeatResponse "Something unexpected happened with BTC!"
  = {| status := CHAT_YES; reason := "unparsed response";
       content := "Something unexpected happened with BTC!"; unparsed := true |}.
Proof. vm_compute. reflexivity. Qed.

Example parse_empty :
  parseHeartbeatResponse ""
  = {| status := HEARTBEAT_OK; reason := "empty response"; content := ""; unparsed := false |}.
Proof. vm_compute. reflexivity. Qed.

Example parse_chat_yes_without_content :
  parseHeartbeatResponse ("STATUS: CHAT_YES" ++ NL ++ "REASON: Want to say hi.")
  = {| status := CHAT_YES; reason := "Want to say hi."; content := ""; unparsed := false |}.
Proof. vm_compute. reflexivity. Qed.

Example parseHHMM_examples :
  parseHHMM "09:00" = Some 540 /\ parseHHMM "22:00" = Some 1320 /\ parseHHMM "9:05" = Some 545
  /\ parseHHMM "invalid" = None /\ parseHHMM "24:00" = None /\ parseHHMM "12:60" = None
  /\ parseHHMM "12:5" = None /\ parseHHMM "012:00" = None.
Proof. vm_compute. repeat split; reflexivity. Qed.


(** *** Fail-open parsing *)

Lemma all_units_ws (w : string) : all_units JS.is_ws w = JS.all_ws w.
Proof. induction w as [|c w IH]; cbn; [reflexivity | now rewrite IH]. Qed.

Lemma reach_spaces p cs p' cs' :
  reach (Star space) p cs p' cs' ->
  exists w, rest p = (w ++ rest p')%string /\ JS.all_ws w = true.
Proof.
  intros H. destruct (@reach_star_chr JS.is_ws _ _ _ _ _ H eq_refl) as (_ & w & Hw & Hall).
  exists w. rewrite <- all_units_ws. auto.
Qed.

Lemma reach_lit_ci (s : string) : forall p cs p' cs',
  reach (lit_ci s) p cs p' cs' ->
  exists kw, rest p = (kw ++ rest p')%string /\ string_eqb_ci kw s = true.
Proof.
  induction s as [|c s IH]; intros p cs p' cs' H.
  - apply reach_eps_inv in H. destruct H as [-> _]. exists EmptyString. split; reflexivity.
  - destruct s as [|d s].
    + apply reach_chr_inv in H. destruct H as (x & t & Hrest & Hx & -> & _).
      exists (String x EmptyString). cbn [rest String.append string_eqb_ci].
      split; [exact Hrest | now rewrite Hx].
    + change (lit_ci (String c (String d s))) with (Cat (chr_ci c) (lit_ci (String d s))) in H.
      apply reach_cat_inv in H. destruct H as (p1 & cs1 & H1 & H2).
      apply reach_chr_inv in H1. destruct H1 as (x & t & Hrest & Hx & -> & _).
      destruct (IH _ _ _ _ H2) as (kw & Hkw & Heq). cbn [rest] in Hkw.
      exists (String x kw). split; [rewrite Hrest, Hkw; reflexivity|].
      change (string_eqb_ci (String x kw) (String c (String d s)))
        with (Ascii.eqb (upper x) (upper c) && string_eqb_ci kw (String d s)).
      now rewrite Hx, Heq.
Qed.

Lemma STATUS_RE_shape :
  STATUS_RE
  = Cat (Bol true)
      (Cat (Star space)
         (Cat (lit_ci "STATUS:")
            (Cat (Star space)
               (Cat (Group 1 (Alt (lit_ci "HEARTBEAT_OK")
                                  (Alt (lit_ci "CHAT_YES") (lit_ci "CHAT_NO"))))
                  (Cat (Star space) (Eol true)))))).
Proof. reflexivity. Qed.

(** What a match of the [STATUS:] pattern spans. *)
Lemma reach_STATUS_RE p cs p' cs' :
  reach STATUS_RE p cs p' cs' ->
  at_bol true p = true /\ at_eol true p' = true
  /\ exists w1 kw w2 word w3,
       rest p = (w1 ++ kw ++ w2 ++ word ++ w3 ++ rest p')%string
       /\ JS.all_ws w1 = true /\ string_eqb_ci kw "STATUS:" = true
       /\ JS.all_ws w2 = true /\ status_word word /\ JS.all_ws w3 = true.
Proof.
  rewrite STATUS_RE_shape. intros H.
  apply reach_cat_inv in H. destruct H as (p0 & cs0 & Hbol & H).
  apply reach_bol_inv in Hbol. destruct Hbol as (-> & -> & Hbol).
  apply reach_cat_inv in H. destruct H as (p1 & cs1 & Hw1 & H).
  apply reach_cat_inv in H. destruct H as (p2 & cs2 & Hkw & H).
  apply reach_cat_inv in H. destruct H as (p3 & cs3 & Hw2 & H).
  apply reach_cat_inv in H. destruct H as (p4 & cs4 & Hword & H).
  apply reach_cat_inv in H. destruct H as (p5 & cs5 & Hw3 & Heol).
  apply reach_eol_inv in Heol. destruct Heol as (-> & _ & Heol).
  apply reach_spaces in Hw1, Hw2, Hw3.
  destruct Hw1 as (w1 & E1 & A1). destruct Hw2 as (w2 & E2 & A2).
  destruct Hw3 as (w3 & E3 & A3).
  apply reach_lit_ci in Hkw. destruct Hkw as (kw & Ekw & Hkw).
  apply reach_group_inv in Hword. destruct Hword as (cs4' & Hword).
  assert (Hw : exists word, rest p3 = (word ++ rest p4)%string /\ status_word word).
  { unfold status_word.
    apply reach_alt_inv in Hword. destruct Hword as [Hword|Hword].
    - apply reach_lit_ci in Hword. destruct Hword as (word & E & Hword). eauto.
    - apply reach_alt_inv in Hword. destruct Hword as [Hword|Hword];
        apply reach_lit_ci in Hword; destruct Hword as (word & E & Hword); eauto. }
  destruct Hw as (word & Eword & Hword').
  split; [exact Hbol|]. split; [exact Heol|].
  exists w1, kw, w2, word, w3.
  split; [rewrite E1, Ekw, E2, Eword, E3; reflexivity|]. auto 10.
Qed.

Lemma trimStart_decompose (s : string) :
  exists lead, s = (lead ++ JS.trimStart s)%string /\ JS.all_ws lead = true.
Proof.
  induction s as [|c s (lead & E & A)]; [exists EmptyString; split; reflexivity|].
  cbn [JS.trimStart]. destruct (JS.is_ws c) eqn:Ec.
  - exists (String c lead). cbn [String.append JS.all_ws]. rewrite Ec, A, <- E. auto.
  - exists EmptyString. split; reflexivity.
Qed.

Lemma trimEnd_decompose (s : string) :
  exists trail, s = (JS.trimEnd s ++ trail)%string /\ JS.all_ws trail = true.
Proof.
  induction s as [|c s (trail & E & A)]; [exists EmptyString; split; reflexivity|].
  cbn [JS.trimEnd]. destruct (JS.trimEnd s) as [|x t] eqn:Et.
  - cbn [String.append] in E. subst trail. destruct (JS.is_ws c) eqn:Ec.
    + exists (String c s). cbn [String.append JS.all_ws]. rewrite Ec, A. auto.
    + exists s. cbn [String.append]. auto.
  - exists trail. split; [|exact A]. rewrite E at 1. reflexivity.
Qed.

Lemma trim_decompose (s : string) :
  exists lead trail,
    s = (lead ++ JS.trim s ++ trail)%string
    /\ JS.all_ws lead = true /\ JS.all_ws trail = true.
Proof.
  destruct (trimStart_decompose s) as (lead & E1 & A1).
  destruct (trimEnd_decompose (JS.trimStart s)) as (trail & E2 & A2).
  exists lead, trail. unfold JS.trim. rewrite <- E2, <- E1. auto.
Qed.

Ltac string_assoc :=
  repeat rewrite string_app_assoc; cbn [String.append];
  repeat rewrite string_app_nil_r; reflexivity.

(** An occurrence in the trimmed reply is an occurrence in the reply. *)
Lemma status_occurrence_trim (raw : string) :
  status_occurrence (JS.trim raw) -> status_occurrence raw.
Proof.
  intros (pre & w1 & kw & w2 & word & w3 & post & E & Hpre & A1 & Hkw & A2 & Hword & A3
          & Hpost).
  destruct (trim_decompose raw) as (lead & trail & Eraw & Al & At).
  rewrite E in Eraw. clear E.
  destruct Hpre as [->|(pre0 & c & -> & Hc)]; destruct Hpost as [->|(x & post0 & -> & Hx)].
  - exists EmptyString, (lead ++ w1)%string, kw, w2, word, (w3 ++ trail)%string, EmptyString.
    split; [rewrite Eraw; string_assoc|].
    split; [now left|]. rewrite !JS.all_ws_app, Al, A1, A3, At. cbn [andb].
    repeat split; auto. now left.
  - exists EmptyString, (lead ++ w1)%string, kw, w2, word, w3, (String x (post0 ++ trail)).
    split; [rewrite Eraw; string_assoc|].
    split; [now left|]. rewrite !JS.all_ws_app, Al, A1. cbn [andb].
    repeat split; auto. right. eauto.
  - exists ((lead ++ pre0) ++ String c EmptyString)%string, w1, kw, w2, word,
      (w3 ++ trail)%string, EmptyString.
    split; [rewrite Eraw; string_assoc|].
    split; [right; eauto|]. rewrite !JS.all_ws_app, A3, At. cbn [andb].
    repeat split; auto. now left.
  - exists ((lead ++ pre0) ++ String c EmptyString)%string, w1, kw, w2, word, w3,
      (String x (post0 ++ trail)).
    split; [rewrite Eraw; string_assoc|].
    split; [right; eauto|]. repeat split; auto. right. eauto.
Qed.

(** A match of the [STATUS:] pattern is an occurrence. *)
Lemma exec_STATUS_RE_occurrence (s : string) (m : captures) :
  exec STATUS_RE s = Some m -> status_occurrence s.
Proof.
  intros H. apply exec_found in H. destruct H as (pre & s' & p' & -> & cs' & Hr).
  apply reach_STATUS_RE in Hr. cbn [rest] in Hr.
  destruct Hr as (Hbol & Heol & w1 & kw & w2 & word & w3 & E & A1 & Hkw & A2 & Hword & A3).
  exists pre, w1, kw, w2, word, w3, (rest p'). rewrite E.
  split; [reflexivity|]. split.
  { unfold at_bol in Hbol. cbn [prev] in Hbol.
    destruct (last_unit_cases pre None) as [[-> _]|(pre0 & c & -> & Hl)]; [now left|].
    rewrite Hl in Hbol. right. exists pre0, c. split; [reflexivity | exact Hbol]. }
  repeat split; auto.
  unfold at_eol in Heol. destruct (rest p') as [|c t]; [now left|].
  right. exists c, t. split; [reflexivity | exact Heol].
Qed.

(** The lines of a text, in the text. *)
Lemma lines_spec (s : string) :
  exists l ls post,
    lines s = l :: ls /\ s = (l ++ post)%string /\ at_line_end post
    /\ forall l', In l' ls ->
         exists pre0 x post',
           s = (pre0 ++ String x (l' ++ post'))%string
           /\ JS.is_lt x = true /\ at_line_end post'.
Proof.
  induction s as [|c s (l & ls & post & El & Es & Hpost & Htail)].
  - exists EmptyString, [], EmptyString. repeat split; [now left | intros l' []].
  - cbn [lines]. destruct (JS.is_lt c) eqn:Ec.
    + exists EmptyString, (lines s), (String c s).
      repeat split; [right; eauto|]. rewrite El. intros l' [<-|Hin].
      * exists EmptyString, c, post. rewrite <- Es. auto.
      * destruct (Htail _ Hin) as (pre0 & x & post' & E & Hx & Hp).
        exists (String c pre0), x, post'. cbn [String.append]. rewrite <- E. auto.
    + rewrite El. exists (String c l), ls, post. cbn [String.append]. rewrite <- Es.
      repeat split; [exact Hpost|]. intros l' Hin.
      destruct (Htail _ Hin) as (pre0 & x & post' & E & Hx & Hp).
      exists (String c pre0), x, post'. cbn [String.append]. rewrite <- E. auto.
Qed.

Lemma lines_in (s l : string) :
  In l (lines s) ->
  exists pre post, s = (pre ++ l ++ post)%string /\ at_line_start pre /\ at_line_end post.
Proof.
  destruct (lines_spec s) as (l0 & ls & post & El & Es & Hpost & Htail).
  rewrite El. intros [<-|Hin].
  - exists EmptyString, post. split; [exact Es|]. split; [now left | exact Hpost].
  - destruct (Htail _ Hin) as (pre0 & x & post' & E & Hx & Hp).
    exists (pre0 ++ String x EmptyString)%string, post'.
    split; [rewrite E; string_assoc|]. split; [right; eauto | exact Hp].
Qed.

(** A [STATUS:] line of the reply is an occurrence, so a reply without
    occurrence has no [STATUS:] line. *)
Lemma status_line_occurrence (s l : string) :
  In l (lines s) -> status_line l -> status_occurrence s.
Proof.
  intros Hin (w1 & kw & w2 & word & w3 & -> & A1 & Hkw & A2 & Hword & A3).
  destruct (lines_in _ _ Hin) as (pre & post & -> & Hpre & Hpost).
  exists pre, w1, kw, w2, word, w3, post.
  split; [string_assoc|]. auto 10.
Qed.

Lemma no_occurrence_no_status_line (raw : string) :
  ~ status_occurrence raw -> no_status_line raw.
Proof. intros H l Hin Hl. apply H. eapply status_line_occurrence; eassumption. Qed.

(** [s] holds no line terminator. *)
Definition one_line (s : string) : bool := all_units (fun c => negb (JS.is_lt c)) s.

Lemma one_line_app (a b : string) : one_line (a ++ b) = one_line a && one_line b.
Proof.
  unfold one_line. induction a as [|x a IH]; cbn [String.append all_units]; [reflexivity|].
  now rewrite IH, andb_assoc.
Qed.

Lemma lines_one_line (m post : string) :
  one_line m = true -> at_line_end post -> exists ls, lines (m ++ post) = m :: ls.
Proof.
  unfold one_line. induction m as [|x m IH]; cbn [String.append all_units lines]; intros Hm Hp.
  - destruct Hp as [->|(c & post0 & -> & Hc)]; cbn [lines]; [eauto|]. rewrite Hc. eauto.
  - apply andb_true_iff in Hm. destruct Hm as [Hx Hm]. apply negb_true_iff in Hx. rewrite Hx.
    destruct (IH Hm Hp) as [ls ->]. eauto.
Qed.

Lemma lines_after_break (a b : string) (c : ascii) :
  JS.is_lt c = true -> lines (a ++ String c b) = lines a ++ lines b.
Proof.
  intros Hc. induction a as [|x a IH]; cbn [String.append lines].
  - now rewrite Hc.
  - rewrite IH. destruct (JS.is_lt x); [reflexivity|].
    destruct (lines a) as [|l ls] eqn:E; [|reflexivity].
    destruct (lines_spec a) as (l & ls & _ & El & _). congruence.
Qed.

Lemma ci_keeps_lines (x y : ascii) :
  Ascii.eqb (upper x) (upper y) = true -> JS.is_lt y = false -> JS.is_lt x = false.
Proof.
  destruct x as [[] [] [] [] [] [] [] []]; intros H Hy; try reflexivity;
    destruct y as [[] [] [] [] [] [] [] []]; discriminate.
Qed.

Lemma string_eqb_ci_one_line (a : string) : forall b,
  string_eqb_ci a b = true -> one_line b = true -> one_line a = true.
Proof.
  unfold one_line.
  induction a as [|x a IH]; intros [|y b] H Hb; cbn in *; try discriminate; [reflexivity|].
  apply andb_true_iff in H. destruct H as [Hxy H].
  apply andb_true_iff in Hb. destruct Hb as [Hy Hb]. apply negb_true_iff in Hy.
  rewrite (ci_keeps_lines _ _ Hxy Hy), (IH _ H Hb). reflexivity.
Qed.

(** An occurrence whose white space holds no line break is a [STATUS:] line
    of the text: the occurrences are the [STATUS:] lines and the occurrences
    that span several lines. *)
Lemma occurrence_on_one_line (pre w1 kw w2 word w3 post : string) :
  at_line_start pre -> at_line_end post ->
  JS.all_ws w1 = true -> string_eqb_ci kw "STATUS:" = true -> JS.all_ws w2 = true ->
  status_word word -> JS.all_ws w3 = true ->
  one_line w1 = true -> one_line w2 = true -> one_line w3 = true ->
  exists l, In l (lines (pre ++ w1 ++ kw ++ w2 ++ word ++ w3 ++ post))
            /\ status_line l.
Proof.
  intros Hpre Hpost A1 Hkw A2 Hword A3 L1 L2 L3.
  set (m := (w1 ++ kw ++ w2 ++ word ++ w3)%string).
  assert (Hm : one_line m = true).
  { unfold m. rewrite !one_line_app, L1, L2, L3.
    rewrite (string_eqb_ci_one_line _ _ Hkw eq_refl).
    destruct Hword as [H|[H|H]]; rewrite (string_eqb_ci_one_line _ _ H eq_refl); reflexivity. }
  exists m. split; [|exists w1, kw, w2, word, w3; auto 10].
  replace (pre ++ w1 ++ kw ++ w2 ++ word ++ w3 ++ post)%string with (pre ++ m ++ post)%string
    by (unfold m; string_assoc).
  destruct (lines_one_line _ Hm Hpost) as [ls Hls].
  destruct Hpre as [->|(pre0 & c & -> & Hc)].
  - cbn [String.append]. rewrite Hls. now left.
  - rewrite string_app_assoc. cbn [String.append]. rewrite (lines_after_break _ _ _ Hc), Hls.
    apply in_or_app. right. now left.
Qed.

Lemma string_eqb_ci_length (a : string) : forall b,
  string_eqb_ci a b = true -> String.length a = String.length b.
Proof.
  induction a as [|x a IH]; intros [|y b] H; cbn in *; try discriminate; [reflexivity|].
  apply andb_true_iff in H. destruct H as [_ H]. now rewrite (IH _ H).
Qed.

Lemma status_line_length (l : string) : status_line l -> (14 <= String.length l)%nat.
Proof.
  intros (w1 & kw & w2 & word & w3 & -> & _ & Hkw & _ & Hword & _).
  rewrite !string_app_length. apply string_eqb_ci_length in Hkw. cbn in Hkw.
  destruct Hword as [H|[H|H]]; apply string_eqb_ci_length in H; cbn in H; lia.
Qed.

Lemma has_unit_app (c : ascii) (a b : string) :
  has_unit c (a ++ b) = has_unit c a || has_unit c b.
Proof.
  induction a as [|x a IH]; cbn [String.append has_unit]; [reflexivity|].
  now rewrite IH, orb_assoc.
Qed.

Lemma colon_ci (x : ascii) : Ascii.eqb (upper x) (upper ":") = true -> x = ":"%char.
Proof.
  destruct x as [[] [] [] [] [] [] [] []]; intros H; try discriminate H; reflexivity.
Qed.

(** Every occurrence holds a colon. *)
Lemma status_occurrence_colon (s : string) :
  status_occurrence s -> has_unit ":" s = true.
Proof.
  intros (pre & w1 & kw & w2 & word & w3 & post & -> & _ & _ & Hkw & _).
  rewrite !has_unit_app.
  assert (H : has_unit ":" kw = true).
  { pose proof (string_eqb_ci_length _ _ Hkw) as Hlen.
    destruct kw as [|c1 [|c2 [|c3 [|c4 [|c5 [|c6 [|c7 [|c8 kw]]]]]]]]; try discriminate Hlen.
    cbn [string_eqb_ci] in Hkw. repeat (apply andb_true_iff in Hkw; destruct Hkw as [? Hkw]).
    match goal with H : Ascii.eqb (upper c7) _ = true |- _ => apply colon_ci in H; subst c7 end.
    cbn. now rewrite !orb_true_r. }
  rewrite H. now rewrite !orb_true_r.
Qed.

(** The claim as stated fails on two kinds of reply: a blank reply has no
    [STATUS:] line and is an acknowledgement, and a reply with the status
    word on the line after [STATUS:] has no [STATUS:] line and is parsed. *)
Lemma blank_or_split_status_is_parsed :
  (no_status_line EmptyString
   /\ parseHeartbeatResponse EmptyString
      = {| status := HEARTBEAT_OK; reason := "empty response"; content := EmptyString;
           unparsed := false |})
  /\ (no_status_line ("STATUS:" ++ NL ++ "CHAT_NO")
      /\ parseHeartbeatResponse ("STATUS:" ++ NL ++ "CHAT_NO")
         = {| status := CHAT_NO; reason := EmptyString; content := EmptyString;
              unparsed := false |}).
Proof.
  split; (split; [|vm_compute; reflexivity]).
  - intros l [<-|[]] H. apply status_line_length in H. cbn in H. lia.
  - intros l [<-|[<-|[]]] H; apply status_line_length in H; cbn in H; lia.
Qed.

(** C6 (amended). For every reply that is not blank and holds no occurrence
    of [STATUS:] followed by HEARTBEAT_OK, CHAT_YES or CHAT_NO (up to case,
    from the start of a line to the end of a line, with white space, line
    breaks included, tolerated before [STATUS:], between it and the word, and
    after the word), the parser returns CHAT_YES with the whole trimmed reply
    as content and the unparsed flag set. *)
Theorem unparsed_reply_fails_open (raw : string) :
  JS.all_ws raw = false ->
  ~ status_occurrence raw ->
  parseHeartbeatResponse raw = fail_open raw.
Proof.
  intros Hblank Hno. unfold parseHeartbeatResponse, fail_open.
  destruct (JS.is_empty (JS.trim raw)) eqn:E.
  - apply JS.trim_empty in E. congruence.
  - destruct (exec STATUS_RE (JS.trim raw)) as [m|] eqn:Em; [|reflexivity].
    exfalso. apply Hno, status_occurrence_trim. eapply exec_STATUS_RE_occurrence, Em.
Qed.

Lemma no_colon_no_occurrence (s : string) : has_unit ":" s = false -> ~ status_occurrence s.
Proof. intros H Ho. apply status_occurrence_colon in Ho. congruence. Qed.

Lemma unparsed_reply_fails_open_witness :
  JS.all_ws "BTC just crashed 15%, major liquidation event!" = false
  /\ ~ status_occurrence "BTC just crashed 15%, major liquidation event!"
  /\ parseHeartbeatResponse "BTC just crashed 15%, major liquidation event!"
     = {| status := CHAT_YES; reason := "unparsed response";
          content := "BTC just crashed 15%, major liquidation event!";
          unparsed := true |}.
Proof.
  assert (H1 : JS.all_ws "BTC just crashed 15%, major liquidation event!" = false)
    by reflexivity.
  assert (H2 : ~ status_occurrence "BTC just crashed 15%, major liquidation event!")
    by (apply no_colon_no_occurrence; reflexivity).
  split; [exact H1|]. split; [exact H2|].
  exact (@unparsed_reply_fails_open _ H1 H2).
Defined.

(** A reply that names a status in prose holds a colon and the word, but no
    occurrence at the start of a line: it is delivered whole. *)
Example status_in_prose_is_unparsed :
  parseHeartbeatResponse "My STATUS: CHAT_NO today"
  = fail_open "My STATUS: CHAT_NO today".
Proof. vm_compute. reflexivity. Qed.

(** The white space the pattern tolerates includes line breaks: a [STATUS:]
    header and its value on the next line are one match. *)
Example status_across_lines :
  parseHeartbeatResponse ("STATUS:" ++ NL ++ "CHAT_NO")
  = {| status := CHAT_NO; reason := ""; content := ""; unparsed := false |}.
Proof. vm_compute. reflexivity. Qed.

(** *** Active hours *)

Ltac hhmm_cases :=
  repeat match goal with
         | |- context [JS.is_digit ?c] => destruct (JS.is_digit c) eqn:?
         | |- context [Ascii.eqb ?c ?d] => destruct (Ascii.eqb_spec c d); subst
         end;
  cbn -[Ascii.eqb JS.is_digit Number_digits Z.gtb Z.mul Z.add]; try discriminate.

Lemma HHMM_RE_anchored :
  HHMM_RE = Cat (Bol false)
                (cat [Group 1 (Cat digit (opt digit)); chr ":"; Group 2 (Cat digit digit);
                      Eol false]).
Proof. reflexivity. Qed.

Lemma in_range (a b lim : Z) :
  (a >? lim) || (b >? 59) = false -> a <= lim /\ b <= 59.
Proof.
  intros H. apply orb_false_iff in H. destruct H as [Ha Hb].
  rewrite Z.gtb_ltb in Ha, Hb. apply Z.ltb_ge in Ha, Hb. auto.
Qed.

(** [parseHHMM] accepts exactly the valid times. *)
Lemma parseHHMM_valid (s : string) (v : Z) : parseHHMM s = Some v -> valid_HHMM s.
Proof.
  unfold parseHHMM. rewrite HHMM_RE_anchored, exec_anchored.
  destruct s as [|c1 [|c2 [|c3 [|c4 [|c5 [|c6 s']]]]]];
    cbn -[Ascii.eqb JS.is_digit Number_digits Z.gtb Z.mul Z.add]; try discriminate.
  all: hhmm_cases.
  - destruct (_ || _) eqn:E; [discriminate|]. intros _. apply in_range in E.
    exists (String c1 ""), (String c3 (String c4 "")). cbn [JS.all_digits String.length].
    repeat match goal with H : JS.is_digit _ = true |- _ => rewrite H; clear H end.
    repeat split; try tauto; auto.
  - destruct (_ || _) eqn:E; [discriminate|]. intros _. apply in_range in E.
    exists (String c1 (String c2 "")), (String c4 (String c5 "")).
    cbn [JS.all_digits String.length].
    repeat match goal with H : JS.is_digit _ = true |- _ => rewrite H; clear H end.
    repeat split; try tauto; auto.
Qed.

Lemma valid_parseHHMM (s : string) : valid_HHMM s -> exists v, parseHHMM s = Some v.
Proof.
  intros (hh & mm & -> & Hh & Hlen & Hhv & Hm & Hmlen & Hmv).
  unfold parseHHMM. rewrite HHMM_RE_anchored, exec_anchored.
  destruct mm as [|m1 [|m2 [|m3 mm]]]; try discriminate Hmlen.
  cbn [JS.all_digits] in Hm. apply andb_true_iff in Hm. destruct Hm as [Hm1 Hm2].
  apply andb_true_iff in Hm2. destruct Hm2 as [Hm2 _].
  assert (Hcolon : JS.is_digit ":" = false) by reflexivity.
  destruct hh as [|h1 [|h2 [|h3 hh]]]; cbn [String.length] in Hlen;
    try (exfalso; destruct Hlen; discriminate).
  - cbn [JS.all_digits] in Hh. apply andb_true_iff in Hh. destruct Hh as [Hh1 _].
    cbn -[Ascii.eqb JS.is_digit Number_digits Z.gtb Z.mul Z.add].
    rewrite Hh1, Hcolon, Hm1, Hm2, Ascii.eqb_refl.
    cbn -[Ascii.eqb JS.is_digit Number_digits Z.gtb Z.mul Z.add].
    replace (_ || _) with false; [eexists; reflexivity|].
    symmetry. apply orb_false_iff. rewrite !Z.gtb_ltb. split; apply Z.ltb_ge; assumption.
  - cbn [JS.all_digits] in Hh. apply andb_true_iff in Hh. destruct Hh as [Hh1 Hh2].
    apply andb_true_iff in Hh2. destruct Hh2 as [Hh2 _].
    cbn -[Ascii.eqb JS.is_digit Number_digits Z.gtb Z.mul Z.add].
    rewrite Hh1, Hh2, Hm1, Hm2, Ascii.eqb_refl.
    cbn -[Ascii.eqb JS.is_digit Number_digits Z.gtb Z.mul Z.add].
    replace (_ || _) with false; [eexists; reflexivity|].
    symmetry. apply orb_false_iff. rewrite !Z.gtb_ltb. split; apply Z.ltb_ge; assumption.
Qed.

(** C10. A window whose start or end is not a valid 'HH:MM' time is always
    active: [isWithinActiveHours] returns [true] at every time, on every
    wall clock. *)
Theorem malformed_window_is_always_active
    (currentMinutesInTimezone : string -> option Z -> Z)
    (ah : ActiveHours) (nowMs : option Z) :
  ~ valid_HHMM (start ah) \/ ~ valid_HHMM (end_ ah) ->
  isWithinActiveHours currentMinutesInTimezone (Some ah) nowMs = true.
Proof.
  intros H. unfold isWithinActiveHours.
  destruct (parseHHMM (start ah)) as [sm|] eqn:Es; [|reflexivity].
  destruct (parseHHMM (end_ ah)) as [em|] eqn:Ee; [|reflexivity].
  exfalso. destruct H as [H | H]; apply H; eauto using parseHHMM_valid.
Qed.

Lemma invalid_not_valid : ~ valid_HHMM "invalid".
Proof.
  intros H. apply valid_parseHHMM in H. destruct H as [v H].
  vm_compute in H. discriminate H.
Defined.

Lemma malformed_window_is_always_active_witness :
  (~ valid_HHMM "invalid" \/ ~ valid_HHMM "22:00")
  /\ isWithinActiveHours (fun _ _ => 180)
       (Some {| start := "invalid"; end_ := "22:00"; timezone := "local" |}) None = true.
Proof.
  split; [left; exact invalid_not_valid|].
  exact (@malformed_window_is_always_active (fun _ _ => 180)
           {| start := "invalid"; end_ := "22:00"; timezone := "local" |} None
           (or_introl invalid_not_valid)).
Defined.

(** *** Valid windows *)

Ltac digits_nonneg s :=
  assert (0 <= Number_digits s)
    by (apply digits_acc_nonneg;
        [cbn [JS.all_digits];
         repeat match goal with H : JS.is_digit _ = true |- _ => rewrite H end;
         reflexivity
        | lia]).

(** A time that [parseHHMM] accepts is a minute of the day. *)
Lemma parseHHMM_bounds (s : string) (v : Z) : parseHHMM s = Some v -> 0 <= v < 1440.
Proof.
  unfold parseHHMM. rewrite HHMM_RE_anchored, exec_anchored.
  destruct s as [|c1 [|c2 [|c3 [|c4 [|c5 [|c6 s']]]]]];
    cbn -[Ascii.eqb JS.is_digit Number_digits Z.gtb Z.mul Z.add]; try discriminate.
  all: hhmm_cases.
  - destruct (_ || _) eqn:E; [discriminate|]. intros H. inversion H; subst v.
    apply in_range in E.
    digits_nonneg (String c1 ""). digits_nonneg (String c3 (String c4 "")). lia.
  - destruct (_ || _) eqn:E; [discriminate|]. intros H. inversion H; subst v.
    apply in_range in E.
    digits_nonneg (String c1 (String c2 "")). digits_nonneg (String c4 (String c5 "")). lia.
Qed.

(** X9. A window with two valid times: both are minutes of the day; equal
    times make the window empty (the heartbeat is never active, not always);
    with different times, swapping start and end gives exactly the
    complementary window, so an overnight window is the complement of the
    daytime window between the same two times.  No valid window covers the
    whole day: there is always a minute of the day outside it. *)
Theorem valid_window_is_never_the_whole_day
    (currentMinutesInTimezone : string -> option Z -> Z)
    (ah : ActiveHours) (nowMs : option Z) (s e : Z) :
  parseHHMM (start ah) = Some s ->
  parseHHMM (end_ ah) = Some e ->
  let swapped := {| start := end_ ah; end_ := start ah; timezone := timezone ah |} in
  0 <= s < 1440 /\ 0 <= e < 1440
  /\ (s = e -> isWithinActiveHours currentMinutesInTimezone (Some ah) nowMs = false)
  /\ (s <> e ->
      isWithinActiveHours currentMinutesInTimezone (Some swapped) nowMs
      = negb (isWithinActiveHours currentMinutesInTimezone (Some ah) nowMs))
  /\ (exists m, 0 <= m < 1440
                /\ (currentMinutesInTimezone (timezone ah) nowMs = m ->
                    isWithinActiveHours currentMinutesInTimezone (Some ah) nowMs = false)).
Proof.
  intros Hs He swapped.
  pose proof (parseHHMM_bounds _ Hs) as Bs. pose proof (parseHHMM_bounds _ He) as Be.
  split; [exact Bs|]. split; [exact Be|].
  unfold isWithinActiveHours, swapped. cbn [start end_ timezone]. rewrite Hs, He.
  set (now := currentMinutesInTimezone (timezone ah) nowMs).
  split; [|split].
  - intros ->. rewrite Z.leb_refl. rewrite Z.geb_leb.
    destruct (e <=? now) eqn:E1; destruct (now <? e) eqn:E2; try reflexivity.
    apply Z.leb_le in E1. apply Z.ltb_lt in E2. lia.
  - intros Hne. rewrite !Z.geb_leb.
    destruct (s <=? e) eqn:E1; destruct (e <=? s) eqn:E2;
      destruct (s <=? now) eqn:E3; destruct (now <? e) eqn:E4;
      destruct (e <=? now) eqn:E5; destruct (now <? s) eqn:E6; try reflexivity;
      repeat match goal with
             | H : (_ <=? _) = true |- _ => apply Z.leb_le in H
             | H : (_ <=? _) = false |- _ => apply Z.leb_gt in H
             | H : (_ <? _) = true |- _ => apply Z.ltb_lt in H
             | H : (_ <? _) = false |- _ => apply Z.ltb_ge in H
             end; lia.
  - exists (if s <=? e then 1439 else e). split; [destruct (s <=? e); lia|].
    intros Hm. rewrite Z.geb_leb. destruct (s <=? e) eqn:E1.
    + replace (now <? e) with false by (symmetry; apply Z.ltb_ge; lia).
      apply andb_false_r.
    + apply Z.leb_gt in E1. apply orb_false_iff. split.
      * apply Z.leb_gt. lia.
      * apply Z.ltb_ge. lia.
Qed.

Lemma valid_window_is_never_the_whole_day_witness :
  parseHHMM "22:00" = Some 1320 /\ parseHHMM "06:00" = Some 360
  /\ isWithinActiveHours (fun _ _ => 180)
       (Some {| start := "06:00"; end_ := "22:00"; timezone := "local" |}) None
     = negb (isWithinActiveHours (fun _ _ => 180)
               (Some {| start := "22:00"; end_ := "06:00"; timezone := "local" |}) None).
Proof.
  assert (H1 : parseHHMM "22:00" = Some 1320) by (vm_compute; reflexivity).
  assert (H2 : parseHHMM "06:00" = Some 360) by (vm_compute; reflexivity).
  split; [exact H1|]. split; [exact H2|].
  refine (proj1 (proj2 (proj2 (proj2 (@valid_window_is_never_the_whole_day (fun _ _ => 180)
            {| start := "22:00"; end_ := "06:00"; timezone := "local" |} None 1320 360
            H1 H2)))) _).
  discriminate.
Defined.

End HeartbeatParse.

(** ** Cron engine ([createCronEngine] and the schedule helpers of [task/cron/engine]) *)

Module Cron.

Import Regex.

Inductive CronSchedule : Type :=
| At (at_ : string)
| Every (every : string)
| CronExpr (cron : string).

Inductive Status : Type := ok | error.

Record CronJobState : Type := mkState {
  nextRunAtMs : option Z;
  lastRunAtMs : option Z;
  lastStatus : option Status;
  consecutiveErrors : Z
}.

Record CronJob : Type := mkJob {
  id : string;
  name : string;
  enabled : bool;
  schedule : CronSchedule;
  payload : string;
  state : CronJobState;
  createdAt : Z
}.

Record CronFirePayload : Type := mkFire {
  jobId : string;
  jobName : string;
  firePayload : string
}.

Record CronJobCreate : Type := mkCreate {
  create_name : string;
  create_schedule : CronSchedule;
  create_payload : string;
  create_enabled : option bool
}.

Record CronJobPatch : Type := mkPatch {
  patch_name : option string;
  patch_schedule : option CronSchedule;
  patch_payload : option string;
  patch_enabled : option bool
}.

(** *** Schedule helpers *)

(** [/^(?:(\d+)h)?(?:(\d+)m)?(?:(\d+)s)?$/] *)
Definition DURATION_RE : re :=
  cat [Bol false;
       opt (Cat (Group 1 (plus digit)) (chr "h"));
       opt (Cat (Group 2 (plus digit)) (chr "m"));
       opt (Cat (Group 3 (plus digit)) (chr "s"));
       Eol false].

(** [Number(m[i] ?? 0)] *)
Definition group_number (i : nat) (m : captures) : Z :=
  match group i m with
  | Some digits => Number_digits digits
  | None => 0
  end.

(** [Number.MAX_SAFE_INTEGER]: up to it every integer is a JavaScript number
    and sums and products of integers are exact. *)
Definition MAX_SAFE_INTEGER : Z := 9007199254740991.

(** The largest time value of a [Date]: a [Date] made from a larger number
    is invalid, and its [getTime()] is [NaN]. *)
Definition MAX_TIME : Z := 8640000000000000.

(** [parseDuration(s)].  The arithmetic is that of the integers, which is
    the arithmetic of the code as long as the result does not exceed
    [MAX_SAFE_INTEGER]; beyond it the code rounds, and a long run of digits
    gives [Infinity]. *)
Definition parseDuration (s : string) : option Z :=
  match exec DURATION_RE (JS.trim s) with
  | None => None
  | Some m =>
      let h := group_number 1 m in
      let min := group_number 2 m in
      let sec := group_number 3 m in
      if (h =? 0) && (min =? 0) && (sec =? 0) then None
      else Some ((h * 3600 + min * 60 + sec) * 1000)
  end.

(** [/^(\*|\d+-\d+)\/(\d+)$/] *)
Definition STEP_RE : re :=
  cat [Bol false;
       Group 1 (Alt (chr "*") (cat [plus digit; chr "-"; plus digit]));
       chr "/"; Group 2 (plus digit); Eol false].

(** [/^(\d+)-(\d+)$/] *)
Definition RANGE_RE : re :=
  cat [Bol false; Group 1 (plus digit); chr "-"; Group 2 (plus digit); Eol false].

(** [for (let i = a; i <= b; i += step) result.push(i)], for [step > 0]. *)
Definition range_step (a b step : Z) : list Z :=
  if b <? a then []
  else List.map (fun k => a + Z.of_nat k * step)
                (List.seq 0 (Z.to_nat ((b - a) / step + 1))).

(** [expr.split(/\s+/)] on a trimmed text: the maximal runs without white
    space; the empty text gives one empty part. *)
Fixpoint split_ws_acc (cur : string) (s : string) : list string :=
  match s with
  | EmptyString => [cur]
  | String c s' =>
      if JS.is_ws c then
        match s' with
        | String c' _ => if JS.is_ws c' then split_ws_acc cur s' else cur :: split_ws_acc EmptyString s'
        | EmptyString => [cur; EmptyString]
        end
      else split_ws_acc (cur ++ String c EmptyString)%string s'
  end.

Definition split_ws (s : string) : list string := split_ws_acc EmptyString s.

(** What the engine takes from the JavaScript platform. *)
Record Platform : Type := mkPlatform {
  (** [Number(part)] on a text none of the field patterns matched: [None]
      for [NaN].  Only membership of calendar components in the result
      matters, so a value that is not an integer is any integer no component
      equals. *)
  Number_ : string -> option Z;
  (** [new Date(text).getTime()], [None] for [NaN] (an invalid date). *)
  Date_getTime : string -> option Z;
  (** [LocalTime(t)] and [UTC(t)] of ECMA-262 in the time zone of the host:
      the local time value of the instant [t], and the instant of the local
      time value [t] (the earlier one when the local time is repeated). *)
  LocalTime : Z -> Z;
  UTC : Z -> Z;
  (** The wall-clock components of the instant [t] (epoch milliseconds):
      [getMonth() + 1], [getDate()], [getDay()], [getHours()], [getMinutes()]
      of [new Date(t)]. *)
  month_of : Z -> Z;
  dom_of : Z -> Z;
  dow_of : Z -> Z;
  hour_of : Z -> Z;
  minute_of : Z -> Z
}.

Section Engine.

Variable P : Platform.

(** The parts of one field, left to right, pushed into [result]. *)
Fixpoint parseFieldParts (parts : list string) (result : list Z) : option (list Z) :=
  match parts with
  | [] => match result with [] => None | _ => Some result end
  | part :: rest =>
      match exec STEP_RE part with
      | Some stepMatch =>
          let step := group_number 2 stepMatch in
          if step =? 0 then None
          else
            let g1 := match group 1 stepMatch with Some g => g | None => EmptyString end in
            let '(lo, hi) :=
              if String.eqb g1 "*" then (0, 59)
              else match JS.split "-" g1 with
                   | [a; b] => (Number_digits a, Number_digits b)
                   | _ => (0, 0)
                   end in
            parseFieldParts rest (result ++ range_step lo hi step)
      | None =>
          match exec RANGE_RE part with
          | Some rangeMatch =>
              parseFieldParts rest
                (result ++ range_step (group_number 1 rangeMatch) (group_number 2 rangeMatch) 1)
          | None =>
              if String.eqb part "*" then parseFieldParts rest (result ++ range_step 0 59 1)
              else match Number_ P part with
                   | None => None
                   | Some n => parseFieldParts rest (result ++ [n])
                   end
          end
      end
  end.

Definition parseFieldValues (field : string) : option (list Z) :=
  parseFieldParts (JS.split "," field) [].

Definition includes (l : list Z) (x : Z) : bool := existsb (Z.eqb x) l.

Definition MINUTE_MS : Z := 60000.

(** [date.setSeconds(0, 0)] on a [Date] whose time value is [t]: the seconds
    and milliseconds of its local time are cleared and the result is
    converted back to an instant ([UTC(MakeDate(Day(lt), MakeTime(hour,
    min, 0, 0)))] for [lt = LocalTime(t)]). *)
Definition setSeconds_0_0 (t : Z) : Z :=
  let lt := LocalTime P t in UTC P (lt - lt mod MINUTE_MS).

(** [date.setMinutes(date.getMinutes() + 1)]: one minute later on the local
    clock, converted back to an instant. *)
Definition setMinutes_next (t : Z) : Z := UTC P (LocalTime P t + MINUTE_MS).

(** The scan of [nextCronFire]: [fuel] bounds the iterations of the
    [while (cursor < limit)] loop. *)
Fixpoint scan (fuel : nat) (minutes hours doms months dows : list Z) (cursor limit : Z)
  : option Z :=
  match fuel with
  | O => None
  | S fuel' =>
      if cursor <? limit then
        if includes months (month_of P cursor) && includes doms (dom_of P cursor)
           && includes dows (dow_of P cursor) && includes hours (hour_of P cursor)
           && includes minutes (minute_of P cursor)
        then Some cursor
        else scan fuel' minutes hours doms months dows (setMinutes_next cursor) limit
      else None
  end.

(** The minutes of 366 days, plus one: more than the loop can run. *)
Definition SCAN_FUEL : nat := Z.to_nat (366 * 24 * 60 + 1).

(** [nextCronFire(expr, afterMs)], with [fuel] iterations allowed.  The
    cursor starts one minute after the local minute of [afterMs] and advances
    by one minute of the local clock; which instants these are is up to the
    time zone of the host. *)
Definition nextCronFire_within (fuel : nat) (expr : string) (afterMs : Z) : option Z :=
  match List.map parseFieldValues (split_ws (JS.trim expr)) with
  | [Some minutes; Some hours; Some doms; Some months; Some dows] =>
      let start := setMinutes_next (setSeconds_0_0 afterMs) in
      let limit := afterMs + 366 * 24 * 60 * 60 * 1000 in
      scan fuel minutes hours doms months dows start limit
  | _ => None
  end.

Definition nextCronFire (expr : string) (afterMs : Z) : option Z :=
  nextCronFire_within SCAN_FUEL expr afterMs.

(** The local clock of the host is [off] milliseconds ahead of UTC at every
    instant: a time zone without daylight saving or other changes of
    offset. *)
Definition fixed_offset (off : Z) : Prop :=
  forall t, LocalTime P t = t + off /\ UTC P t = t - off.

Definition computeNextRun (schedule : CronSchedule) (afterMs : Z) : option Z :=
  match schedule with
  | At at_ =>
      match Date_getTime P at_ with
      | None => None
      | Some t => if t >? afterMs then Some t else None
      end
  | Every every =>
      match parseDuration every with
      | Some ms => if ms =? 0 then None else Some (afterMs + ms)
      | None => None
      end
  | CronExpr cron => nextCronFire cron afterMs
  end.

(** *** Error backoff *)

Definition ERROR_BACKOFF_MS : list Z := [30000; 60000; 300000; 900000; 3600000].

Definition errorBackoffMs (consecutiveErrors : Z) : Z :=
  let idx := Z.min (consecutiveErrors - 1) (Z.of_nat (List.length ERROR_BACKOFF_MS) - 1) in
  nth (Z.to_nat (Z.max 0 idx)) ERROR_BACKOFF_MS 0.

(** *** The engine *)

Definition is_at (s : CronSchedule) : bool :=
  match s with At _ => true | _ => false end.

Definition set_state (j : CronJob) (st : CronJobState) : CronJob :=
  {| id := id j; name := name j; enabled := enabled j; schedule := schedule j;
     payload := payload j; state := st; createdAt := createdAt j |}.

Definition set_next (j : CronJob) (next : option Z) : CronJob :=
  set_state j {| nextRunAtMs := next; lastRunAtMs := lastRunAtMs (state j);
                 lastStatus := lastStatus (state j);
                 consecutiveErrors := consecutiveErrors (state j) |}.

Definition set_enabled (j : CronJob) (b : bool) : CronJob :=
  {| id := id j; name := name j; enabled := b; schedule := schedule j;
     payload := payload j; state := state j; createdAt := createdAt j |}.

Definition fire_payload (job : CronJob) : CronFirePayload :=
  {| jobId := id job; jobName := name job; firePayload := payload job |}.

(** [fireJob(job, currentMs)]; [appended] tells whether
    [eventLog.append('cron.fire', ...)] resolved. *)
Definition fireJob (job : CronJob) (currentMs : Z) (appended : bool) : CronJob :=
  let errors :=
    if appended then 0 else consecutiveErrors (state job) + 1 in
  let status := if appended then ok else error in
  let fired :=
    set_state job {| nextRunAtMs := nextRunAtMs (state job);
                     lastRunAtMs := Some currentMs;
                     lastStatus := Some status;
                     consecutiveErrors := errors |} in
  if is_at (schedule job) then set_next (set_enabled fired false) None
  else if errors >? 0 then set_next fired (Some (currentMs + errorBackoffMs errors))
  else set_next fired (computeNextRun (schedule job) currentMs).

(** The closure state of one [createCronEngine] call, with the store file it
    owns ([None]: no file yet).  [timer] is the delay of the pending timeout. *)
Record CronEngine : Type := mkEngine {
  jobs : list CronJob;
  timer : option Z;
  stopped : bool;
  store : option (list CronJob)
}.

Definition createCronEngine (storeFile : option (list CronJob)) : CronEngine :=
  {| jobs := []; timer := None; stopped := false; store := storeFile |}.

Definition with_jobs (e : CronEngine) (js : list CronJob) : CronEngine :=
  {| jobs := js; timer := timer e; stopped := stopped e; store := store e |}.

Definition with_timer (e : CronEngine) (t : option Z) : CronEngine :=
  {| jobs := jobs e; timer := t; stopped := stopped e; store := store e |}.

(** [load()]: the store file is absent or holds a collection that [save]
    wrote. *)
Definition load (e : CronEngine) : CronEngine :=
  with_jobs e (match store e with Some js => js | None => [] end).

(** [save()] when its writes resolve: the store file then holds the
    collection.  [save_settled] below is [await save()] with the outcome of
    the writes, and the functions named [_saving] are the operations of the
    engine with that outcome; the functions [start], [add], [update],
    [remove], [runNow] and [onTick] that come first are these operations when
    the write resolves. *)
Definition save (e : CronEngine) : CronEngine :=
  {| jobs := jobs e; timer := timer e; stopped := stopped e; store := Some (jobs e) |}.

Definition armed (j : CronJob) : bool :=
  enabled j && match nextRunAtMs (state j) with Some _ => true | None => false end.

Definition min_next (js : list CronJob) : option Z :=
  List.fold_left
    (fun min j =>
       match nextRunAtMs (state j) with
       | Some n => match min with None => Some n | Some m => Some (Z.min m n) end
       | None => min
       end)
    (List.filter armed js) None.

(** [armTimer()], reading the clock as [now]. *)
Definition armTimer (e : CronEngine) (now : Z) : CronEngine :=
  if stopped e then e
  else match min_next (jobs e) with
       | None => e
       | Some nextMs => with_timer e (Some (Z.max 0 (Z.min (nextMs - now) 60000)))
       end.

Definition clearTimer (e : CronEngine) : CronEngine := with_timer e None.

Definition is_due (currentMs : Z) (j : CronJob) : bool :=
  enabled j && match nextRunAtMs (state j) with
               | Some n => n <=? currentMs
               | None => false
               end.

(** The loop of [onTick] over the jobs that were due when it started; the
    append of the job at position [i] resolves when [appended i] holds.
    Returns the jobs and the [cron.fire] payloads appended. *)
Fixpoint fire_due (js : list CronJob) (i : nat) (currentMs : Z) (appended : nat -> bool)
  : list CronJob * list CronFirePayload :=
  match js with
  | [] => ([], [])
  | j :: rest =>
      let '(rest', fired) := fire_due rest (S i) currentMs appended in
      if is_due currentMs j
      then (fireJob j currentMs (appended i) :: rest',
            if appended i then fire_payload j :: fired else fired)
      else (j :: rest', fired)
  end.

(** [onTick()] when no [stop()] lands during the tick; [currentMs] and
    [armNow] are the two clock readings. *)
Definition onTick (e : CronEngine) (currentMs armNow : Z) (appended : nat -> bool)
  : CronEngine * list CronFirePayload :=
  let e := clearTimer e in
  if stopped e then (e, [])
  else
    let '(js, fired) := fire_due (jobs e) 0 currentMs appended in
    (armTimer (save (with_jobs e js)) armNow, fired).

Definition start_job (currentMs : Z) (job : CronJob) : CronJob :=
  if negb (enabled job) then job
  else
    let stale := match nextRunAtMs (state job) with
                 | None => true
                 | Some n => n <? currentMs
                 end in
    if stale then
      let next := computeNextRun (schedule job) currentMs in
      let job' := set_next job next in
      if is_at (schedule job) && match next with None => true | Some _ => false end
      then set_enabled job' false else job'
    else job.

(** [start()] *)
Definition start (e : CronEngine) (currentMs armNow : Z) : CronEngine :=
  let e := load e in
  armTimer (save (with_jobs e (List.map (start_job currentMs) (jobs e)))) armNow.

(** [stop()] *)
Definition stop (e : CronEngine) : CronEngine :=
  {| jobs := jobs e; timer := None; stopped := true; store := store e |}.

Definition new_job (newId : string) (params : CronJobCreate) (currentMs : Z) : CronJob :=
  {| id := newId;
     name := create_name params;
     enabled := match create_enabled params with Some b => b | None => true end;
     schedule := create_schedule params;
     payload := create_payload params;
     state := {| nextRunAtMs := computeNextRun (create_schedule params) currentMs;
                 lastRunAtMs := None; lastStatus := None; consecutiveErrors := 0 |};
     createdAt := currentMs |}.

(** [add(params)]; [newId] is [randomUUID().slice(0, 8)]. *)
Definition add (e : CronEngine) (newId : string) (params : CronJobCreate)
    (currentMs armNow : Z) : CronEngine * string :=
  let e := save (with_jobs e (jobs e ++ [new_job newId params currentMs])) in
  (armTimer (clearTimer e) armNow, newId).

(** [jobs.find((j) => j.id === id)] *)
Definition find (js : list CronJob) (i : string) : option CronJob :=
  List.find (fun j => String.eqb (id j) i) js.

(** The object [find] returned is mutated in place: the first job with the
    id changes. *)
Fixpoint update_first (i : string) (f : CronJob -> CronJob) (js : list CronJob)
  : list CronJob :=
  match js with
  | [] => []
  | j :: rest => if String.eqb (id j) i then f j :: rest else j :: update_first i f rest
  end.

(** [jobs.splice(jobs.findIndex(...), 1)] *)
Fixpoint remove_first (i : string) (js : list CronJob) : list CronJob :=
  match js with
  | [] => []
  | j :: rest => if String.eqb (id j) i then rest else j :: remove_first i rest
  end.

Definition patch_job (patch : CronJobPatch) (now : Z) (job : CronJob) : CronJob :=
  let job1 :=
    {| id := id job;
       name := match patch_name patch with Some n => n | None => name job end;
       enabled := match patch_enabled patch with Some b => b | None => enabled job end;
       schedule := schedule job;
       payload := match patch_payload patch with Some p => p | None => payload job end;
       state := state job;
       createdAt := createdAt job |} in
  match patch_schedule patch with
  | None => job1
  | Some s =>
      {| id := id job1; name := name job1; enabled := enabled job1; schedule := s;
         payload := payload job1;
         state := {| nextRunAtMs := computeNextRun s now;
                     lastRunAtMs := lastRunAtMs (state job1);
                     lastStatus := lastStatus (state job1);
                     consecutiveErrors := 0 |};
         createdAt := createdAt job1 |}
  end.

Definition not_found (i : string) : string := ("cron job not found: " ++ i)%string.

(** [update(id, patch)] *)
Definition update (e : CronEngine) (i : string) (patch : CronJobPatch) (now armNow : Z)
  : CronEngine * result unit :=
  match find (jobs e) i with
  | None => (e, Err (not_found i))
  | Some _ =>
      let e := save (with_jobs e (update_first i (patch_job patch now) (jobs e))) in
      (armTimer (clearTimer e) armNow, Ok tt)
  end.

(** [remove(id)] *)
Definition remove (e : CronEngine) (i : string) : CronEngine * result unit :=
  match find (jobs e) i with
  | None => (e, Err (not_found i))
  | Some _ => (save (with_jobs e (remove_first i (jobs e))), Ok tt)
  end.

(** [runNow(id)]; returns the [cron.fire] payload appended, if the append
    resolved. *)
Definition runNow (e : CronEngine) (i : string) (now : Z) (appended : bool)
  : CronEngine * result (option CronFirePayload) :=
  match find (jobs e) i with
  | None => (e, Err (not_found i))
  | Some job =>
      (save (with_jobs e (update_first i (fun j => fireJob j now appended) (jobs e))),
       Ok (if appended then Some (fire_payload job) else None))
  end.

(** [list()] and [get(id)] *)
Definition list_ (e : CronEngine) : list CronJob := jobs e.
Definition get (e : CronEngine) (i : string) : option CronJob := find (jobs e) i.

(** *** Store writes that fail

    [save()] awaits [mkdir], [writeFile] and [rename].  When one of them
    rejects, the store file stays as it was and the rejection reaches the
    caller, after the collection in memory has been changed.  The functions
    below are the operations with the outcome [w] of the write as an
    argument; with [Ok tt] they are the functions above.  The store file is
    absent or was written by [save], so [load] does not fail. *)

(** [await save()] *)
Definition save_settled (e : CronEngine) (w : result unit) : CronEngine * result unit :=
  match w with
  | Ok _ => (save e, Ok tt)
  | Err msg => (e, Err msg)
  end.

(** [start()] *)
Definition start_saving (e : CronEngine) (currentMs armNow : Z) (w : result unit)
  : CronEngine * result unit :=
  let e := load e in
  let e := with_jobs e (List.map (start_job currentMs) (jobs e)) in
  match save_settled e w with
  | (e, Ok _) => (armTimer e armNow, Ok tt)
  | (e, Err msg) => (e, Err msg)
  end.

(** [add(params)] *)
Definition add_saving (e : CronEngine) (newId : string) (params : CronJobCreate)
    (currentMs armNow : Z) (w : result unit) : CronEngine * result string :=
  let e := with_jobs e (jobs e ++ [new_job newId params currentMs]) in
  match save_settled e w with
  | (e, Ok _) => (armTimer (clearTimer e) armNow, Ok newId)
  | (e, Err msg) => (e, Err msg)
  end.

(** [update(id, patch)] *)
Definition update_saving (e : CronEngine) (i : string) (patch : CronJobPatch)
    (now armNow : Z) (w : result unit) : CronEngine * result unit :=
  match find (jobs e) i with
  | None => (e, Err (not_found i))
  | Some _ =>
      let e := with_jobs e (update_first i (patch_job patch now) (jobs e)) in
      match save_settled e w with
      | (e, Ok _) => (armTimer (clearTimer e) armNow, Ok tt)
      | (e, Err msg) => (e, Err msg)
      end
  end.

(** [remove(id)] *)
Definition remove_saving (e : CronEngine) (i : string) (w : result unit)
  : CronEngine * result unit :=
  match find (jobs e) i with
  | None => (e, Err (not_found i))
  | Some _ => save_settled (with_jobs e (remove_first i (jobs e))) w
  end.

(** [runNow(id)]; also returns the [cron.fire] payload appended, if the
    append resolved. *)
Definition runNow_saving (e : CronEngine) (i : string) (now : Z) (appended : bool)
    (w : result unit) : CronEngine * option CronFirePayload * result unit :=
  match find (jobs e) i with
  | None => (e, None, Err (not_found i))
  | Some job =>
      let e := with_jobs e (update_first i (fun j => fireJob j now appended) (jobs e)) in
      let '(e, r) := save_settled e w in
      (e, if appended then Some (fire_payload job) else None, r)
  end.

(** [onTick()]; [stopCalled] tells whether [stop()] ran while the loop was
    waiting for an append: the loop goes on over the jobs that were due, and
    the test [if (!stopped)] behind it then skips [save] and [armTimer].
    Calls of the other functions during a tick are not considered. *)
Definition onTick_saving (e : CronEngine) (currentMs armNow : Z) (appended : nat -> bool)
    (stopCalled : bool) (w : result unit)
  : CronEngine * list CronFirePayload * result unit :=
  let e := clearTimer e in
  if stopped e then (e, [], Ok tt)
  else
    let '(js, fired) := fire_due (jobs e) 0 currentMs appended in
    let e := with_jobs e js in
    if stopCalled then (stop e, fired, Ok tt)
    else
      match save_settled e w with
      | (e, Ok _) => (armTimer e armNow, fired, Ok tt)
      | (e, Err msg) => (e, fired, Err msg)
      end.

(** How a promise settles, whatever its value. *)
Definition settlement_of {A : Type} (r : result A) : result unit :=
  match r with
  | Ok _ => Ok tt
  | Err msg => Err msg
  end.


(** *** Provenance of [nextRunAtMs]

    Which statement of the engine last assigned [state.nextRunAtMs]: a
    schedule resolution [computeNextRun(schedule, t)], the one-shot branch of
    [fireJob], or its error-backoff branch. *)

Inductive origin : Type :=
| Resolved (t : Z)
| Spent
| Backoff.

Definition fire_origin (job : CronJob) (now : Z) (appended : bool) : origin :=
  if is_at (schedule job) then Spent
  else if consecutiveErrors (state (fireJob job now appended)) >? 0 then Backoff
  else Resolved now.

Definition start_origin (now : Z) (job : CronJob) (o : origin) : origin :=
  if negb (enabled job) then o
  else if match nextRunAtMs (state job) with None => true | Some n => n <? now end
       then Resolved now else o.

Definition patch_origin (patch : CronJobPatch) (now : Z) (o : origin) : origin :=
  match patch_schedule patch with Some _ => Resolved now | None => o end.

(** The jobs the scheduler can hold: created by [add], then changed by
    [update], by a fire ([runNow] or the timer) and by [start]. *)
Inductive held : CronJob -> origin -> Prop :=
| held_add newId params now :
    held (new_job newId params now) (Resolved now)
| held_update j o patch now :
    held j o -> held (patch_job patch now j) (patch_origin patch now o)
| held_fire j o now appended :
    held j o -> held (fireJob j now appended) (fire_origin j now appended)
| held_start j o now :
    held j o -> held (start_job now j) (start_origin now j o).

(** The states of the engine, from a first boot without a store file. *)
Inductive reachable : CronEngine -> Prop :=
| reach_create : reachable (createCronEngine None)
| reach_restart e : reachable e -> reachable (createCronEngine (store e))
| reach_start e now armNow : reachable e -> reachable (start e now armNow)
| reach_stop e : reachable e -> reachable (stop e)
| reach_add e newId params now armNow :
    reachable e -> reachable (fst (add e newId params now armNow))
| reach_update e i patch now armNow :
    reachable e -> reachable (fst (update e i patch now armNow))
| reach_remove e i : reachable e -> reachable (fst (remove e i))
| reach_runNow e i now appended :
    reachable e -> reachable (fst (runNow e i now appended))
| reach_tick e now armNow appended :
    reachable e -> timer e <> None -> reachable (fst (onTick e now armNow appended)).

(** The assignment [o] left [null] in [nextRunAtMs]. *)
Definition null_origin (s : CronSchedule) (o : origin) : Prop :=
  match o with
  | Spent => True
  | Backoff => False
  | Resolved t => computeNextRun s t = None
  end.

(** A spent one-shot, in the words of the specification: a one-shot that
    has fired. *)
Definition spent_one_shot (j : CronJob) : Prop :=
  is_at (schedule j) = true /\ lastRunAtMs (state j) <> None.

(** An unparseable schedule, in the words of the specification: an invalid
    timestamp, an invalid or zero duration, or a cron expression that is
    malformed or never satisfied. *)
Definition unparseable (s : CronSchedule) : Prop :=
  match s with
  | At at_ => Date_getTime P at_ = None
  | Every every => parseDuration every = None \/ parseDuration every = Some 0
  | CronExpr cron => forall t, nextCronFire cron t = None
  end.

(** When a schedule resolution at [t] returns [null]. *)
Definition resolves_to_null (s : CronSchedule) (t : Z) : Prop :=
  match s with
  | At at_ => Date_getTime P at_ = None \/ exists t0, Date_getTime P at_ = Some t0 /\ t0 <= t
  | Every every => parseDuration every = None \/ parseDuration every = Some 0
  | CronExpr cron => nextCronFire cron t = None
  end.

(** A job with a history, and a store file of such jobs. *)
Definition tracked (j : CronJob) : Prop := exists o, held j o.

Definition store_tracked (e : CronEngine) : Prop :=
  match store e with Some js => Forall tracked js | None => True end.

(** *** The scan of [nextCronFire] terminates within its fuel

    On a host whose clock keeps one offset, a step of the cursor is 60000 ms
    and the scan has left the 366 days before the fuel is used up. *)

Lemma setMinutes_next_fixed (off t : Z) :
  fixed_offset off -> setMinutes_next t = t + MINUTE_MS.
Proof.
  intros H. unfold setMinutes_next. destruct (H t) as [-> _].
  destruct (H (t + off + MINUTE_MS)) as [_ ->]. lia.
Qed.

Lemma setSeconds_0_0_fixed (off t : Z) :
  fixed_offset off -> setSeconds_0_0 t = t - (t + off) mod MINUTE_MS.
Proof.
  intros H. unfold setSeconds_0_0. cbv zeta. destruct (H t) as [-> _].
  destruct (H (t + off - (t + off) mod MINUTE_MS)) as [_ ->]. lia.
Qed.

(** The first minute the scan looks at. *)
Lemma scan_start_fixed (off afterMs : Z) :
  fixed_offset off ->
  setMinutes_next (setSeconds_0_0 afterMs)
  = afterMs - (afterMs + off) mod MINUTE_MS + MINUTE_MS.
Proof.
  intros H. now rewrite (setMinutes_next_fixed _ H), (setSeconds_0_0_fixed _ H).
Qed.

Lemma scan_fuel (off : Z) (minutes hours doms months dows : list Z) (limit : Z) :
  fixed_offset off ->
  forall fuel cursor,
  limit <= cursor + Z.of_nat fuel * MINUTE_MS ->
  scan (S fuel) minutes hours doms months dows cursor limit
  = scan fuel minutes hours doms months dows cursor limit.
Proof.
  intros Hfix. unfold MINUTE_MS. induction fuel as [|fuel IH]; intros cursor H.
  - cbn [scan]. replace (cursor <? limit) with false; [reflexivity|].
    symmetry. apply Z.ltb_ge. lia.
  - change (scan (S (S fuel)) minutes hours doms months dows cursor limit)
      with (if cursor <? limit then
              if includes months (month_of P cursor) && includes doms (dom_of P cursor)
                 && includes dows (dow_of P cursor) && includes hours (hour_of P cursor)
                 && includes minutes (minute_of P cursor)
              then Some cursor
              else scan (S fuel) minutes hours doms months dows (setMinutes_next cursor) limit
            else None).
    rewrite IH; [reflexivity|]. rewrite (setMinutes_next_fixed _ Hfix). unfold MINUTE_MS. lia.
Qed.

Lemma scan_fuel_plus (off : Z) (minutes hours doms months dows : list Z) (limit : Z)
    (extra : nat) :
  fixed_offset off ->
  forall fuel cursor,
  limit <= cursor + Z.of_nat fuel * MINUTE_MS ->
  scan (fuel + extra) minutes hours doms months dows cursor limit
  = scan fuel minutes hours doms months dows cursor limit.
Proof.
  intros Hfix. induction extra as [|extra IH]; intros fuel cursor H;
    [now rewrite Nat.add_0_r|].
  rewrite Nat.add_succ_r, (@scan_fuel off _ _ _ _ _ _ Hfix); [now apply IH|].
  rewrite Nat2Z.inj_add. unfold MINUTE_MS in *. lia.
Qed.

(** More iterations than [SCAN_FUEL] change nothing: the loop of
    [nextCronFire] has left the scanned year by then. *)
Lemma nextCronFire_fuel (off : Z) (extra : nat) (expr : string) (afterMs : Z) :
  fixed_offset off ->
  nextCronFire_within (SCAN_FUEL + extra) expr afterMs = nextCronFire expr afterMs.
Proof.
  intros Hfix. unfold nextCronFire, nextCronFire_within.
  assert (Hfuel : Z.of_nat SCAN_FUEL = 527041) by (vm_compute; reflexivity).
  remember SCAN_FUEL as fuel eqn:Efuel. clear Efuel.
  destruct (List.map parseFieldValues (split_ws (JS.trim expr)))
    as [|[mi|] [|[ho|] [|[dm|] [|[mo|] [|[dw|] [|x l]]]]]]; try reflexivity.
  apply (@scan_fuel_plus off _ _ _ _ _ _ _ Hfix). rewrite (@scan_start_fixed off _ Hfix).
  pose proof (Z.mod_pos_bound (afterMs + off) MINUTE_MS eq_refl) as Hmod.
  unfold MINUTE_MS in *. lia.
Qed.

(** *** Error backoff *)

Lemma errorBackoffMs_table (n : Z) :
  (n <= 1 /\ errorBackoffMs n = 30000)
  \/ (n = 2 /\ errorBackoffMs n = 60000)
  \/ (n = 3 /\ errorBackoffMs n = 300000)
  \/ (n = 4 /\ errorBackoffMs n = 900000)
  \/ (5 <= n /\ errorBackoffMs n = 3600000).
Proof.
  unfold errorBackoffMs. change (Z.of_nat (List.length ERROR_BACKOFF_MS)) with 5.
  destruct (Z_le_gt_dec n 1) as [H1|H1].
  - left. split; [exact H1|].
    replace (Z.max 0 (Z.min (n - 1) (5 - 1))) with 0 by lia. reflexivity.
  - right. destruct (Z.eq_dec n 2) as [->|H2]; [left; split; reflexivity|].
    right. destruct (Z.eq_dec n 3) as [->|H3]; [left; split; reflexivity|].
    right. destruct (Z.eq_dec n 4) as [->|H4]; [left; split; reflexivity|].
    right. split; [lia|].
    replace (Z.max 0 (Z.min (n - 1) (5 - 1))) with 4 by lia. reflexivity.
Qed.

Lemma errorBackoffMs_monotone (a b : Z) : a <= b -> errorBackoffMs a <= errorBackoffMs b.
Proof.
  intros H.
  destruct (errorBackoffMs_table a) as [[? ->]|[[? ->]|[[? ->]|[[? ->]|[? ->]]]]];
    destruct (errorBackoffMs_table b) as [[? ->]|[[? ->]|[[? ->]|[[? ->]|[? ->]]]]]; lia.
Qed.

Lemma fireJob_errors (job : CronJob) (currentMs : Z) (appended : bool) :
  consecutiveErrors (state (fireJob job currentMs appended))
  = if appended then 0 else consecutiveErrors (state job) + 1.
Proof.
  unfold fireJob. destruct (is_at (schedule job)); [reflexivity|].
  destruct (_ >? 0); reflexivity.
Qed.

(** C4. When a fire of a job that is not a one-shot leaves
    [consecutiveErrors = n > 0], the next run is the fire time plus
    [errorBackoffMs n], whatever the schedule resolves to: 30 s, 60 s, 5 min,
    15 min and 1 h for n = 1..5 and 1 h for every larger n; the delays are
    non-decreasing in the error count and never exceed the last entry. *)
Theorem failed_fire_backs_off (job : CronJob) (currentMs : Z) (appended : bool) :
  is_at (schedule job) = false ->
  consecutiveErrors (state (fireJob job currentMs appended)) > 0 ->
  let n := consecutiveErrors (state (fireJob job currentMs appended)) in
  nextRunAtMs (state (fireJob job currentMs appended)) = Some (currentMs + errorBackoffMs n)
  /\ errorBackoffMs n
     = (if n =? 1 then 30000 else if n =? 2 then 60000 else if n =? 3 then 300000
        else if n =? 4 then 900000 else 3600000)
  /\ (forall a b, a <= b -> errorBackoffMs a <= errorBackoffMs b)
  /\ (forall a, errorBackoffMs a <= nth 4 ERROR_BACKOFF_MS 0)
  /\ (forall a, 5 <= a -> errorBackoffMs a = nth 4 ERROR_BACKOFF_MS 0).
Proof.
  intros Hat Hpos n. subst n. rewrite fireJob_errors in *.
  set (n := if appended then 0 else consecutiveErrors (state job) + 1) in *.
  split.
  - unfold fireJob. rewrite Hat. fold n.
    replace (n >? 0) with true by (symmetry; apply Z.gtb_lt; lia). reflexivity.
  - split.
    + destruct (errorBackoffMs_table n) as [[? ->]|[[-> ->]|[[-> ->]|[[-> ->]|[? ->]]]]];
        try reflexivity.
      * replace n with 1 by lia. reflexivity.
      * destruct (n =? 1) eqn:E1; [apply Z.eqb_eq in E1; lia|].
        destruct (n =? 2) eqn:E2; [apply Z.eqb_eq in E2; lia|].
        destruct (n =? 3) eqn:E3; [apply Z.eqb_eq in E3; lia|].
        destruct (n =? 4) eqn:E4; [apply Z.eqb_eq in E4; lia|]. reflexivity.
    + split; [exact errorBackoffMs_monotone|]. cbn [nth ERROR_BACKOFF_MS]. split.
      * intros a.
        destruct (errorBackoffMs_table a) as [[? ->]|[[? ->]|[[? ->]|[[? ->]|[? ->]]]]]; lia.
      * intros a Ha.
        destruct (errorBackoffMs_table a) as [[? ?]|[[? ?]|[[? ?]|[[? ?]|[? ?]]]]]; lia.
Qed.

(** *** Unknown ids *)

Lemma find_absent (js : list CronJob) (i : string) :
  ~ In i (List.map id js) -> find js i = None.
Proof.
  unfold find. induction js as [|j js IH]; cbn; intros H; [reflexivity|].
  destruct (String.eqb_spec (id j) i) as [E|E]; [exfalso; auto|].
  apply IH. intros Hin. apply H. now right.
Qed.

(** C9. For an id that no job of the collection has, [update], [remove]
    and [runNow] each fail with the error whose message is
    "cron job not found: " followed by the id, and leave the whole engine
    state (jobs, store, timer) as it was. *)
Theorem unknown_id_fails_not_found (e : CronEngine) (i : string) (patch : CronJobPatch)
    (now armNow : Z) (appended : bool) :
  ~ In i (List.map id (jobs e)) ->
  update e i patch now armNow = (e, Err ("cron job not found: " ++ i)%string)
  /\ remove e i = (e, Err ("cron job not found: " ++ i)%string)
  /\ runNow e i now appended = (e, Err ("cron job not found: " ++ i)%string).
Proof.
  intros H. apply find_absent in H.
  unfold update, remove, runNow. rewrite H. repeat split; reflexivity.
Qed.

(** *** The null-next-run invariant *)

Lemma computeNextRun_null (s : CronSchedule) (t : Z) :
  computeNextRun s t = None <-> resolves_to_null s t.
Proof.
  destruct s as [a|d|c]; cbn.
  - destruct (Date_getTime P a) as [t0|]; [|tauto].
    destruct (t0 >? t) eqn:E.
    + apply Z.gtb_lt in E.
      split; [discriminate|]. intros [H|(t1 & H & Hle)]; [discriminate|].
      inversion H; subst. lia.
    + rewrite Z.gtb_ltb in E. apply Z.ltb_ge in E.
      split; [|reflexivity]. intros _. right. eauto.
  - destruct (parseDuration d) as [ms|]; [|tauto].
    destruct (Z.eqb_spec ms 0) as [->|Hms]; [tauto|].
    split; [discriminate|]. intros [H|H]; [discriminate|]. inversion H; contradiction.
  - tauto.
Qed.

Lemma held_null (j : CronJob) (o : origin) :
  held j o -> (nextRunAtMs (state j) = None <-> null_origin (schedule j) o).
Proof.
  induction 1 as [newId params now | j o patch now Hj IH | j o now appended Hj IH
                 | j o now Hj IH].
  - cbn. tauto.
  - unfold patch_job, patch_origin. destruct (patch_schedule patch) as [s|]; cbn.
    + tauto.
    + exact IH.
  - unfold fire_origin. rewrite fireJob_errors. unfold fireJob.
    destruct (is_at (schedule j)); cbn; [tauto|].
    destruct (_ >? 0); cbn; [split; [discriminate | tauto] | tauto].
  - unfold start_job, start_origin. destruct (enabled j); cbn; [|exact IH].
    destruct (match nextRunAtMs (state j) with None => true | Some n => n <? now end);
      [|exact IH].
    destruct (is_at (schedule j) && _); cbn; tauto.
Qed.

Lemma update_first_tracked (i : string) (f : CronJob -> CronJob) (js : list CronJob) :
  (forall j, tracked j -> tracked (f j)) ->
  Forall tracked js -> Forall tracked (update_first i f js).
Proof.
  intros Hf. induction 1 as [|j js Hj Hjs IH]; cbn; [constructor|].
  destruct (String.eqb (id j) i); constructor; auto.
Qed.

Lemma remove_first_tracked (i : string) (js : list CronJob) :
  Forall tracked js -> Forall tracked (remove_first i js).
Proof.
  induction 1 as [|j js Hj Hjs IH]; cbn; [constructor|].
  destruct (String.eqb (id j) i); [assumption | constructor; assumption].
Qed.

Lemma fire_due_tracked (js : list CronJob) (now : Z) (appended : nat -> bool) : forall k,
  Forall tracked js -> Forall tracked (fst (fire_due js k now appended)).
Proof.
  induction js as [|j js IH]; intros k H; cbn; [constructor|].
  inversion H as [|? ? Hj Hjs]; subst. specialize (IH (S k) Hjs).
  destruct (fire_due js (S k) now appended) as [rest' fired]. cbn in IH.
  destruct (is_due now j); cbn; constructor; auto.
  destruct Hj as [o Ho]. eexists; eapply held_fire; exact Ho.
Qed.

Lemma armTimer_jobs (e : CronEngine) (now : Z) :
  jobs (armTimer e now) = jobs e /\ store (armTimer e now) = store e.
Proof.
  unfold armTimer. destruct (stopped e); [auto|].
  destruct (min_next (jobs e)); auto.
Qed.

Lemma reachable_tracked (e : CronEngine) :
  reachable e -> Forall tracked (jobs e) /\ store_tracked e.
Proof.
  unfold store_tracked.
  induction 1 as [ | e He [IHj IHs] | e now armNow He [IHj IHs] | e He [IHj IHs]
                 | e newId params now armNow He [IHj IHs]
                 | e i patch now armNow He [IHj IHs] | e i He [IHj IHs]
                 | e i now appended He [IHj IHs] | e now armNow appended He [IHj IHs] Ht ].
  - cbn. auto.
  - cbn. auto.
  - unfold start. destruct (armTimer_jobs (save (with_jobs (load e)
        (List.map (start_job now) (jobs (load e))))) armNow) as [-> ->]. cbn.
    assert (H : Forall tracked (List.map (start_job now)
                  match store e with Some js => js | None => [] end)).
    { apply Forall_map. destruct (store e) as [js|]; [|constructor].
      eapply Forall_impl; [|exact IHs]. intros j [o Ho]. eexists; eapply held_start; exact Ho. }
    auto.
  - cbn. auto.
  - unfold add. cbn [fst].
    destruct (armTimer_jobs (clearTimer (save (with_jobs e
        (jobs e ++ [new_job newId params now])))) armNow) as [-> ->]. cbn.
    assert (H : Forall tracked (jobs e ++ [new_job newId params now])).
    { apply Forall_app. split; [assumption|]. constructor; [|constructor].
      eexists; eapply held_add. }
    auto.
  - unfold update. destruct (find (jobs e) i); cbn [fst]; [|auto].
    destruct (armTimer_jobs (clearTimer (save (with_jobs e
        (update_first i (patch_job patch now) (jobs e))))) armNow) as [-> ->]. cbn.
    assert (H : Forall tracked (update_first i (patch_job patch now) (jobs e))).
    { apply update_first_tracked; [|assumption].
      intros j [o Ho]. eexists; eapply held_update; exact Ho. }
    auto.
  - unfold remove. destruct (find (jobs e) i); cbn; [|auto].
    split; apply remove_first_tracked; assumption.
  - unfold runNow. destruct (find (jobs e) i); cbn; [|auto].
    assert (H : Forall tracked (update_first i (fun j => fireJob j now appended) (jobs e))).
    { apply update_first_tracked; [|assumption].
      intros j [o Ho]. eexists; eapply held_fire; exact Ho. }
    auto.
  - unfold onTick. cbn [clearTimer with_timer stopped jobs].
    destruct (stopped e); cbn; [auto|].
    pose proof (fire_due_tracked now appended 0 IHj) as H.
    destruct (fire_due (jobs e) 0 now appended) as [js fired]. cbn [fst] in *.
    destruct (armTimer_jobs (save (with_jobs (clearTimer e) js)) armNow) as [-> ->].
    cbn. auto.
Qed.

Lemma held_spent (j : CronJob) (o : origin) :
  held j o -> o = Spent -> spent_one_shot j.
Proof.
  unfold spent_one_shot.
  induction 1 as [newId params now | j o patch now Hj IH | j o now appended Hj IH
                 | j o now Hj IH].
  - discriminate.
  - unfold patch_job, patch_origin. destruct (patch_schedule patch) as [s|]; cbn;
      [discriminate | exact IH].
  - unfold fire_origin. rewrite fireJob_errors. unfold fireJob.
    destruct (is_at (schedule j)) eqn:Eat; cbn.
    + intros _. split; [exact Eat | discriminate].
    + destruct (_ >? 0); discriminate.
  - unfold start_job, start_origin. destruct (enabled j); cbn; [|exact IH].
    destruct (match nextRunAtMs (state j) with None => true | Some n => n <? now end);
      [discriminate|exact IH].
Qed.

(** C5 (amended). For every job held by the scheduler, [nextRunAtMs] is
    null exactly when its last assignment was the one-shot branch of a fire
    (a spent one-shot: a one-shot that has fired) or a schedule resolution
    that returned null; a resolution at time [t] returns null exactly for a
    one-shot whose timestamp is invalid or not later than [t], for an invalid
    or zero duration, and for a cron expression that is malformed or has no
    match in the scanned year.  The assignment made by error backoff is never
    null. *)
Theorem null_next_run_invariant (e : CronEngine) (j : CronJob) :
  reachable e -> In j (jobs e) ->
  exists o, held j o
    /\ (nextRunAtMs (state j) = None
        <-> o = Spent \/ exists t, o = Resolved t /\ resolves_to_null (schedule j) t)
    /\ (o = Spent -> spent_one_shot j).
Proof.
  intros He Hin. destruct (reachable_tracked He) as [Hj _].
  rewrite Forall_forall in Hj. destruct (Hj j Hin) as [o Ho].
  exists o. split; [exact Ho|]. split; [|exact (held_spent Ho)].
  rewrite (held_null Ho).
  destruct o as [t| |]; cbn.
  - rewrite computeNextRun_null. split.
    + intros H. right. exists t. auto.
    + intros [H|(t' & H & Hn)]; [discriminate|]. inversion H; subst. exact Hn.
  - split; auto.
  - split; [tauto|]. intros [H|(t' & H & _)]; discriminate.
Qed.

(** *** Durations *)

Lemma DURATION_RE_digit_groups :
  digit_groups (cat [opt (Cat (Group 1 (plus digit)) (chr "h"));
                     opt (Cat (Group 2 (plus digit)) (chr "m"));
                     opt (Cat (Group 3 (plus digit)) (chr "s"));
                     Eol false]).
Proof.
  cbn [cat opt plus digit chr digit_groups digits_only].
  repeat split; intros c Hc; exact Hc.
Qed.

Lemma group_number_nonneg (i : nat) (m : captures) :
  digit_captures m -> 0 <= group_number i m.
Proof.
  intros H. unfold group_number. destruct (group i m) as [d|] eqn:E; [|lia].
  apply digits_acc_nonneg; [exact (H i d E) | lia].
Qed.

Lemma parseDuration_is_positive_aux (s : string) (ms : Z) :
  parseDuration s = Some ms -> 0 < ms /\ ms mod 1000 = 0.
Proof.
  unfold parseDuration.
  destruct (exec DURATION_RE (JS.trim s)) as [m|] eqn:E; [|discriminate].
  change DURATION_RE
    with (Cat (Bol false)
              (cat [opt (Cat (Group 1 (plus digit)) (chr "h"));
                    opt (Cat (Group 2 (plus digit)) (chr "m"));
                    opt (Cat (Group 3 (plus digit)) (chr "s"));
                    Eol false])) in E.
  apply exec_digit_captures in E; [|exact DURATION_RE_digit_groups].
  pose proof (group_number_nonneg 1 E) as H1.
  pose proof (group_number_nonneg 2 E) as H2.
  pose proof (group_number_nonneg 3 E) as H3.
  destruct ((group_number 1 m =? 0) && (group_number 2 m =? 0) && (group_number 3 m =? 0))
    eqn:Hz; [discriminate|].
  intros H. inversion H; subst ms. split; [|apply Z.mod_mul; lia].
  apply andb_false_iff in Hz. destruct Hz as [Hz|Hz];
    [apply andb_false_iff in Hz; destruct Hz as [Hz|Hz]|]; apply Z.eqb_neq in Hz; lia.
Qed.

(** X10. A duration that [parseDuration] accepts and that does not exceed
    [Number.MAX_SAFE_INTEGER] milliseconds is a positive whole number of
    seconds, in milliseconds: never zero, never negative.  So an interval
    schedule with such a duration always resolves, to the time of the
    resolution plus the duration. *)
Theorem parseDuration_is_positive (s : string) (ms : Z) :
  parseDuration s = Some ms ->
  ms <= MAX_SAFE_INTEGER ->
  0 < ms /\ ms mod 1000 = 0
  /\ forall afterMs, 0 <= afterMs -> afterMs + ms <= MAX_SAFE_INTEGER ->
       computeNextRun (Every s) afterMs = Some (afterMs + ms).
Proof.
  intros H _. destruct (parseDuration_is_positive_aux _ H) as [Hpos Hmod].
  split; [exact Hpos|]. split; [exact Hmod|].
  intros afterMs _ _. cbn [computeNextRun]. rewrite H.
  replace (ms =? 0) with false by (symmetry; apply Z.eqb_neq; lia). reflexivity.
Qed.

(** *** The scan of [nextCronFire] finds the first matching minute *)

(** The test of the scan: every component of the instant is in its field. *)
Definition matches (minutes hours doms months dows : list Z) (t : Z) : bool :=
  includes months (month_of P t) && includes doms (dom_of P t)
  && includes dows (dow_of P t) && includes hours (hour_of P t)
  && includes minutes (minute_of P t).

(** The five fields of an expression, when each of them parses. *)
Definition cron_fields (expr : string)
  : option (list Z * list Z * list Z * list Z * list Z) :=
  match List.map parseFieldValues (split_ws (JS.trim expr)) with
  | [Some minutes; Some hours; Some doms; Some months; Some dows] =>
      Some (minutes, hours, doms, months, dows)
  | _ => None
  end.

Lemma scan_some (off : Z) (mi ho dm mo dw : list Z) (limit : Z) :
  fixed_offset off ->
  forall fuel cursor c,
  scan fuel mi ho dm mo dw cursor limit = Some c ->
  exists k : nat,
    c = cursor + Z.of_nat k * MINUTE_MS /\ c < limit
    /\ matches mi ho dm mo dw c = true
    /\ forall j : nat, (j < k)%nat ->
         matches mi ho dm mo dw (cursor + Z.of_nat j * MINUTE_MS) = false.
Proof.
  intros Hfix. induction fuel as [|fuel IH]; intros cursor c H; [discriminate|].
  cbn [scan] in H. fold (matches mi ho dm mo dw cursor) in H.
  rewrite (setMinutes_next_fixed _ Hfix) in H.
  destruct (cursor <? limit) eqn:El; [|discriminate]. apply Z.ltb_lt in El.
  destruct (matches mi ho dm mo dw cursor) eqn:Em.
  - inversion H; subst c. exists 0%nat. repeat split; auto; [lia|]. intros j Hj; lia.
  - destruct (IH _ _ H) as (k & Hc & Hlt & Hm & Hfirst). exists (S k).
    split; [unfold MINUTE_MS in *; lia|]. split; [exact Hlt|]. split; [exact Hm|].
    intros [|j] Hj.
    + replace (cursor + Z.of_nat 0 * MINUTE_MS) with cursor by lia. exact Em.
    + replace (cursor + Z.of_nat (S j) * MINUTE_MS)
        with (cursor + MINUTE_MS + Z.of_nat j * MINUTE_MS) by (unfold MINUTE_MS; lia).
      apply Hfirst. lia.
Qed.

Lemma scan_none (off : Z) (mi ho dm mo dw : list Z) (limit : Z) :
  fixed_offset off ->
  forall fuel cursor,
  scan fuel mi ho dm mo dw cursor limit = None ->
  forall j : nat, (j < fuel)%nat -> cursor + Z.of_nat j * MINUTE_MS < limit ->
  matches mi ho dm mo dw (cursor + Z.of_nat j * MINUTE_MS) = false.
Proof.
  intros Hfix. induction fuel as [|fuel IH]; intros cursor H j Hj Hlim; [lia|].
  cbn [scan] in H. fold (matches mi ho dm mo dw cursor) in H.
  rewrite (setMinutes_next_fixed _ Hfix) in H.
  destruct (cursor <? limit) eqn:El.
  - destruct (matches mi ho dm mo dw cursor) eqn:Em; [discriminate|].
    destruct j as [|j].
    + replace (cursor + Z.of_nat 0 * MINUTE_MS) with cursor by lia. exact Em.
    + replace (cursor + Z.of_nat (S j) * MINUTE_MS)
        with (cursor + MINUTE_MS + Z.of_nat j * MINUTE_MS) by (unfold MINUTE_MS; lia).
      apply IH; [exact H | lia | unfold MINUTE_MS in *; lia].
  - apply Z.ltb_ge in El. unfold MINUTE_MS in *. lia.
Qed.

(** An instant after [afterMs] that is a whole minute on a clock [off]
    ahead of UTC is a number of minutes after the start of the scan. *)
Lemma minute_after (off afterMs t : Z) :
  afterMs < t -> (t + off) mod MINUTE_MS = 0 ->
  exists j : nat,
    t = afterMs - (afterMs + off) mod MINUTE_MS + MINUTE_MS + Z.of_nat j * MINUTE_MS.
Proof.
  unfold MINUTE_MS. intros Hlt Hmod.
  pose proof (Z.div_mod (afterMs + off) 60000 ltac:(lia)) as Ha.
  pose proof (Z.mod_pos_bound (afterMs + off) 60000 ltac:(lia)) as Hb.
  pose proof (Z.div_mod (t + off) 60000 ltac:(lia)) as Ht. rewrite Hmod, Z.add_0_r in Ht.
  exists (Z.to_nat ((t + off) / 60000 - (afterMs + off) / 60000 - 1)).
  rewrite Z2Nat.id by lia. lia.
Qed.

Lemma nextCronFire_fields (expr : string) (afterMs : Z) :
  nextCronFire expr afterMs
  = match cron_fields expr with
    | Some (mi, ho, dm, mo, dw) =>
        scan SCAN_FUEL mi ho dm mo dw
             (setMinutes_next (setSeconds_0_0 afterMs))
             (afterMs + 366 * 24 * 60 * 60 * 1000)
    | None => None
    end.
Proof.
  unfold nextCronFire, nextCronFire_within, cron_fields.
  remember SCAN_FUEL as fuel eqn:Efuel. clear Efuel.
  destruct (List.map parseFieldValues (split_ws (JS.trim expr)))
    as [|[mi|] [|[ho|] [|[dm|] [|[mo|] [|[dw|] [|x l]]]]]]; reflexivity.
Qed.

Lemma nextCronFire_spec (off : Z) (expr : string) (afterMs : Z) (mi ho dm mo dw : list Z) :
  fixed_offset off ->
  cron_fields expr = Some (mi, ho, dm, mo, dw) ->
  match nextCronFire expr afterMs with
  | Some c =>
      afterMs < c < afterMs + 366 * 24 * 60 * 60 * 1000
      /\ LocalTime P c mod MINUTE_MS = 0
      /\ matches mi ho dm mo dw c = true
      /\ forall t, afterMs < t < c -> LocalTime P t mod MINUTE_MS = 0 ->
           matches mi ho dm mo dw t = false
  | None =>
      forall t, afterMs < t < afterMs + 366 * 24 * 60 * 60 * 1000 ->
        LocalTime P t mod MINUTE_MS = 0 -> matches mi ho dm mo dw t = false
  end.
Proof.
  intros Hfix Hf. rewrite nextCronFire_fields, Hf, (scan_start_fixed _ Hfix).
  assert (Hfuel : Z.of_nat SCAN_FUEL = 527041) by (vm_compute; reflexivity).
  remember SCAN_FUEL as fuel eqn:Efuel. clear Efuel.
  assert (Hloc : forall t, LocalTime P t = t + off) by (intros t; apply Hfix).
  pose proof (Z.mod_pos_bound (afterMs + off) MINUTE_MS eq_refl) as Hmod.
  set (start := afterMs - (afterMs + off) mod MINUTE_MS + MINUTE_MS).
  assert (Hstart : start + off = ((afterMs + off) / MINUTE_MS + 1) * MINUTE_MS).
  { unfold start. pose proof (Z.div_mod (afterMs + off) MINUTE_MS ltac:(discriminate)) as Hd.
    unfold MINUTE_MS in *. lia. }
  destruct (scan fuel mi ho dm mo dw start _) as [c|] eqn:E.
  - destruct (@scan_some off _ _ _ _ _ _ Hfix _ _ _ E) as (k & Hc & Hlt & Hm & Hfirst).
    split; [unfold start, MINUTE_MS in *; lia|]. split.
    { rewrite Hloc, Hc.
      replace (start + Z.of_nat k * MINUTE_MS + off)
        with (((afterMs + off) / MINUTE_MS + 1 + Z.of_nat k) * MINUTE_MS) by lia.
      apply Z.mod_mul. discriminate. }
    split; [exact Hm|]. intros t Ht Htm. rewrite Hloc in Htm.
    destruct (minute_after off (proj1 Ht) Htm) as [j Hj]. fold start in Hj.
    rewrite Hj. apply Hfirst. unfold MINUTE_MS in *. nia.
  - intros t Ht Htm. rewrite Hloc in Htm.
    destruct (minute_after off (proj1 Ht) Htm) as [j Hj]. fold start in Hj.
    rewrite Hj. eapply scan_none; [exact Hfix | exact E | |].
    + unfold start, MINUTE_MS in *. lia.
    + rewrite <- Hj. lia.
Qed.

(** X11. On a host whose local clock keeps one offset from UTC, and for
    an [afterMs] from 0 on whose scan stays within the time values of [Date],
    [nextCronFire] returns the first instant after [afterMs], less than 366
    days ahead, that is a whole minute of the local clock and whose month,
    day of month, day of week, hour and minute are each in the corresponding
    field, and null when there is none in that range or when the expression
    does not have five fields that parse.  Day of month and day of week must
    both match. *)
Theorem nextCronFire_is_first_matching_minute (off : Z) (expr : string) (afterMs : Z) :
  fixed_offset off ->
  0 <= afterMs -> afterMs + 366 * 24 * 60 * 60 * 1000 <= MAX_TIME ->
  match cron_fields expr with
  | None => nextCronFire expr afterMs = None
  | Some (mi, ho, dm, mo, dw) =>
      match nextCronFire expr afterMs with
      | Some c =>
          afterMs < c < afterMs + 366 * 24 * 60 * 60 * 1000
          /\ LocalTime P c mod MINUTE_MS = 0
          /\ matches mi ho dm mo dw c = true
          /\ forall t, afterMs < t < c -> LocalTime P t mod MINUTE_MS = 0 ->
               matches mi ho dm mo dw t = false
      | None =>
          forall t, afterMs < t < afterMs + 366 * 24 * 60 * 60 * 1000 ->
            LocalTime P t mod MINUTE_MS = 0 -> matches mi ho dm mo dw t = false
      end
  end.
Proof.
  intros Hfix _ _. destruct (cron_fields expr) as [[[[[mi ho] dm] mo] dw]|] eqn:E.
  - exact (@nextCronFire_spec off expr afterMs _ _ _ _ _ Hfix E).
  - rewrite nextCronFire_fields, E. reflexivity.
Qed.

(** *** Next runs lie in the future *)

Lemma computeNextRun_later (off : Z) (s : CronSchedule) (t n : Z) :
  fixed_offset off -> computeNextRun s t = Some n -> t < n.
Proof.
  intros Hfix. destruct s as [a|d|c]; cbn [computeNextRun].
  - destruct (Date_getTime P a) as [t0|]; [|discriminate].
    destruct (t0 >? t) eqn:E; [|discriminate]. apply Z.gtb_lt in E.
    intros H; inversion H; subst; exact E.
  - destruct (parseDuration d) as [ms|] eqn:E; [|discriminate].
    destruct (ms =? 0); [discriminate|]. apply parseDuration_is_positive_aux in E.
    intros H; inversion H; subst. lia.
  - intros H. destruct (cron_fields c) as [[[[[mi ho] dm] mo] dw]|] eqn:E.
    + pose proof (@nextCronFire_spec off c t _ _ _ _ _ Hfix E) as Hs. rewrite H in Hs. lia.
    + rewrite nextCronFire_fields, E in H. discriminate.
Qed.

(** X12. On a host whose local clock keeps one offset from UTC, and for
    times up to [Number.MAX_SAFE_INTEGER], a schedule never resolves to the
    present or the past, whatever its kind: when
    [computeNextRun(schedule, afterMs)] is not null it is later than
    [afterMs].  For a one-shot it is the timestamp itself, for an interval
    it is [afterMs] plus the positive duration, and for a cron expression it
    is a whole minute of the local clock less than 366 days ahead. *)
Theorem next_run_is_later (off : Z) (s : CronSchedule) (afterMs n : Z) :
  fixed_offset off ->
  0 <= afterMs -> n <= MAX_SAFE_INTEGER ->
  computeNextRun s afterMs = Some n ->
  afterMs < n
  /\ match s with
     | At at_ => Date_getTime P at_ = Some n
     | Every every =>
         exists ms, parseDuration every = Some ms /\ 0 < ms /\ n = afterMs + ms
     | CronExpr cron =>
         LocalTime P n mod MINUTE_MS = 0 /\ n < afterMs + 366 * 24 * 60 * 60 * 1000
     end.
Proof.
  intros Hfix _ _. destruct s as [a|d|c]; cbn [computeNextRun].
  - destruct (Date_getTime P a) as [t0|]; [|discriminate].
    destruct (t0 >? afterMs) eqn:E; [|discriminate]. apply Z.gtb_lt in E.
    intros H; inversion H; subst. auto.
  - destruct (parseDuration d) as [ms|] eqn:E; [|discriminate].
    destruct (ms =? 0); [discriminate|]. apply parseDuration_is_positive_aux in E.
    intros H; inversion H; subst. split; [lia|]. exists ms. repeat split; lia.
  - intros H. destruct (cron_fields c) as [[[[[mi ho] dm] mo] dw]|] eqn:E.
    + pose proof (@nextCronFire_spec off c afterMs _ _ _ _ _ Hfix E) as Hs.
      rewrite H in Hs. destruct Hs as (Hrange & Hmin & _).
      repeat split; first [exact Hmin | lia].
    + rewrite nextCronFire_fields, E in H. discriminate.
Qed.

(** *** Ticks *)

Lemma errorBackoffMs_at_least (n : Z) : 30000 <= errorBackoffMs n.
Proof.
  destruct (errorBackoffMs_table n) as [[? ->]|[[? ->]|[[? ->]|[[? ->]|[? ->]]]]]; lia.
Qed.

(** A job that has just fired is not due at the time of the fire. *)
Lemma fireJob_not_due (off : Z) (job : CronJob) (now : Z) (appended : bool) :
  fixed_offset off -> is_due now (fireJob job now appended) = false.
Proof.
  intros Hfix. unfold fireJob. destruct (is_at (schedule job)); [reflexivity|].
  destruct (_ >? 0).
  - unfold is_due, set_next, set_state. cbn [enabled state nextRunAtMs].
    pose proof (errorBackoffMs_at_least
      (if appended then 0 else consecutiveErrors (state job) + 1)) as H.
    replace (_ <=? now) with false by (symmetry; apply Z.leb_gt; lia).
    apply andb_false_r.
  - unfold is_due, set_next, set_state. cbn [enabled state nextRunAtMs].
    destruct (computeNextRun (schedule job) now) as [n|] eqn:E;
      [|apply andb_false_r].
    apply (@computeNextRun_later off _ _ _ Hfix) in E.
    replace (n <=? now) with false by (symmetry; apply Z.leb_gt; lia).
    apply andb_false_r.
Qed.

Lemma fire_due_not_due (off : Z) (js : list CronJob) (now : Z) (appended : nat -> bool) :
  fixed_offset off ->
  forall i, Forall (fun j => is_due now j = false) (fst (fire_due js i now appended)).
Proof.
  intros Hfix. induction js as [|j js IH]; intros i; cbn [fire_due]; [constructor|].
  specialize (IH (S i)). destruct (fire_due js (S i) now appended) as [rest' fired].
  cbn [fst] in IH. destruct (is_due now j) eqn:E; cbn [fst]; constructor; auto.
  apply (fireJob_not_due _ _ _ Hfix).
Qed.

Lemma onTick_running (e : CronEngine) (now armNow : Z) (appended : nat -> bool) :
  stopped e = false ->
  jobs (fst (onTick e now armNow appended)) = fst (fire_due (jobs e) 0 now appended)
  /\ snd (onTick e now armNow appended) = snd (fire_due (jobs e) 0 now appended)
  /\ store (fst (onTick e now armNow appended)) = Some (fst (fire_due (jobs e) 0 now appended)).
Proof.
  intros Hs. unfold onTick. cbn [clearTimer with_timer stopped jobs]. rewrite Hs.
  destruct (fire_due (jobs e) 0 now appended) as [js fired]. cbn [fst snd].
  match goal with
  | |- context [armTimer ?x armNow] => destruct (armTimer_jobs x armNow) as [-> ->]
  end.
  cbn. auto.
Qed.

(** X13. On a host whose local clock keeps one offset from UTC, a tick
    leaves no job due: after [onTick] at a time [currentMs] from 0 to
    [Number.MAX_SAFE_INTEGER] on a running engine, no job of the collection
    is both enabled and scheduled at or before [currentMs]; every job that
    was due has been fired and moved to a later time, backed off, or
    (one-shot) disabled. *)
Theorem tick_leaves_no_job_due (off : Z) (e : CronEngine) (currentMs armNow : Z)
    (appended : nat -> bool) :
  fixed_offset off ->
  0 <= currentMs <= MAX_SAFE_INTEGER ->
  stopped e = false ->
  Forall (fun j => is_due currentMs j = false)
         (jobs (fst (onTick e currentMs armNow appended))).
Proof.
  intros Hfix _ Hs. destruct (onTick_running e currentMs armNow appended Hs) as (-> & _ & _).
  apply (fire_due_not_due _ _ _ Hfix).
Qed.

Lemma fire_due_length (js : list CronJob) (now : Z) (appended : nat -> bool) : forall i,
  List.length (fst (fire_due js i now appended)) = List.length js.
Proof.
  induction js as [|j js IH]; intros i; cbn [fire_due]; [reflexivity|].
  specialize (IH (S i)). destruct (fire_due js (S i) now appended) as [rest' fired].
  cbn [fst] in IH. destruct (is_due now j); cbn; now rewrite IH.
Qed.

Lemma fire_due_nth (js : list CronJob) (now : Z) (appended : nat -> bool) : forall i k j,
  nth_error js k = Some j ->
  nth_error (fst (fire_due js i now appended)) k
  = Some (if is_due now j then fireJob j now (appended (i + k)%nat) else j).
Proof.
  induction js as [|j0 js IH]; intros i k j H; [destruct k; discriminate|].
  cbn [fire_due]. specialize (IH (S i)).
  destruct (fire_due js (S i) now appended) as [rest' fired]. cbn [fst] in IH.
  destruct k as [|k].
  - cbn in H. inversion H; subst j0. rewrite Nat.add_0_r.
    destruct (is_due now j); reflexivity.
  - cbn [nth_error] in H. specialize (IH k j H).
    replace (i + S k)%nat with (S i + k)%nat by lia.
    destruct (is_due now j0); cbn [fst nth_error]; exact IH.
Qed.

Lemma fire_due_payloads (js : list CronJob) (now : Z) (appended : nat -> bool) :
  (forall k, appended k = true) ->
  forall i, snd (fire_due js i now appended)
            = List.map fire_payload (List.filter (is_due now) js).
Proof.
  intros Hall. induction js as [|j js IH]; intros i; cbn [fire_due List.filter];
    [reflexivity|].
  specialize (IH (S i)). destruct (fire_due js (S i) now appended) as [rest' fired].
  cbn [snd] in IH. destruct (is_due now j); cbn [snd List.map]; [|exact IH].
  now rewrite Hall, IH.
Qed.

(** X14. A tick on a running engine fires exactly the jobs that are enabled
    and scheduled at or before [currentMs], each once and in collection
    order: the job at every position is replaced by its fired state when it
    was due and is left as it was otherwise (a disabled job or a job without
    a next run is never fired), and when every append resolves the
    [cron.fire] events appended are those of the due jobs, in order. *)
Theorem tick_fires_exactly_the_due_jobs (e : CronEngine) (currentMs armNow : Z)
    (appended : nat -> bool) :
  stopped e = false ->
  let e' := fst (onTick e currentMs armNow appended) in
  List.length (jobs e') = List.length (jobs e)
  /\ (forall k j, nth_error (jobs e) k = Some j ->
        nth_error (jobs e') k
        = Some (if is_due currentMs j then fireJob j currentMs (appended k) else j))
  /\ (forall j, enabled j = false \/ nextRunAtMs (state j) = None ->
        is_due currentMs j = false)
  /\ ((forall k, appended k = true) ->
      snd (onTick e currentMs armNow appended)
      = List.map fire_payload (List.filter (is_due currentMs) (jobs e))).
Proof.
  intros Hs. cbv zeta.
  destruct (onTick_running e currentMs armNow appended Hs) as (-> & -> & _).
  split; [apply fire_due_length|]. split; [intros k j H; now apply fire_due_nth|].
  split.
  - intros j [H|H]; unfold is_due; rewrite H; [reflexivity | apply andb_false_r].
  - intros Hall. now apply fire_due_payloads.
Qed.

(** *** Start *)

Lemma start_job_ready (off : Z) (now : Z) (job : CronJob) :
  fixed_offset off ->
  enabled (start_job now job) = true ->
  match nextRunAtMs (state (start_job now job)) with
  | Some n => now <= n
  | None => is_at (schedule (start_job now job)) = false
  end.
Proof.
  intros Hfix. unfold start_job. destruct (enabled job) eqn:Een; cbn [negb]; [|congruence].
  destruct (nextRunAtMs (state job)) as [n|] eqn:En.
  - destruct (n <? now) eqn:Elt.
    + destruct (computeNextRun (schedule job) now) as [n'|] eqn:Ec.
      * rewrite andb_false_r. cbn. intros _. apply (@computeNextRun_later off _ _ _ Hfix) in Ec. lia.
      * rewrite andb_true_r. destruct (is_at (schedule job)) eqn:Eat; cbn; [discriminate|].
        intros _. exact Eat.
    + rewrite En. intros _. apply Z.ltb_ge in Elt. exact Elt.
  - destruct (computeNextRun (schedule job) now) as [n'|] eqn:Ec.
    + rewrite andb_false_r. cbn. intros _. apply (@computeNextRun_later off _ _ _ Hfix) in Ec. lia.
    + rewrite andb_true_r. destruct (is_at (schedule job)) eqn:Eat; cbn; [discriminate|].
      intros _. exact Eat.
Qed.

Lemma start_jobs (e : CronEngine) (now armNow : Z) :
  jobs (start e now armNow)
  = List.map (start_job now) (match store e with Some js => js | None => [] end)
  /\ store (start e now armNow) = Some (jobs (start e now armNow)).
Proof.
  unfold start.
  destruct (armTimer_jobs (save (with_jobs (load e)
              (List.map (start_job now) (jobs (load e))))) armNow) as [-> ->].
  cbn. auto.
Qed.

(** X15. On a host whose local clock keeps one offset from UTC, [start]
    at a time from 0 to [Number.MAX_SAFE_INTEGER] replays nothing: after it,
    no enabled job is overdue.  An enabled job
    either has a next run at or after the start time, or has none because its
    interval or cron schedule does not resolve; a one-shot whose time has
    passed is disabled instead.  The jobs are those of the store file, in
    order, each with its id, name, schedule and payload, and a disabled job
    is loaded as stored. *)
Theorem start_leaves_no_job_overdue (off : Z) (e : CronEngine) (currentMs armNow : Z) :
  fixed_offset off ->
  0 <= currentMs <= MAX_SAFE_INTEGER ->
  Forall (fun j =>
            enabled j = true ->
            (forall t, t < currentMs -> is_due t j = false)
            /\ match nextRunAtMs (state j) with
               | Some n => currentMs <= n
               | None => is_at (schedule j) = false
               end)
         (jobs (start e currentMs armNow))
  /\ list_ (start e currentMs armNow)
     = List.map (start_job currentMs) (match store e with Some js => js | None => [] end)
  /\ (forall j, enabled j = false -> start_job currentMs j = j)
  /\ (forall j, id (start_job currentMs j) = id j
                /\ name (start_job currentMs j) = name j
                /\ schedule (start_job currentMs j) = schedule j
                /\ payload (start_job currentMs j) = payload j).
Proof.
  intros Hfix _. unfold list_. destruct (start_jobs e currentMs armNow) as [-> _].
  split; [|split; [|split]].
  - apply Forall_map, Forall_forall. intros j _ Hen.
    pose proof (@start_job_ready off currentMs j Hfix Hen) as H. split; [|exact H].
    intros t Ht. unfold is_due. rewrite Hen. cbn [andb].
    destruct (nextRunAtMs (state (start_job currentMs j))) as [n|]; [|reflexivity].
    apply Z.leb_gt. lia.
  - reflexivity.
  - intros j Hj. unfold start_job. now rewrite Hj.
  - intros j. unfold start_job. destruct (negb (enabled j)); [auto|].
    destruct (match nextRunAtMs (state j) with None => true | Some n => n <? currentMs end);
      [|auto].
    destruct (is_at (schedule j) && _); cbn; auto.
Qed.

(** *** The timer *)

Definition earlier (min : option Z) (j : CronJob) : option Z :=
  match nextRunAtMs (state j) with
  | Some n => match min with None => Some n | Some m => Some (Z.min m n) end
  | None => min
  end.

Lemma fold_earlier (js : list CronJob) : forall acc m,
  List.fold_left earlier js acc = Some m ->
  (acc = Some m \/ exists j, In j js /\ nextRunAtMs (state j) = Some m)
  /\ (forall a, acc = Some a -> m <= a)
  /\ (forall j n, In j js -> nextRunAtMs (state j) = Some n -> m <= n).
Proof.
  induction js as [|j js IH]; intros acc m H; cbn [List.fold_left] in H.
  - split; [now left|]. split; [intros a Ha; rewrite Ha in H; inversion H; lia|].
    intros j n [].
  - destruct (IH _ _ H) as (Hfrom & Hacc & Hall). unfold earlier in Hfrom, Hacc.
    destruct (nextRunAtMs (state j)) as [n|] eqn:En.
    + destruct acc as [a|].
      * specialize (Hacc _ eq_refl). split; [|split].
        -- destruct Hfrom as [Hm|(j' & Hin & Hj')].
           ++ inversion Hm as [Hmin].
              destruct (Z.min_spec a n) as [[_ Ea]|[_ Ea]].
              ** left. f_equal. lia.
              ** right. exists j. split; [now left | rewrite En; f_equal; lia].
           ++ right. exists j'. split; [now right | exact Hj'].
        -- intros a' Ha'. inversion Ha'; subst a'. lia.
        -- intros j' n' [<-|Hin] Hn'; [rewrite En in Hn'; inversion Hn'; subst; lia|].
           eapply Hall; eassumption.
      * specialize (Hacc _ eq_refl). split; [|split].
        -- right. destruct Hfrom as [Hm|(j' & Hin & Hj')].
           ++ inversion Hm; subst. exists j. split; [now left | exact En].
           ++ exists j'. split; [now right | exact Hj'].
        -- intros a' Ha'. discriminate.
        -- intros j' n' [<-|Hin] Hn'; [rewrite En in Hn'; inversion Hn'; subst; lia|].
           eapply Hall; eassumption.
    + split; [|split].
      * destruct Hfrom as [Hm|(j' & Hin & Hj')]; [now left|].
        right. exists j'. split; [now right | exact Hj'].
      * exact Hacc.
      * intros j' n' [<-|Hin] Hn'; [congruence|]. eapply Hall; eassumption.
Qed.

Lemma fold_earlier_none (js : list CronJob) :
  Forall (fun j => nextRunAtMs (state j) = None) js ->
  forall acc, List.fold_left earlier js acc = acc.
Proof.
  induction 1 as [|j js Hj _ IH]; intros acc; cbn [List.fold_left]; [reflexivity|].
  unfold earlier at 2. now rewrite Hj, IH.
Qed.

Lemma fold_earlier_some (js : list CronJob) : forall a,
  exists m, List.fold_left earlier js (Some a) = Some m.
Proof.
  induction js as [|j js IH]; intros a; cbn [List.fold_left]; [eauto|].
  unfold earlier at 2. destruct (nextRunAtMs (state j)); apply IH.
Qed.

Lemma min_next_armed (js : list CronJob) (m : Z) :
  min_next js = Some m ->
  (exists j, In j js /\ armed j = true /\ nextRunAtMs (state j) = Some m)
  /\ (forall j n, In j js -> armed j = true -> nextRunAtMs (state j) = Some n -> m <= n).
Proof.
  unfold min_next. change (fun min j => _) with earlier. intros H.
  destruct (fold_earlier _ _ H) as ([Hm|(j & Hin & Hj)] & _ & Hall); [discriminate|].
  apply filter_In in Hin. split.
  - exists j. tauto.
  - intros j' n Hin' Ha Hn. apply (Hall j' n); [|exact Hn]. apply filter_In. tauto.
Qed.

Lemma min_next_exists (js : list CronJob) (j : CronJob) :
  In j js -> armed j = true -> exists m, min_next js = Some m.
Proof.
  unfold min_next. change (fun min j => _) with earlier.
  intros Hin Ha. assert (Hf : In j (List.filter armed js)) by (apply filter_In; tauto).
  revert Hf. generalize (List.filter armed js) as l.
  assert (Hn : exists n, nextRunAtMs (state j) = Some n).
  { unfold armed in Ha. apply andb_true_iff in Ha. destruct Ha as [_ Ha].
    destruct (nextRunAtMs (state j)); [eauto | discriminate]. }
  destruct Hn as [n Hn]. intros l. generalize (@None Z) as acc.
  induction l as [|x l IH]; intros acc []; cbn [List.fold_left].
  - subst x. unfold earlier at 2. rewrite Hn. destruct acc; apply fold_earlier_some.
  - now apply IH.
Qed.

(** X16. The timer wakes the engine for its earliest job.  On a running
    engine with a job that is enabled and has a next run, [armTimer] sets a
    delay between 0 and 60 s: the time left until the earliest next run among
    the enabled jobs, never more than 60 s, and 0 when that run is overdue.
    With no such job, or on a stopped engine, it changes nothing. *)
Theorem timer_wakes_for_earliest_job (e : CronEngine) (now : Z) :
  (stopped e = true -> armTimer e now = e)
  /\ (Forall (fun j => armed j = false) (jobs e) -> armTimer e now = e)
  /\ (stopped e = false ->
      forall j, In j (jobs e) -> armed j = true ->
      exists m j0,
        In j0 (jobs e) /\ armed j0 = true /\ nextRunAtMs (state j0) = Some m
        /\ (forall j' n, In j' (jobs e) -> armed j' = true ->
              nextRunAtMs (state j') = Some n -> m <= n)
        /\ timer (armTimer e now) = Some (Z.max 0 (Z.min (m - now) 60000))
        /\ 0 <= Z.max 0 (Z.min (m - now) 60000) <= 60000).
Proof.
  split; [|split].
  - intros H. unfold armTimer. now rewrite H.
  - intros H. unfold armTimer. destruct (stopped e); [reflexivity|].
    destruct (min_next (jobs e)) as [m|] eqn:E; [|reflexivity].
    destruct (min_next_armed _ E) as [(j & Hin & Ha & _) _].
    rewrite Forall_forall in H. rewrite (H j Hin) in Ha. discriminate.
  - intros Hs j Hin Ha. destruct (min_next_exists _ _ Hin Ha) as [m E].
    destruct (min_next_armed _ E) as [(j0 & Hin0 & Ha0 & Hn0) Hmin].
    exists m, j0. repeat split; auto; try lia.
    unfold armTimer. rewrite Hs, E. reflexivity.
Qed.

(** *** Persistence *)


(** With a write that resolves, the operations with a write outcome are the
    operations of the engine. *)
Lemma saving_resolved (e : CronEngine) (i newId : string) (params : CronJobCreate)
    (patch : CronJobPatch) (now armNow : Z) (appended : bool) (tick : nat -> bool) :
  start_saving e now armNow (Ok tt) = (start e now armNow, Ok tt)
  /\ add_saving e newId params now armNow (Ok tt)
     = (fst (add e newId params now armNow), Ok (snd (add e newId params now armNow)))
  /\ update_saving e i patch now armNow (Ok tt) = update e i patch now armNow
  /\ remove_saving e i (Ok tt) = remove e i
  /\ fst (fst (runNow_saving e i now appended (Ok tt))) = fst (runNow e i now appended)
  /\ onTick_saving e now armNow tick false (Ok tt)
     = (fst (onTick e now armNow tick), snd (onTick e now armNow tick), Ok tt).
Proof.
  split; [reflexivity|]. split; [reflexivity|].
  split; [unfold update_saving, update; destruct (find (jobs e) i); reflexivity|].
  split; [unfold remove_saving, remove; destruct (find (jobs e) i); reflexivity|].
  split; [unfold runNow_saving, runNow; destruct (find (jobs e) i); reflexivity|].
  unfold onTick_saving, onTick. destruct (stopped (clearTimer e)); [reflexivity|].
  destruct (fire_due (jobs (clearTimer e)) 0 now tick) as [js fired]. reflexivity.
Qed.


Lemma find_present (js : list CronJob) (i : string) :
  In i (List.map id js) -> exists j, find js i = Some j.
Proof.
  unfold find. induction js as [|x js IH]; cbn [List.map List.find In]; [intros []|].
  destruct (String.eqb_spec (id x) i) as [E|E]; [eauto|].
  intros [H|H]; [contradiction | exact (IH H)].
Qed.

(** What the write changes: with a write that is rejected, the collection
    in memory is changed as with one that resolves, and the store file and
    the timer are left alone. *)
Lemma add_saving_spec (e : CronEngine) (newId : string) (params : CronJobCreate)
    (now armNow : Z) (w : result unit) :
  add_saving e newId params now armNow w
  = match w with
    | Ok _ => (fst (add e newId params now armNow), Ok newId)
    | Err msg => (with_jobs e (jobs e ++ [new_job newId params now]), Err msg)
    end.
Proof. unfold add_saving. destruct w; reflexivity. Qed.

Lemma update_saving_spec (e : CronEngine) (i : string) (patch : CronJobPatch)
    (now armNow : Z) (w : result unit) (j : CronJob) :
  find (jobs e) i = Some j ->
  update_saving e i patch now armNow w
  = match w with
    | Ok _ => (fst (update e i patch now armNow), Ok tt)
    | Err msg => (with_jobs e (update_first i (patch_job patch now) (jobs e)), Err msg)
    end.
Proof. intros H. unfold update_saving, update. rewrite H. destruct w; reflexivity. Qed.

Lemma update_jobs (e : CronEngine) (i : string) (patch : CronJobPatch) (now armNow : Z)
    (j : CronJob) :
  find (jobs e) i = Some j ->
  jobs (fst (update e i patch now armNow)) = update_first i (patch_job patch now) (jobs e)
  /\ snd (update e i patch now armNow) = Ok tt.
Proof.
  intros H. unfold update. rewrite H. cbn [fst snd].
  match goal with
  | |- context [armTimer ?x armNow] => destruct (armTimer_jobs x armNow) as [-> _]
  end.
  split; reflexivity.
Qed.

Lemma add_jobs (e : CronEngine) (newId : string) (params : CronJobCreate) (now armNow : Z) :
  jobs (fst (add e newId params now armNow)) = jobs e ++ [new_job newId params now].
Proof.
  unfold add. cbn [fst].
  match goal with
  | |- context [armTimer ?x armNow] => destruct (armTimer_jobs x armNow) as [-> _]
  end.
  reflexivity.
Qed.



(** *** Lookups *)

Lemma find_app_absent (js : list CronJob) (j : CronJob) (i : string) :
  find js i = None -> find (js ++ [j]) i = find [j] i.
Proof.
  unfold find. induction js as [|x js IH]; cbn [app List.find]; [reflexivity|].
  destruct (String.eqb (id x) i); [discriminate | exact IH].
Qed.

Lemma find_app_other (js : list CronJob) (j : CronJob) (i : string) :
  id j <> i -> find (js ++ [j]) i = find js i.
Proof.
  intros Hne. unfold find. induction js as [|x js IH]; cbn [app List.find].
  - destruct (String.eqb_spec (id j) i); [contradiction | reflexivity].
  - destruct (String.eqb (id x) i); [reflexivity | exact IH].
Qed.

Lemma remove_first_app (js : list CronJob) (j : CronJob) (i : string) :
  id j = i -> find js i = None -> remove_first i (js ++ [j]) = js.
Proof.
  intros Hid. unfold find. induction js as [|x js IH]; cbn [app List.find remove_first].
  - now rewrite Hid, String.eqb_refl.
  - destruct (String.eqb (id x) i); [discriminate|]. intros H. now rewrite IH.
Qed.

Lemma find_some_id (js : list CronJob) (i : string) (j : CronJob) :
  find js i = Some j -> id j = i /\ In j js.
Proof.
  unfold find. intros H. apply find_some in H. destruct H as [Hin Hid].
  apply String.eqb_eq in Hid. auto.
Qed.

Lemma find_update_first (js : list CronJob) (i : string) (f : CronJob -> CronJob)
    (j : CronJob) :
  (forall x, id (f x) = id x) ->
  find js i = Some j ->
  find (update_first i f js) i = Some (f j)
  /\ (forall i', i' <> i -> find (update_first i f js) i' = find js i')
  /\ List.map id (update_first i f js) = List.map id js.
Proof.
  intros Hid. unfold find. induction js as [|x js IH]; cbn [List.find update_first];
    [discriminate|].
  destruct (String.eqb_spec (id x) i) as [E|E].
  - intros H. injection H as Hx. rewrite Hx in *. clear Hx.
    cbn [List.find List.map]. rewrite Hid, E, String.eqb_refl.
    split; [reflexivity|]. split; [|reflexivity].
    intros i' Hi'. destruct (String.eqb_spec i i'); [congruence | reflexivity].
  - intros H. destruct (IH H) as (H1 & H2 & H3). cbn [List.find List.map].
    destruct (String.eqb_spec (id x) i); [contradiction|].
    split; [exact H1|]. split; [|now rewrite H3].
    intros i' Hi'. destruct (String.eqb (id x) i'); [reflexivity | now apply H2].
Qed.

Lemma patch_job_id (patch : CronJobPatch) (now : Z) (j : CronJob) :
  id (patch_job patch now j) = id j.
Proof. unfold patch_job. destruct (patch_schedule patch); reflexivity. Qed.

Lemma fireJob_id (j : CronJob) (now : Z) (appended : bool) :
  id (fireJob j now appended) = id j.
Proof.
  unfold fireJob. destruct (is_at (schedule j)); [reflexivity|].
  destruct (_ >? 0); reflexivity.
Qed.

(** X18. Add, get and remove round-trip in memory on an id the collection
    does not hold yet, whatever happens to the store file: [add] puts the new
    job last, [get] of that id then returns the job just built (enabled
    unless the caller said otherwise, next run resolved at the time of the
    call, no run recorded), [get] of any other id is unchanged, and removing
    the id again restores the collection.  Each call resolves ([add] with
    the id) exactly when its write resolves, and the store file then holds
    the collection; when the write is rejected the call rejects with the
    same error, the file is as it was, and [add] does not arm the timer for
    the job it has added to memory. *)
Theorem add_get_remove_round_trip (e : CronEngine) (newId : string)
    (params : CronJobCreate) (now armNow : Z) (w1 w2 : result unit) :
  ~ In newId (List.map id (jobs e)) ->
  let e1 := fst (add_saving e newId params now armNow w1) in
  let e2 := fst (remove_saving e1 newId w2) in
  snd (add_saving e newId params now armNow w1)
  = match w1 with Ok _ => Ok newId | Err msg => Err msg end
  /\ list_ e1 = jobs e ++ [new_job newId params now]
  /\ get e1 newId = Some (new_job newId params now)
  /\ (forall i, i <> newId -> get e1 i = get e i)
  /\ store e1 = match w1 with Ok _ => Some (list_ e1) | Err _ => store e end
  /\ (forall msg, w1 = Err msg -> timer e1 = timer e)
  /\ snd (remove_saving e1 newId w2) = settlement_of w2
  /\ list_ e2 = jobs e
  /\ get e2 newId = None
  /\ store e2 = match w2 with Ok _ => Some (jobs e) | Err _ => store e1 end.
Proof.
  intros Hfresh. apply find_absent in Hfresh. cbv zeta. unfold list_, get.
  assert (Hget : find (jobs e ++ [new_job newId params now]) newId
                 = Some (new_job newId params now)).
  { rewrite (@find_app_absent _ _ _ Hfresh). unfold find. cbn. now rewrite String.eqb_refl. }
  assert (Hj : jobs (fst (add_saving e newId params now armNow w1))
               = jobs e ++ [new_job newId params now]).
  { unfold add_saving. destruct w1 as [u|msg]; cbn [save_settled fst]; [|reflexivity].
    match goal with
    | |- context [armTimer ?x armNow] => destruct (armTimer_jobs x armNow) as [-> _]
    end.
    reflexivity. }
  assert (Hs : store (fst (add_saving e newId params now armNow w1))
               = match w1 with
                 | Ok _ => Some (jobs e ++ [new_job newId params now])
                 | Err _ => store e
                 end).
  { unfold add_saving. destruct w1 as [u|msg]; cbn [save_settled fst]; [|reflexivity].
    match goal with
    | |- context [armTimer ?x armNow] => destruct (armTimer_jobs x armNow) as [_ ->]
    end.
    reflexivity. }
  split; [unfold add_saving; destruct w1; reflexivity|].
  split; [exact Hj|]. rewrite Hj. split; [exact Hget|]. split.
  { intros i Hi. apply find_app_other. cbn. congruence. }
  split; [rewrite Hs; reflexivity|].
  split; [intros msg ->; reflexivity|].
  unfold remove_saving. rewrite Hj, Hget.
  rewrite (@remove_first_app (jobs e) (new_job newId params now) newId eq_refl Hfresh).
  destruct w2 as [[]|msg]; cbn [save_settled fst snd settlement_of save with_jobs jobs store];
    repeat split; auto.
Qed.

(** X19. [update] changes one job and nothing else: for an id the
    collection holds, the first job with that id gets the fields the patch
    provides and keeps its id, its creation time and its run history; a
    patch without a schedule also keeps its next run and error count, a
    patch with one resolves the next run from the new schedule at the time of
    the call and clears the error count.  Every other id looks up as
    before, and the collection keeps its ids and their order. *)
Theorem update_changes_only_its_target (e : CronEngine) (i : string)
    (patch : CronJobPatch) (now armNow : Z) (j : CronJob) :
  get e i = Some j ->
  let e' := fst (update e i patch now armNow) in
  let j' := patch_job patch now j in
  snd (update e i patch now armNow) = Ok tt
  /\ get e' i = Some j'
  /\ (forall i', i' <> i -> get e' i' = get e i')
  /\ List.map id (list_ e') = List.map id (list_ e)
  /\ store e' = Some (list_ e')
  /\ id j' = id j /\ createdAt j' = createdAt j
  /\ lastRunAtMs (state j') = lastRunAtMs (state j)
  /\ lastStatus (state j') = lastStatus (state j)
  /\ match patch_schedule patch with
     | None => schedule j' = schedule j /\ state j' = state j
     | Some s =>
         schedule j' = s
         /\ nextRunAtMs (state j') = computeNextRun s now
         /\ consecutiveErrors (state j') = 0
     end.
Proof.
  unfold get, list_. intros Hfind. cbv zeta. unfold update. rewrite Hfind. cbn [fst snd].
  match goal with
  | |- context [armTimer ?x armNow] => destruct (armTimer_jobs x armNow) as [-> ->]
  end.
  cbn [clearTimer with_timer save with_jobs jobs store].
  destruct (@find_update_first (jobs e) i (patch_job patch now) j
              (patch_job_id patch now) Hfind) as (H1 & H2 & H3).
  split; [reflexivity|]. split; [exact H1|]. split; [exact H2|]. split; [exact H3|].
  split; [reflexivity|].
  unfold patch_job. destruct (patch_schedule patch); cbn; repeat split; reflexivity.
Qed.

(** X20. [runNow] fires the job whatever its state: for an id the
    collection holds, the first job with that id is fired at the time of
    the call even when it is disabled or not yet due, its [cron.fire] event
    carries its id, name and payload, and every other id looks up as before.
    The fire replaces the job's next run: a one-shot is disabled with no next
    run, any other job is rescheduled from the time of the call (after a
    successful append, to what its schedule resolves to at that time). *)
Theorem runNow_fires_and_reschedules (e : CronEngine) (i : string) (now : Z)
    (appended : bool) (j : CronJob) :
  get e i = Some j ->
  let e' := fst (runNow e i now appended) in
  let j' := fireJob j now appended in
  snd (runNow e i now appended)
  = Ok (if appended
        then Some {| jobId := i; jobName := name j; firePayload := payload j |}
        else None)
  /\ get e' i = Some j'
  /\ (forall i', i' <> i -> get e' i' = get e i')
  /\ store e' = Some (list_ e')
  /\ lastRunAtMs (state j') = Some now
  /\ (is_at (schedule j) = true -> enabled j' = false /\ nextRunAtMs (state j') = None)
  /\ (is_at (schedule j) = false -> appended = true ->
      enabled j' = enabled j
      /\ nextRunAtMs (state j') = computeNextRun (schedule j) now).
Proof.
  unfold get, list_. intros Hfind. cbv zeta. unfold runNow. rewrite Hfind. cbn [fst snd].
  destruct (@find_some_id _ _ _ Hfind) as [Hid _].
  destruct (@find_update_first (jobs e) i (fun x => fireJob x now appended) j
              (fun x => fireJob_id x now appended) Hfind) as (H1 & H2 & _).
  cbn [save with_jobs jobs store].
  split; [unfold fire_payload; now rewrite Hid|]. split; [exact H1|]. split; [exact H2|].
  split; [reflexivity|]. unfold fireJob.
  destruct (is_at (schedule j)) eqn:Eat.
  - cbn. repeat split; auto; discriminate.
  - destruct appended; cbn; repeat split; auto; try discriminate.
    destruct (_ >? 0); reflexivity.
Qed.

(** *** Stop *)

(** The engine is stopped and holds no timer. *)
Definition halted (e : CronEngine) : Prop := stopped e = true /\ timer e = None.

Lemma armTimer_halted (e : CronEngine) (now : Z) : halted e -> armTimer e now = e.
Proof. intros [Hs _]. unfold armTimer. now rewrite Hs. Qed.

(** X21. [stop] is permanent.  It clears the timer and sets a flag that no
    function of the engine resets: on a stopped engine [start], [add],
    [update], [remove] and [runNow] still change and save the jobs, but none
    of them arms the timer again, and a tick that was already under way fires
    nothing and changes nothing.  Only [runNow] still fires a job. *)
Theorem stop_is_permanent (e : CronEngine) (i newId : string) (params : CronJobCreate)
    (patch : CronJobPatch) (now armNow : Z) (appended : bool) (tick : nat -> bool) :
  halted (stop e)
  /\ (halted e ->
      halted (start e now armNow)
      /\ halted (fst (add e newId params now armNow))
      /\ halted (fst (update e i patch now armNow))
      /\ halted (fst (remove e i))
      /\ halted (fst (runNow e i now appended))
      /\ onTick e now armNow tick = (e, [])
      /\ (forall j, get e i = Some j ->
            snd (runNow e i now true) = Ok (Some (fire_payload j)))).
Proof.
  split; [split; reflexivity|]. intros H.
  assert (Hsave : forall js, halted (save (with_jobs e js))).
  { intros js. destruct H as [Hs Ht]. split; cbn; assumption. }
  assert (Hclear : forall js, halted (clearTimer (save (with_jobs e js)))).
  { intros js. destruct H as [Hs Ht]. split; cbn; [assumption | reflexivity]. }
  split; [|split; [|split; [|split; [|split; [|split]]]]].
  - unfold start. rewrite armTimer_halted.
    + destruct H as [Hs Ht]. split; cbn; assumption.
    + destruct H as [Hs Ht]. split; cbn; assumption.
  - unfold add. cbn [fst]. rewrite armTimer_halted; apply Hclear.
  - unfold update. destruct (find (jobs e) i); cbn [fst]; [|exact H].
    rewrite armTimer_halted; apply Hclear.
  - unfold remove. destruct (find (jobs e) i); cbn [fst]; [apply Hsave | exact H].
  - unfold runNow. destruct (find (jobs e) i); cbn [fst]; [apply Hsave | exact H].
  - destruct H as [Hs Ht]. unfold onTick. cbn [clearTimer with_timer stopped].
    rewrite Hs. destruct e as [js t s st]. cbn in *. subst. reflexivity.
  - intros j Hj. unfold get in Hj. unfold runNow. rewrite Hj. reflexivity.
Qed.

End Engine.

(** *** [Number] on a text, for the instances

    [StringToNumber] of ECMA-262 on texts of code units below 256, with the
    result as the scan uses it: [None] for [NaN]; the integer itself for a
    text whose value is an integer; and for any other number the integer
    from 0 to 59 that the nearest double equals, if there is one, and -1
    otherwise (a number that no component of a date equals). *)

(** The longest prefix of code units in [f], and the rest. *)
Fixpoint span (f : ascii -> bool) (s : string) : string * string :=
  match s with
  | EmptyString => (EmptyString, EmptyString)
  | String c s' =>
      if f c then let '(a, b) := span f s' in (String c a, b) else (EmptyString, s)
  end.

Definition is_binary_digit (c : ascii) : bool :=
  let n := nat_of_ascii c in ((48 <=? n) && (n <=? 49))%nat.

Definition is_octal_digit (c : ascii) : bool :=
  let n := nat_of_ascii c in ((48 <=? n) && (n <=? 55))%nat.

Definition is_hex_digit (c : ascii) : bool :=
  let n := nat_of_ascii c in
  JS.is_digit c || ((97 <=? n) && (n <=? 102))%nat || ((65 <=? n) && (n <=? 70))%nat.

Definition hex_digit_value (c : ascii) : Z :=
  let n := Z.of_nat (nat_of_ascii c) in
  if JS.is_digit c then n - 48 else if 97 <=? n then n - 87 else n - 55.

Fixpoint radix_acc (radix acc : Z) (s : string) : Z :=
  match s with
  | EmptyString => acc
  | String c s' => radix_acc radix (acc * radix + hex_digit_value c) s'
  end.

(** [0x], [0o] and [0b] literals (no sign). *)
Definition nondecimal (s : string) : option Z :=
  match s with
  | String zero (String p ds) =>
      let literal (digit : ascii -> bool) (radix : Z) :=
        if negb (JS.is_empty ds) && all_units digit ds
        then Some (radix_acc radix 0 ds) else None in
      if negb (Ascii.eqb zero "0") then None
      else if Ascii.eqb p "x" || Ascii.eqb p "X" then literal is_hex_digit 16
      else if Ascii.eqb p "o" || Ascii.eqb p "O" then literal is_octal_digit 8
      else if Ascii.eqb p "b" || Ascii.eqb p "B" then literal is_binary_digit 2
      else None
  | _ => None
  end.

(** A leading sign: whether it is [-], and the rest. *)
Definition signed (s : string) : bool * string :=
  match s with
  | String c s' =>
      if Ascii.eqb c "-" then (true, s') else if Ascii.eqb c "+" then (false, s') else (false, s)
  | EmptyString => (false, s)
  end.

(** The exponent part behind the digits [ds] of a decimal literal whose
    value so far is [ds] times ten to the [x]: the digits as a number, and
    the final power of ten. *)
Definition exponent (ds : string) (x : Z) (s : string) : option (Z * Z) :=
  match s with
  | EmptyString => Some (Number_digits ds, x)
  | String c s' =>
      if Ascii.eqb c "e" || Ascii.eqb c "E" then
        let '(neg, s'') := signed s' in
        let '(es, behind) := span JS.is_digit s'' in
        if JS.is_empty es || negb (JS.is_empty behind) then None
        else Some (Number_digits ds, if neg then x - Number_digits es else x + Number_digits es)
      else None
  end.

(** An unsigned decimal literal: digits, an optional fraction, an optional
    exponent; [m] and [x] with the value [m] times ten to the [x]. *)
Definition decimal (s : string) : option (Z * Z) :=
  let '(ip, s1) := span JS.is_digit s in
  match s1 with
  | String c s2 =>
      if Ascii.eqb c "." then
        let '(fp, s3) := span JS.is_digit s2 in
        if JS.is_empty ip && JS.is_empty fp then None
        else exponent (ip ++ fp) (- Z.of_nat (String.length fp)) s3
      else if JS.is_empty ip then None else exponent ip 0 s1
  | EmptyString => if JS.is_empty ip then None else exponent ip 0 s1
  end.

(** Whether the double nearest to the positive number [m / d], which is not
    an integer, is the integer [k] from 0 to 59.  The doubles next to [k] are
    half a unit in the last place away, a quarter below a power of two, and
    a tie goes to [k], whose significand is even; below the smallest double
    a number rounds to zero. *)
Definition rounds_to (m d k : Z) : bool :=
  if k =? 0 then m * 2 ^ 1075 <=? d
  else
    let e := Z.log2 k in
    if k * d <=? m then (m - k * d) * 2 ^ (53 - e) <=? d
    else (k * d - m) * 2 ^ (if k =? 2 ^ e then 54 - e else 53 - e) <=? d.

(** The value [m] times ten to the [x], negated when [neg] holds. *)
Definition number_value (neg : bool) (m x : Z) : Z :=
  if m =? 0 then 0
  else if 0 <=? x then (if neg then - (m * 10 ^ x) else m * 10 ^ x)
  else
    let d := 10 ^ (- x) in
    if m mod d =? 0 then (if neg then - (m / d) else m / d)
    else if neg then (if rounds_to m d 0 then 0 else -1)
    else
      let k := (2 * m + d) / (2 * d) in
      if (k <=? 59) && rounds_to m d k then k else -1.

Definition Number_text (text : string) : option Z :=
  let s := JS.trim text in
  if JS.is_empty s then Some 0
  else
    match nondecimal s with
    | Some v => Some v
    | None =>
        let '(neg, u) := signed s in
        if String.eqb u "Infinity" then Some (-1)
        else match decimal u with
             | Some (m, x) => Some (number_value neg m x)
             | None => None
             end
    end.

Example Number_text_examples :
  List.map Number_text
    ["5"; "05"; "+5"; "-5"; "0x10"; "0X1f"; "0o17"; "0b101"; "1e1"; "5.0"; "5."; ".5e1";
     "50e-1"; ""; " 7 "; "-0"; "9.9999999999999999999999"; "1e-400"]
  = [Some 5; Some 5; Some 5; Some (-5); Some 16; Some 31; Some 15; Some 5; Some 10; Some 5;
     Some 5; Some 5; Some 5; Some 0; Some 7; Some 0; Some 10; Some 0]
  /\ List.map Number_text ["5.5"; "0.1"; "-0.5"; "Infinity"; "-Infinity"; "9.99999999999999"]
     = [Some (-1); Some (-1); Some (-1); Some (-1); Some (-1); Some (-1)]
  /\ List.map Number_text
       ["abc"; "*/x"; "1-"; "0x"; "-0x10"; "1e"; "e1"; "."; "+"; "1_0"; "infinity"; "1 2";
        "5.5.5"; "0b12"]
     = [None; None; None; None; None; None; None; None; None; None; None; None; None; None].
Proof. vm_compute. repeat split; reflexivity. Qed.

(** *** A platform instance: UTC wall clock, one known date *)

(** Civil date of a day count since 1970-01-01 (proleptic Gregorian). *)
Definition civil (days : Z) : Z * Z * Z :=
  let z := days + 719468 in
  let era := z / 146097 in
  let doe := z - era * 146097 in
  let yoe := (doe - doe / 1460 + doe / 36524 - doe / 146096) / 365 in
  let doy := doe - (365 * yoe + yoe / 4 - yoe / 100) in
  let mp := (5 * doy + 2) / 153 in
  let d := doy - (153 * mp + 2) / 5 + 1 in
  let m := if mp <? 10 then mp + 3 else mp - 9 in
  (yoe + era * 400 + (if m <=? 2 then 1 else 0), m, d).

Definition DAY_MS : Z := 86400000.

Definition utc : Platform :=
  {| Number_ := Number_text;
     Date_getTime := fun text =>
       if String.eqb text "2025-06-01T10:00:00Z" then Some 1748772000000 else None;
     LocalTime := fun t => t;
     UTC := fun t => t;
     month_of := fun t => snd (fst (civil (t / DAY_MS)));
     dom_of := fun t => snd (civil (t / DAY_MS));
     dow_of := fun t => (t / DAY_MS + 4) mod 7;
     hour_of := fun t => (t / 3600000) mod 24;
     minute_of := fun t => (t / MINUTE_MS) mod 60 |}.

(** A one-shot added after its (valid) timestamp. *)
Definition expired : CronJobCreate :=
  {| create_name := "expired"; create_schedule := At "2025-06-01T10:00:00Z";
     create_payload := "x"; create_enabled := None |}.

Definition with_expired : CronEngine :=
  fst (add utc (createCronEngine None) "a1b2c3d4" expired 1748772010000 1748772010000).

Definition hourly : CronJob :=
  new_job utc "0f1e2d3c"
    {| create_name := "check"; create_schedule := Every "1h"; create_payload := "run";
       create_enabled := None |} 1000000.

(** Six failed fires in a row, each at the time the previous one scheduled:
    the delays climb the table and stay at its last entry. *)
Fixpoint failed_fires (n : nat) (job : CronJob) (now : Z) : list Z :=
  match n with
  | O => []
  | S n' =>
      let job' := fireJob utc job now false in
      match nextRunAtMs (state job') with
      | Some next => (next - now) :: failed_fires n' job' next
      | None => []
      end
  end.

Definition once : CronJobCreate :=
  {| create_name := "once"; create_schedule := At "2025-06-01T10:00:00Z";
     create_payload := "one-time"; create_enabled := None |}.

(** The helpers on the inputs of the test suite. *)

Example parseDuration_examples :
  parseDuration "2h" = Some (2 * 3600000) /\ parseDuration "30m" = Some (30 * 60000)
  /\ parseDuration "45s" = Some 45000 /\ parseDuration "1h30m" = Some 5400000
  /\ parseDuration "" = None /\ parseDuration "abc" = None /\ parseDuration "0h0m" = None.
Proof. vm_compute. repeat split; reflexivity. Qed.

Example nextCronFire_hourly :
  nextCronFire utc "0 * * * *" 1748772000000 = Some 1748775600000.
Proof. vm_compute. reflexivity. Qed.

Example nextCronFire_step :
  nextCronFire utc "*/15 * * * *" 1748772000000 = Some 1748772900000.
Proof. vm_compute. reflexivity. Qed.

Example nextCronFire_weekday :
  nextCronFire utc "0 9 * * 1" 1748736000000 = Some 1748854800000.
Proof. vm_compute. reflexivity. Qed.

Example nextCronFire_invalid : nextCronFire utc "bad expr" 1748772000000 = None.
Proof. vm_compute. reflexivity. Qed.

Example computeNextRun_examples :
  computeNextRun utc (Every "1h") 1000000 = Some (1000000 + 3600000)
  /\ computeNextRun utc (At "2025-06-01T10:00:00Z") 1748771940000 = Some 1748772000000
  /\ computeNextRun utc (At "2025-06-01T10:00:00Z") 1748772060000 = None.
Proof. vm_compute. repeat split; reflexivity. Qed.

Lemma with_expired_reachable : reachable utc with_expired.
Proof. unfold with_expired. apply reach_add. apply reach_create. Defined.

Lemma with_expired_holds :
  In (new_job utc "a1b2c3d4" expired 1748772010000) (jobs with_expired).
Proof. left. reflexivity. Defined.

Lemma past_one_shot_is_null_unspent :
  ~ (forall e j, reachable utc e -> In j (jobs e) ->
       (nextRunAtMs (state j) = None
        <-> spent_one_shot j \/ unparseable utc (schedule j))).
Proof.
  intros H.
  destruct (H _ _ with_expired_reachable with_expired_holds) as [Hnull _].
  destruct (Hnull eq_refl) as [[_ Hfired] | Hbad].
  - apply Hfired. reflexivity.
  - discriminate Hbad.
Qed.

Lemma null_next_run_invariant_witness :
  reachable utc with_expired
  /\ In (new_job utc "a1b2c3d4" expired 1748772010000) (jobs with_expired)
  /\ exists o, held utc (new_job utc "a1b2c3d4" expired 1748772010000) o
       /\ (nextRunAtMs (state (new_job utc "a1b2c3d4" expired 1748772010000)) = None
           <-> o = Spent
               \/ exists t, o = Resolved t
                    /\ resolves_to_null utc
                         (schedule (new_job utc "a1b2c3d4" expired 1748772010000)) t)
       /\ (o = Spent -> spent_one_shot (new_job utc "a1b2c3d4" expired 1748772010000)).
Proof.
  split; [exact with_expired_reachable|]. split; [exact with_expired_holds|].
  exact (@null_next_run_invariant utc with_expired _ with_expired_reachable with_expired_holds).
Defined.

Example backoff_escalation :
  failed_fires 7 hourly 2000000
  = [30000; 60000; 300000; 900000; 3600000; 3600000; 3600000].
Proof. vm_compute. reflexivity. Qed.

(** [runNow] on a one-shot fires it once and leaves it disabled with a null
    next run. *)
Example one_shot_disables_after_runNow :
  let e1 := fst (add utc (createCronEngine None) "0a0b0c0d" once 1748771000000 1748771000000) in
  let e2 := fst (runNow utc e1 "0a0b0c0d" 1748771000000 true) in
  List.map (fun j => (enabled j, nextRunAtMs (state j))) (jobs e1)
  = [(true, Some 1748772000000)]
  /\ List.map (fun j => (enabled j, nextRunAtMs (state j))) (jobs e2) = [(false, None)]
  /\ snd (runNow utc e1 "0a0b0c0d" 1748771000000 true)
     = Ok (Some {| jobId := "0a0b0c0d"; jobName := "once"; firePayload := "one-time" |}).
Proof. vm_compute. repeat split; reflexivity. Qed.

Lemma failed_fire_backs_off_witness :
  is_at (schedule hourly) = false
  /\ consecutiveErrors (state (fireJob utc hourly 2000000 false)) > 0
  /\ nextRunAtMs (state (fireJob utc hourly 2000000 false)) = Some (2000000 + 30000).
Proof.
  assert (H1 : is_at (schedule hourly) = false) by reflexivity.
  assert (H2 : consecutiveErrors (state (fireJob utc hourly 2000000 false)) > 0)
    by reflexivity.
  split; [exact H1|]. split; [exact H2|].
  exact (proj1 (@failed_fire_backs_off utc hourly 2000000 false H1 H2)).
Defined.

Lemma unknown_id_fails_not_found_witness :
  ~ In "nope" (List.map id (jobs with_expired))
  /\ remove with_expired "nope" = (with_expired, Err "cron job not found: nope").
Proof.
  assert (H : ~ In "nope" (List.map id (jobs with_expired))).
  { intros [E | []]. discriminate E. }
  split; [exact H|].
  exact (proj1 (proj2 (@unknown_id_fails_not_found utc with_expired "nope"
                         {| patch_name := Some "x"; patch_schedule := None;
                            patch_payload := None; patch_enabled := None |}
                         0 0 true H))).
Defined.

(** The further statements on the instance. *)

Definition every_hour : CronJobCreate :=
  {| create_name := "check"; create_schedule := Every "1h"; create_payload := "run";
     create_enabled := None |}.

(** An engine holding one hourly job, added at time 1000000. *)
Definition with_hourly : CronEngine :=
  fst (add utc (createCronEngine None) "0f1e2d3c" every_hour 1000000 1000000).

Lemma with_hourly_reachable : reachable utc with_hourly.
Proof. unfold with_hourly. apply reach_add. apply reach_create. Defined.

Lemma with_hourly_get : get with_hourly "0f1e2d3c" = Some hourly.
Proof. reflexivity. Defined.

(** The clock of the instance is UTC itself. *)
Lemma utc_fixed_offset : fixed_offset utc 0.
Proof. intros t. cbn [utc LocalTime UTC]. split; [apply Zplus_0_r_reverse | apply Zminus_0_l_reverse]. Defined.

Lemma parseDuration_is_positive_witness :
  parseDuration "1h30m" = Some 5400000 /\ 5400000 <= MAX_SAFE_INTEGER
  /\ 0 < 5400000 /\ 5400000 mod 1000 = 0.
Proof.
  assert (H : parseDuration "1h30m" = Some 5400000) by (vm_compute; reflexivity).
  assert (H2 : 5400000 <= MAX_SAFE_INTEGER) by (intros C; discriminate C).
  split; [exact H|]. split; [exact H2|].
  pose proof (@parseDuration_is_positive utc "1h30m" 5400000 H H2) as H3.
  split; [exact (proj1 H3) | exact (proj1 (proj2 H3))].
Defined.

Lemma nextCronFire_is_first_matching_minute_witness :
  fixed_offset utc 0
  /\ 0 <= 1748772000000 /\ 1748772000000 + 366 * 24 * 60 * 60 * 1000 <= MAX_TIME
  /\ nextCronFire utc "0 * * * *" 1748772000000 = Some 1748775600000
  /\ (forall t, 1748772000000 < t < 1748775600000 -> LocalTime utc t mod MINUTE_MS = 0 ->
        matches utc [0] (range_step 0 59 1) (range_step 0 59 1)
                (range_step 0 59 1) (range_step 0 59 1) t = false).
Proof.
  assert (Hf : cron_fields utc "0 * * * *"
               = Some ([0], range_step 0 59 1, range_step 0 59 1,
                       range_step 0 59 1, range_step 0 59 1))
    by (vm_compute; reflexivity).
  assert (H1 : 0 <= 1748772000000) by (intros C; discriminate C).
  assert (H2 : 1748772000000 + 366 * 24 * 60 * 60 * 1000 <= MAX_TIME)
    by (intros C; discriminate C).
  split; [exact utc_fixed_offset|]. split; [exact H1|]. split; [exact H2|].
  split; [exact nextCronFire_hourly|].
  pose proof (@nextCronFire_is_first_matching_minute utc 0 "0 * * * *" 1748772000000
                utc_fixed_offset H1 H2) as H.
  rewrite Hf, nextCronFire_hourly in H. exact (proj2 (proj2 (proj2 H))).
Defined.

Lemma next_run_is_later_witness :
  fixed_offset utc 0 /\ 0 <= 1000000 /\ 4600000 <= MAX_SAFE_INTEGER
  /\ computeNextRun utc (Every "1h") 1000000 = Some 4600000 /\ 1000000 < 4600000.
Proof.
  assert (H : computeNextRun utc (Every "1h") 1000000 = Some 4600000)
    by (vm_compute; reflexivity).
  assert (H1 : 0 <= 1000000) by (intros C; discriminate C).
  assert (H2 : 4600000 <= MAX_SAFE_INTEGER) by (intros C; discriminate C).
  split; [exact utc_fixed_offset|]. split; [exact H1|]. split; [exact H2|].
  split; [exact H|].
  exact (proj1 (@next_run_is_later utc 0 (Every "1h") 1000000 4600000
                  utc_fixed_offset H1 H2 H)).
Defined.

Lemma safe_time : 0 <= 5000000 <= MAX_SAFE_INTEGER.
Proof. split; intros C; discriminate C. Defined.

Lemma tick_leaves_no_job_due_witness :
  fixed_offset utc 0
  /\ 0 <= 5000000 <= MAX_SAFE_INTEGER
  /\ stopped with_hourly = false
  /\ Forall (fun j => is_due 5000000 j = false)
            (jobs (fst (onTick utc with_hourly 5000000 5000000 (fun _ => true)))).
Proof.
  split; [exact utc_fixed_offset|]. split; [exact safe_time|]. split; [reflexivity|].
  exact (@tick_leaves_no_job_due utc 0 with_hourly 5000000 5000000 (fun _ => true)
           utc_fixed_offset safe_time eq_refl).
Defined.

Lemma start_leaves_no_job_overdue_witness :
  fixed_offset utc 0
  /\ 0 <= 5000000 <= MAX_SAFE_INTEGER
  /\ list_ (start utc (createCronEngine (store with_hourly)) 5000000 5000000)
     = List.map (start_job utc 5000000) (jobs with_hourly).
Proof.
  split; [exact utc_fixed_offset|]. split; [exact safe_time|].
  exact (proj1 (proj2 (@start_leaves_no_job_overdue utc 0
                         (createCronEngine (store with_hourly)) 5000000 5000000
                         utc_fixed_offset safe_time))).
Defined.

Lemma tick_fires_exactly_the_due_jobs_witness :
  stopped with_hourly = false
  /\ List.length (jobs (fst (onTick utc with_hourly 5000000 5000000 (fun _ => true))))
     = List.length (jobs with_hourly).
Proof.
  split; [reflexivity|].
  exact (proj1 (@tick_fires_exactly_the_due_jobs utc with_hourly 5000000 5000000
                  (fun _ => true) eq_refl)).
Defined.

(** The tick of the instance fires the hourly job and moves it one hour on. *)
Example tick_fires_hourly :
  onTick utc with_hourly 5000000 5000000 (fun _ => true)
  = ({| jobs := [fireJob utc hourly 5000000 true]; timer := Some 60000; stopped := false;
        store := Some [fireJob utc hourly 5000000 true] |},
     [{| jobId := "0f1e2d3c"; jobName := "check"; firePayload := "run" |}])
  /\ nextRunAtMs (state (fireJob utc hourly 5000000 true)) = Some 8600000.
Proof. vm_compute. split; reflexivity. Qed.

(** An [add] whose write is rejected, on an engine without a store file:
    the job is in memory, the call rejects, there is still no file, and a
    restart starts without the job. *)
Example rejected_add_is_lost_at_restart :
  let '(e1, r) :=
    add_saving utc (createCronEngine None) "0f1e2d3c" every_hour 1000000 1000000
               (Err "ENOSPC: no space left on device") in
  r = Err "ENOSPC: no space left on device"
  /\ list_ e1 = [hourly]
  /\ store e1 = None /\ timer e1 = None
  /\ list_ (fst (start_saving utc (createCronEngine (store e1)) 2000000 2000000 (Ok tt))) = [].
Proof. vm_compute. repeat split; reflexivity. Qed.

Lemma add_get_remove_round_trip_witness :
  ~ In "0f1e2d3c" (List.map id (jobs (createCronEngine None)))
  /\ get (fst (add_saving utc (createCronEngine None) "0f1e2d3c" every_hour 1000000 1000000
                          (Err "ENOSPC: no space left on device"))) "0f1e2d3c"
     = Some hourly.
Proof.
  assert (H : ~ In "0f1e2d3c" (List.map id (jobs (createCronEngine None))))
    by (intros []).
  split; [exact H|].
  exact (proj1 (proj2 (proj2 (@add_get_remove_round_trip utc (createCronEngine None)
           "0f1e2d3c" every_hour 1000000 1000000
           (Err "ENOSPC: no space left on device") (Ok tt) H)))).
Defined.

Definition renamed_off : CronJobPatch :=
  {| patch_name := Some "renamed"; patch_schedule := None; patch_payload := None;
     patch_enabled := Some false |}.

Lemma update_changes_only_its_target_witness :
  get with_hourly "0f1e2d3c" = Some hourly
  /\ get (fst (update utc with_hourly "0f1e2d3c" renamed_off 2000000 2000000)) "0f1e2d3c"
     = Some (patch_job utc renamed_off 2000000 hourly).
Proof.
  split; [exact with_hourly_get|].
  exact (proj1 (proj2 (@update_changes_only_its_target utc with_hourly "0f1e2d3c" renamed_off
                         2000000 2000000 hourly with_hourly_get))).
Defined.

Lemma runNow_fires_and_reschedules_witness :
  get with_hourly "0f1e2d3c" = Some hourly
  /\ get (fst (runNow utc with_hourly "0f1e2d3c" 2000000 true)) "0f1e2d3c"
     = Some (fireJob utc hourly 2000000 true).
Proof.
  split; [exact with_hourly_get|].
  exact (proj1 (proj2 (@runNow_fires_and_reschedules utc with_hourly "0f1e2d3c" 2000000 true
                         hourly with_hourly_get))).
Defined.

(** A manual run of the hourly job, 1000 s after it was added, moves its
    next run from one hour after the creation to one hour after the run. *)
Example runNow_moves_next_run :
  nextRunAtMs (state hourly) = Some 4600000
  /\ List.map (fun j => nextRunAtMs (state j))
       (jobs (fst (runNow utc with_hourly "0f1e2d3c" 2000000 true)))
     = [Some 5600000].
Proof. vm_compute. split; reflexivity. Qed.

(** *** A host with daylight saving

    Central European Time in 2025: two hours ahead of UTC from 30 March,
    01:00 UTC, to 26 October, 01:00 UTC, and one hour ahead otherwise.  A
    local time that the clock skips is read with the offset before the
    change, and a local time that the clock repeats is its first
    occurrence. *)

Definition CEST_FROM : Z := 1743296400000.
Definition CEST_UNTIL : Z := 1761440400000.
Definition HOUR_MS : Z := 3600000.

Definition cet_local (t : Z) : Z :=
  if (CEST_FROM <=? t) && (t <? CEST_UNTIL) then t + 2 * HOUR_MS else t + HOUR_MS.

Definition cet : Platform :=
  {| Number_ := Number_ utc;
     Date_getTime := Date_getTime utc;
     LocalTime := cet_local;
     UTC := fun lt =>
       if lt <? CEST_FROM + 2 * HOUR_MS then lt - HOUR_MS
       else if lt <? CEST_UNTIL + 2 * HOUR_MS then lt - 2 * HOUR_MS
       else lt - HOUR_MS;
     month_of := fun t => month_of utc (cet_local t);
     dom_of := fun t => dom_of utc (cet_local t);
     dow_of := fun t => dow_of utc (cet_local t);
     hour_of := fun t => hour_of utc (cet_local t);
     minute_of := fun t => minute_of utc (cet_local t) |}.

Definition every_minute : CronJob :=
  new_job cet "5e6f7a8b"
    {| create_name := "pulse"; create_schedule := CronExpr "* * * * *";
       create_payload := "tick"; create_enabled := None |} 1761436800000.

(** At 02:30 local time in the repeated hour (01:30 UTC on 26 October), the
    scan starts in the first occurrence of that hour: an expression that
    matches every minute resolves to 02:31 of the first occurrence, 59 minutes
    before [afterMs], and a job that is fired then is due again at once. *)
Example nextCronFire_in_repeated_hour :
  nextCronFire cet "* * * * *" 1761442200000 = Some 1761438660000
  /\ 1761438660000 < 1761442200000
  /\ is_due 1761442200000 (fireJob cet every_minute 1761442200000 true) = true.
Proof. vm_compute. repeat split; reflexivity. Qed.

(** Outside the repeated hour the same host resolves to the next minute. *)
Example nextCronFire_cet_summer :
  nextCronFire cet "* * * * *" 1748772010000 = Some 1748772060000.
Proof. vm_compute. reflexivity. Qed.

End Cron.

(** ** Heartbeat: the cron job and the subscription
    ([ensureJobAndListener], [start], [stop], [setEnabled], [isEnabled] of
    [src/task/heartbeat/heartbeat.ts]) *)

Module HeartbeatJob.

Import HeartbeatParse.

Section Lifecycle.

Variable P : Cron.Platform.
Variable config : HeartbeatConfig.

(** The variables of the [createHeartbeat] closure that the lifecycle
    functions use; [unsubscribe] tells whether it holds an unsubscribe
    function. *)
Record closure : Type := mkClosure {
  unsubscribe : bool;
  jobId : option string;
  enabled_ : bool
}.

Definition createHeartbeat : closure :=
  {| unsubscribe := false; jobId := None; enabled_ := enabled config |}.

Definition is_heartbeat (j : Cron.CronJob) : bool :=
  String.eqb (Cron.name j) HEARTBEAT_JOB_NAME.

(** The argument of [cronEngine.update] and of [cronEngine.add]. *)
Definition job_patch (h : closure) : Cron.CronJobPatch :=
  {| Cron.patch_name := None;
     Cron.patch_schedule := Some (Cron.Every (every config));
     Cron.patch_payload := Some (prompt config);
     Cron.patch_enabled := Some (enabled_ h) |}.

Definition job_create (h : closure) : Cron.CronJobCreate :=
  {| Cron.create_name := HEARTBEAT_JOB_NAME;
     Cron.create_schedule := Cron.Every (every config);
     Cron.create_payload := prompt config;
     Cron.create_enabled := Some (enabled_ h) |}.

(** What a lifecycle call did besides changing the closure and the engine:
    whether it called [eventLog.subscribeType('cron.fire', ...)], and how its
    promise settled. *)
Record effect : Type := mkEffect {
  subscribed : bool;
  settlement : result unit
}.

(** [ensureJobAndListener()] when the write of the engine resolves; [newId]
    is the id [add] would draw, [now] and [armNow] are the clock readings of
    the engine call. *)
Definition ensureJobAndListener (h : closure) (e : Cron.CronEngine) (newId : string)
    (now armNow : Z) : closure * Cron.CronEngine * effect :=
  match List.find is_heartbeat (Cron.list_ e) with
  | Some existing =>
      let h1 := {| unsubscribe := unsubscribe h; jobId := Some (Cron.id existing);
                   enabled_ := enabled_ h |} in
      match Cron.update P e (Cron.id existing) (job_patch h) now armNow with
      | (e', Ok _) =>
          ({| unsubscribe := true; jobId := jobId h1; enabled_ := enabled_ h1 |}, e',
           {| subscribed := negb (unsubscribe h); settlement := Ok tt |})
      | (e', Err msg) => (h1, e', {| subscribed := false; settlement := Err msg |})
      end
  | None =>
      let '(e', i) := Cron.add P e newId (job_create h) now armNow in
      ({| unsubscribe := true; jobId := Some i; enabled_ := enabled_ h |}, e',
       {| subscribed := negb (unsubscribe h); settlement := Ok tt |})
  end.

(** [start()] *)
Definition start (h : closure) (e : Cron.CronEngine) (newId : string) (now armNow : Z)
  : closure * Cron.CronEngine * effect :=
  ensureJobAndListener h e newId now armNow.

(** [stop()]: returns whether the unsubscribe function was called. *)
Definition stop (h : closure) : closure * bool :=
  ({| unsubscribe := false; jobId := jobId h; enabled_ := enabled_ h |}, unsubscribe h).

(** [ensureJobAndListener()] with the outcome [w] of the write of the
    engine: when [cronEngine.update] or [cronEngine.add] rejects, the
    rejection leaves the function before it subscribes, and [add] has
    returned no id. *)
Definition ensureJobAndListener_saving (h : closure) (e : Cron.CronEngine) (newId : string)
    (now armNow : Z) (w : result unit) : closure * Cron.CronEngine * effect :=
  match List.find is_heartbeat (Cron.list_ e) with
  | Some existing =>
      let h1 := {| unsubscribe := unsubscribe h; jobId := Some (Cron.id existing);
                   enabled_ := enabled_ h |} in
      match Cron.update_saving P e (Cron.id existing) (job_patch h) now armNow w with
      | (e', Ok _) =>
          ({| unsubscribe := true; jobId := jobId h1; enabled_ := enabled_ h1 |}, e',
           {| subscribed := negb (unsubscribe h); settlement := Ok tt |})
      | (e', Err msg) => (h1, e', {| subscribed := false; settlement := Err msg |})
      end
  | None =>
      match Cron.add_saving P e newId (job_create h) now armNow w with
      | (e', Ok i) =>
          ({| unsubscribe := true; jobId := Some i; enabled_ := enabled_ h |}, e',
           {| subscribed := negb (unsubscribe h); settlement := Ok tt |})
      | (e', Err msg) => (h, e', {| subscribed := false; settlement := Err msg |})
      end
  end.

(** [setEnabled(newEnabled)]: [w] is the outcome of the write of the engine
    and [c] the outcome of [writeConfigSection].  Also returns the section
    handed to [writeConfigSection], when the call gets that far. *)
Definition setEnabled (h : closure) (e : Cron.CronEngine) (newEnabled : bool)
    (newId : string) (now armNow : Z) (w c : result unit)
  : closure * Cron.CronEngine * effect * option HeartbeatConfig :=
  let h := {| unsubscribe := unsubscribe h; jobId := jobId h; enabled_ := newEnabled |} in
  let '(h', e', eff) := ensureJobAndListener_saving h e newId now armNow w in
  match settlement eff with
  | Ok _ =>
      (h', e', {| subscribed := subscribed eff; settlement := c |},
       Some {| enabled := newEnabled; every := every config; prompt := prompt config;
               activeHours := activeHours config |})
  | Err _ => (h', e', eff, None)
  end.

(** [isEnabled()] *)
Definition isEnabled (h : closure) : bool := enabled_ h.

(** The heartbeat jobs, and the other jobs, of an engine. *)
Definition heartbeat_jobs (e : Cron.CronEngine) : list Cron.CronJob :=
  List.filter is_heartbeat (Cron.list_ e).

Definition other_jobs (e : Cron.CronEngine) : list Cron.CronJob :=
  List.filter (fun j => negb (is_heartbeat j)) (Cron.list_ e).

(** *** One heartbeat job *)

Lemma find_by_id (js : list Cron.CronJob) (j : Cron.CronJob) :
  NoDup (List.map Cron.id js) -> In j js -> Cron.find js (Cron.id j) = Some j.
Proof.
  unfold Cron.find. induction js as [|x js IH]; cbn [List.map List.find]; intros Hnd Hin;
    [contradiction|].
  inversion Hnd as [|? ? Hx Hnd']; subst. destruct Hin as [->|Hin].
  - now rewrite String.eqb_refl.
  - destruct (String.eqb_spec (Cron.id x) (Cron.id j)) as [E|E]; [|now apply IH].
    exfalso. apply Hx. rewrite E. now apply in_map.
Qed.

(** With distinct ids, [update] maps the jobs one by one. *)
Definition on_id (i : string) (f : Cron.CronJob -> Cron.CronJob) (x : Cron.CronJob)
  : Cron.CronJob :=
  if String.eqb (Cron.id x) i then f x else x.

Lemma on_id_absent (i : string) (f : Cron.CronJob -> Cron.CronJob) (js : list Cron.CronJob) :
  ~ In i (List.map Cron.id js) -> List.map (on_id i f) js = js.
Proof.
  induction js as [|x js IH]; cbn [List.map]; intros H; [reflexivity|].
  unfold on_id at 1. destruct (String.eqb_spec (Cron.id x) i) as [E|E].
  - exfalso. apply H. left. exact E.
  - rewrite IH; [reflexivity|]. intros Hin. apply H. now right.
Qed.

Lemma update_first_on_id (i : string) (f : Cron.CronJob -> Cron.CronJob)
    (js : list Cron.CronJob) :
  NoDup (List.map Cron.id js) -> Cron.update_first i f js = List.map (on_id i f) js.
Proof.
  induction js as [|x js IH]; cbn [List.map Cron.update_first]; intros Hnd; [reflexivity|].
  inversion Hnd as [|? ? Hx Hnd']; subst. unfold on_id at 1.
  destruct (String.eqb_spec (Cron.id x) i) as [E|E].
  - rewrite on_id_absent; [reflexivity|]. now rewrite <- E.
  - now rewrite IH.
Qed.

Lemma find_map (A : Type) (p : A -> bool) (g : A -> A) (l : list A) :
  (forall x, p (g x) = p x) ->
  List.find p (List.map g l) = option_map g (List.find p l).
Proof.
  intros H. induction l as [|x l IH]; cbn; [reflexivity|].
  rewrite H. destruct (p x); [reflexivity | exact IH].
Qed.

Lemma filter_map_fixed (A : Type) (p : A -> bool) (g : A -> A) (l : list A) :
  (forall x, p (g x) = p x) -> (forall x, In x l -> p x = true -> g x = x) ->
  List.filter p (List.map g l) = List.filter p l.
Proof.
  intros H Hfix. induction l as [|x l IH]; cbn; [reflexivity|].
  rewrite H. destruct (p x) eqn:E.
  - rewrite (Hfix x (or_introl eq_refl) E), IH; [reflexivity|].
    intros y Hy. apply Hfix. now right.
  - apply IH. intros y Hy. apply Hfix. now right.
Qed.

Lemma filter_map_length (A : Type) (p : A -> bool) (g : A -> A) (l : list A) :
  (forall x, p (g x) = p x) ->
  List.length (List.filter p (List.map g l)) = List.length (List.filter p l).
Proof.
  intros H. induction l as [|x l IH]; cbn; [reflexivity|].
  rewrite H. destruct (p x); cbn; now rewrite IH.
Qed.

Lemma find_none_filter (A : Type) (p : A -> bool) (l : list A) :
  List.find p l = None -> List.filter p l = [].
Proof.
  induction l as [|x l IH]; cbn; [reflexivity|].
  destruct (p x); [discriminate | exact IH].
Qed.

Lemma find_some_filter (A : Type) (p : A -> bool) (l : list A) (x : A) :
  List.find p l = Some x -> List.filter p l <> [].
Proof.
  induction l as [|y l IH]; cbn; [discriminate|].
  destruct (p y); [discriminate | exact IH].
Qed.

Lemma find_last (A : Type) (p : A -> bool) (l : list A) (x : A) :
  List.find p l = None -> p x = true -> List.find p (l ++ [x]) = Some x.
Proof.
  intros Hnone Hx. induction l as [|y l IH]; cbn [app List.find] in *; [now rewrite Hx|].
  destruct (p y); [discriminate | now apply IH].
Qed.

Lemma NoDup_snoc (A : Type) (l : list A) (x : A) :
  NoDup l -> ~ In x l -> NoDup (l ++ [x]).
Proof.
  induction 1 as [|y l Hy Hl IH]; cbn [app]; intros Hx.
  - constructor; [intros [] | constructor].
  - constructor.
    + intros Hin. apply in_app_or in Hin. destruct Hin as [Hin|[->|[]]].
      * contradiction.
      * apply Hx. now left.
    + apply IH. intros Hin. apply Hx. now right.
Qed.

Lemma is_heartbeat_patched (h : closure) (now : Z) (x : Cron.CronJob) :
  is_heartbeat (Cron.patch_job P (job_patch h) now x) = is_heartbeat x.
Proof. reflexivity. Qed.

Lemma ensure_spec (h : closure) (e : Cron.CronEngine) (newId : string) (now armNow : Z) :
  NoDup (List.map Cron.id (Cron.list_ e)) ->
  ~ In newId (List.map Cron.id (Cron.list_ e)) ->
  let '(h', e', eff) := ensureJobAndListener h e newId now armNow in
  settlement eff = Ok tt
  /\ subscribed eff = negb (unsubscribe h)
  /\ unsubscribe h' = true
  /\ enabled_ h' = enabled_ h
  /\ (exists j,
        List.find is_heartbeat (Cron.list_ e') = Some j
        /\ jobId h' = Some (Cron.id j)
        /\ Cron.get e' (Cron.id j) = Some j
        /\ Cron.enabled j = enabled_ h
        /\ Cron.schedule j = Cron.Every (every config)
        /\ Cron.payload j = prompt config
        /\ Cron.nextRunAtMs (Cron.state j)
           = Cron.computeNextRun P (Cron.Every (every config)) now)
  /\ List.length (heartbeat_jobs e') = Nat.max 1 (List.length (heartbeat_jobs e))
  /\ other_jobs e' = other_jobs e
  /\ NoDup (List.map Cron.id (Cron.list_ e'))
  /\ Cron.store e' = Some (Cron.list_ e')
  /\ List.map Cron.id (Cron.list_ e')
     = List.map Cron.id (Cron.list_ e)
       ++ match List.find is_heartbeat (Cron.list_ e) with Some _ => [] | None => [newId] end
  /\ (forall j0, List.find is_heartbeat (Cron.list_ e) = Some j0 ->
        jobId h' = Some (Cron.id j0)).
Proof.
  unfold Cron.list_, heartbeat_jobs, other_jobs, Cron.get. intros Hnd Hfresh.
  unfold ensureJobAndListener, Cron.list_.
  destruct (List.find is_heartbeat (Cron.jobs e)) as [existing|] eqn:Efind.
  - destruct (@find_some _ _ _ _ Efind) as [Hin Hhb].
    pose proof (@find_by_id _ _ Hnd Hin) as Hid.
    unfold Cron.update. rewrite Hid.
    match goal with
    | |- context [Cron.armTimer ?x armNow] =>
        destruct (Cron.armTimer_jobs x armNow) as [Hj Hs];
        set (e' := Cron.armTimer x armNow) in *
    end.
    cbn in Hj, Hs. cbn [settlement subscribed unsubscribe enabled_ jobId].
    rewrite (@update_first_on_id _ _ _ Hnd) in Hj, Hs. rewrite Hj, Hs.
    set (g := on_id (Cron.id existing) (Cron.patch_job P (job_patch h) now)).
    assert (Hg : forall x, is_heartbeat (g x) = is_heartbeat x).
    { intros x. unfold g, on_id. destruct (String.eqb _ _); reflexivity. }
    assert (Hgid : forall x, Cron.id (g x) = Cron.id x).
    { intros x. unfold g, on_id. destruct (String.eqb _ _); [apply Cron.patch_job_id|];
        reflexivity. }
    assert (Hids : List.map Cron.id (List.map g (Cron.jobs e)) = List.map Cron.id (Cron.jobs e)).
    { rewrite map_map. apply map_ext. exact Hgid. }
    assert (Hge : g existing = Cron.patch_job P (job_patch h) now existing).
    { unfold g, on_id. now rewrite String.eqb_refl. }
    repeat split; auto.
    + exists (g existing). split; [rewrite (@find_map _ _ _ _ Hg), Efind; reflexivity|].
      split; [now rewrite Hgid|]. split.
      * apply (@find_by_id (List.map g (Cron.jobs e)) (g existing)); [now rewrite Hids|].
        apply in_map. exact Hin.
      * rewrite Hge. repeat split; reflexivity.
    + rewrite (@filter_map_length _ _ _ _ Hg).
      pose proof (@find_some_filter _ _ _ _ Efind) as Hne.
      destruct (List.filter is_heartbeat (Cron.jobs e)); [contradiction | cbn; lia].
    + apply filter_map_fixed.
      * intros x. now rewrite Hg.
      * intros x Hx Hnot. unfold g, on_id.
        destruct (String.eqb_spec (Cron.id x) (Cron.id existing)) as [E|E]; [|reflexivity].
        exfalso. pose proof (@find_by_id _ _ Hnd Hx) as Hfx. rewrite E, Hid in Hfx.
        inversion Hfx; subst x. rewrite Hhb in Hnot. discriminate.
    + now rewrite Hids.
    + now rewrite Hids, app_nil_r.
    + intros j0 Hj0. inversion Hj0; subst j0. reflexivity.
  - unfold Cron.add.
    match goal with
    | |- context [Cron.armTimer ?x armNow] =>
        destruct (Cron.armTimer_jobs x armNow) as [Hj Hs];
        set (e' := Cron.armTimer x armNow) in *
    end.
    cbn in Hj, Hs. cbn [settlement subscribed unsubscribe enabled_ jobId].
    rewrite Hj, Hs. set (j := Cron.new_job P newId (job_create h) now).
    assert (Hj1 : is_heartbeat j = true) by reflexivity.
    pose proof (@find_none_filter _ _ _ Efind) as Hnone.
    repeat split; auto.
    + exists j. split.
      { apply find_last; assumption. }
      split; [reflexivity|]. split.
      { rewrite (@Cron.find_app_absent _ _ _ (@Cron.find_absent _ _ Hfresh)).
        unfold Cron.find. cbn. now rewrite String.eqb_refl. }
      repeat split; reflexivity.
    + rewrite filter_app, Hnone. cbn [List.filter app]. rewrite Hj1. reflexivity.
    + rewrite filter_app. cbn [List.filter]. rewrite Hj1. cbn [negb]. apply app_nil_r.
    + rewrite map_app. cbn [List.map].
      apply NoDup_snoc; assumption.
    + now rewrite map_app.
    + intros j0 Hj0. discriminate Hj0.
Qed.

(** The write of the engine decides whether [ensureJobAndListener]
    subscribes and resolves; the jobs in memory do not depend on it. *)
Lemma ensure_saving_spec (h : closure) (e : Cron.CronEngine) (newId : string)
    (now armNow : Z) (w : result unit) :
  let '(h', e', eff) := ensureJobAndListener_saving h e newId now armNow w in
  let '(h0, e0, eff0) := ensureJobAndListener h e newId now armNow in
  Cron.jobs e' = Cron.jobs e0
  /\ enabled_ h' = enabled_ h
  /\ match w with
     | Ok _ => h' = h0 /\ eff = eff0 /\ Cron.store e' = Cron.store e0
     | Err msg =>
         settlement eff = Err msg /\ subscribed eff = false
         /\ unsubscribe h' = unsubscribe h /\ Cron.store e' = Cron.store e
     end.
Proof.
  unfold ensureJobAndListener_saving, ensureJobAndListener, Cron.list_.
  destruct (List.find is_heartbeat (Cron.jobs e)) as [existing|] eqn:Efind.
  - destruct (@find_some _ _ _ _ Efind) as [Hin _].
    destruct (@Cron.find_present (Cron.jobs e) (Cron.id existing)) as [j Hj];
      [now apply in_map|].
    rewrite (@Cron.update_saving_spec P e _ (job_patch h) now armNow w j Hj).
    destruct (@Cron.update_jobs P e _ (job_patch h) now armNow j Hj) as [Hjobs Hok].
    destruct (Cron.update P e (Cron.id existing) (job_patch h) now armNow) as [e0 r0].
    cbn [fst snd] in *. subst r0.
    destruct w as [u|msg]; cbn [Cron.with_jobs Cron.jobs Cron.store settlement subscribed
                                unsubscribe enabled_]; auto 10.
  - rewrite Cron.add_saving_spec. pose proof (Cron.add_jobs P e newId (job_create h) now armNow)
      as Hjobs.
    assert (Hid : snd (Cron.add P e newId (job_create h) now armNow) = newId) by reflexivity.
    destruct (Cron.add P e newId (job_create h) now armNow) as [e0 i0].
    cbn [fst snd] in *. subst i0.
    destruct w as [u|msg]; cbn [Cron.with_jobs Cron.jobs Cron.store settlement subscribed
                                unsubscribe enabled_]; auto 10.
Qed.

(** X22. The heartbeat keeps one cron job, and [setEnabled] makes that job
    follow it in memory, whatever happens to the two files it writes.  On an
    engine whose job ids are distinct, after [setEnabled(b)] [isEnabled()]
    returns [b], and the first job named [__heartbeat__] is enabled exactly
    when [b] holds and has the configured interval and prompt, with its next
    run resolved at the time of the call; a heartbeat job is created only
    when the engine has none, and every other job is left untouched.  The
    call resolves only when both the write of the engine and the write of
    the configuration resolve.  When the write of the engine is rejected the
    call rejects with that error before it subscribes and before it writes
    the configuration, and the store file is as it was; otherwise
    [subscribeType] is called if no subscription is held, the closure
    remembers the id of the job, the store file holds the jobs, the section
    handed to [writeConfigSection] carries [b], and the call settles as that
    write does. *)
Theorem setEnabled_drives_the_one_heartbeat_job (h : closure) (e : Cron.CronEngine)
    (b : bool) (newId : string) (now armNow : Z) (w c : result unit) :
  NoDup (List.map Cron.id (Cron.list_ e)) ->
  ~ In newId (List.map Cron.id (Cron.list_ e)) ->
  let '(h', e', eff, written) := setEnabled h e b newId now armNow w c in
  isEnabled h' = b
  /\ settlement eff = match w with Ok _ => c | Err msg => Err msg end
  /\ (exists j,
        List.find is_heartbeat (Cron.list_ e') = Some j
        /\ Cron.get e' (Cron.id j) = Some j
        /\ Cron.enabled j = b
        /\ Cron.schedule j = Cron.Every (every config)
        /\ Cron.payload j = prompt config
        /\ Cron.nextRunAtMs (Cron.state j)
           = Cron.computeNextRun P (Cron.Every (every config)) now
        /\ match w with Ok _ => jobId h' = Some (Cron.id j) | Err _ => True end)
  /\ List.length (heartbeat_jobs e') = Nat.max 1 (List.length (heartbeat_jobs e))
  /\ other_jobs e' = other_jobs e
  /\ NoDup (List.map Cron.id (Cron.list_ e'))
  /\ match w with
     | Ok _ =>
         subscribed eff = negb (unsubscribe h) /\ unsubscribe h' = true
         /\ written = Some {| enabled := b; every := every config; prompt := prompt config;
                              activeHours := activeHours config |}
         /\ Cron.store e' = Some (Cron.list_ e')
     | Err _ =>
         subscribed eff = false /\ unsubscribe h' = unsubscribe h
         /\ written = None /\ Cron.store e' = Cron.store e
     end.
Proof.
  intros Hnd Hfresh. unfold setEnabled.
  set (hb := {| unsubscribe := unsubscribe h; jobId := jobId h; enabled_ := b |}).
  pose proof (@ensure_spec hb e newId now armNow Hnd Hfresh) as H0.
  pose proof (ensure_saving_spec hb e newId now armNow w) as H1.
  destruct (ensureJobAndListener_saving hb e newId now armNow w) as [[h' e'] eff].
  destruct (ensureJobAndListener hb e newId now armNow) as [[h0 e0] eff0].
  destruct H0 as (Hr & Hsub & Hu & Hen & (j & Hf & Hid & Hget & Hjob) & Hcount & Hother
                  & Hnd' & Hstore & _).
  destruct H1 as (Hjobs & Hen' & Hw).
  unfold heartbeat_jobs, other_jobs, Cron.list_, Cron.get in *.
  destruct w as [u|msg].
  - destruct Hw as (-> & -> & Hst). rewrite Hr. cbn [settlement subscribed].
    rewrite Hjobs, Hst.
    split; [exact Hen|]. split; [reflexivity|].
    split; [exists j; repeat split; try apply Hjob; assumption|].
    split; [exact Hcount|]. split; [exact Hother|]. split; [exact Hnd'|].
    repeat split; assumption.
  - destruct Hw as (Hs & Hns & Hun & Hst). rewrite Hs. rewrite Hjobs.
    split; [exact Hen'|]. split; [exact Hs|].
    split; [exists j; repeat split; try apply Hjob; assumption|].
    split; [exact Hcount|]. split; [exact Hother|]. split; [exact Hnd'|].
    repeat split; assumption.
Qed.

(** X23. [start] is idempotent: started twice on an engine whose job ids
    are distinct, the heartbeat has one job and has subscribed once; the
    second call finds the job of the first, updates it and keeps its id, and
    does not call [subscribeType] again.  [stop] calls the unsubscribe
    function and leaves the job in the engine, and a new [start] subscribes
    again without adding a job.  No other job is touched. *)
Theorem start_twice_keeps_one_job_and_one_subscription (h : closure) (e : Cron.CronEngine)
    (id1 id2 : string) (now1 arm1 now2 arm2 now3 arm3 : Z) :
  NoDup (List.map Cron.id (Cron.list_ e)) ->
  ~ In id1 (List.map Cron.id (Cron.list_ e)) ->
  ~ In id2 (id1 :: List.map Cron.id (Cron.list_ e)) ->
  let '(h1, e1, eff1) := start h e id1 now1 arm1 in
  let '(h2, e2, eff2) := start h1 e1 id2 now2 arm2 in
  let '(h3, e3, eff3) := start (fst (stop h2)) e2 id2 now3 arm3 in
  subscribed eff1 = negb (unsubscribe h)
  /\ subscribed eff2 = false
  /\ snd (stop h2) = true
  /\ subscribed eff3 = true
  /\ List.length (heartbeat_jobs e1) = Nat.max 1 (List.length (heartbeat_jobs e))
  /\ List.length (heartbeat_jobs e2) = List.length (heartbeat_jobs e1)
  /\ List.length (heartbeat_jobs e3) = List.length (heartbeat_jobs e1)
  /\ List.map Cron.id (Cron.list_ e3) = List.map Cron.id (Cron.list_ e1)
  /\ jobId h2 = jobId h1 /\ jobId h3 = jobId h1
  /\ other_jobs e3 = other_jobs e.
Proof.
  intros Hnd Hfresh Hfresh2. unfold start.
  pose proof (@ensure_spec h e id1 now1 arm1 Hnd Hfresh) as H1.
  destruct (ensureJobAndListener h e id1 now1 arm1) as [[h1 e1] eff1].
  destruct H1 as (_ & Hsub1 & Hu1 & _ & (j1 & Hf1 & Hid1 & _) & Hc1 & Ho1 & Hnd1 & _ & Hids1 & _).
  assert (Hfr1 : ~ In id2 (List.map Cron.id (Cron.list_ e1))).
  { rewrite Hids1. intros Hin. apply in_app_or in Hin. apply Hfresh2.
    destruct Hin as [Hin|Hin]; [now right|].
    destruct (List.find is_heartbeat (Cron.list_ e)); [contradiction|].
    destruct Hin as [->|[]]. now left. }
  pose proof (@ensure_spec h1 e1 id2 now2 arm2 Hnd1 Hfr1) as H2.
  destruct (ensureJobAndListener h1 e1 id2 now2 arm2) as [[h2 e2] eff2].
  destruct H2 as (_ & Hsub2 & Hu2 & _ & (j2 & Hf2 & Hid2 & _) & Hc2 & Ho2 & Hnd2 & _
                  & Hids2 & Hjid2).
  rewrite Hf1, app_nil_r in Hids2.
  assert (Hfr2 : ~ In id2 (List.map Cron.id (Cron.list_ e2))) by now rewrite Hids2.
  pose proof (@ensure_spec (fst (stop h2)) e2 id2 now3 arm3 Hnd2 Hfr2) as H3.
  destruct (ensureJobAndListener (fst (stop h2)) e2 id2 now3 arm3) as [[h3 e3] eff3].
  destruct H3 as (_ & Hsub3 & _ & _ & (j3 & Hf3 & Hid3 & _) & Hc3 & Ho3 & _ & _ & Hids3 & Hjid3).
  rewrite Hf2, app_nil_r in Hids3.
  assert (Hpos : (1 <= List.length (heartbeat_jobs e1))%nat) by lia.
  split; [exact Hsub1|]. split; [now rewrite Hsub2, Hu1|].
  split; [exact Hu2|]. split; [rewrite Hsub3; cbn; reflexivity|].
  split; [exact Hc1|]. split; [lia|]. split; [lia|].
  split; [now rewrite Hids3, Hids2|].
  split; [now rewrite (Hjid2 _ Hf1), Hid1|].
  split.
  - specialize (Hjid2 _ Hf1). specialize (Hjid3 _ Hf2). congruence.
  - now rewrite Ho3, Ho2, Ho1.
Qed.

End Lifecycle.

(** The lifecycle on a new engine, with the default interval. *)

Definition every_30m : HeartbeatConfig :=
  {| enabled := false; every := "30m"; prompt := "Check if anything needs attention.";
     activeHours := None |}.

Lemma no_jobs_distinct : NoDup (List.map Cron.id (Cron.list_ (Cron.createCronEngine None))).
Proof. constructor. Defined.

Lemma no_jobs_fresh (i : string) :
  ~ In i (List.map Cron.id (Cron.list_ (Cron.createCronEngine None))).
Proof. intros []. Defined.

Lemma setEnabled_drives_the_one_heartbeat_job_witness :
  NoDup (List.map Cron.id (Cron.list_ (Cron.createCronEngine None)))
  /\ ~ In "a1b2c3d4" (List.map Cron.id (Cron.list_ (Cron.createCronEngine None)))
  /\ isEnabled (fst (fst (fst (setEnabled Cron.utc every_30m (createHeartbeat every_30m)
                                 (Cron.createCronEngine None) true "a1b2c3d4" 1000 1000
                                 (Err "EACCES: permission denied") (Ok tt)))))
     = true.
Proof.
  split; [exact no_jobs_distinct|]. split; [exact (@no_jobs_fresh "a1b2c3d4")|].
  pose proof (@setEnabled_drives_the_one_heartbeat_job Cron.utc every_30m
                (createHeartbeat every_30m) (Cron.createCronEngine None) true "a1b2c3d4"
                1000 1000 (Err "EACCES: permission denied") (Ok tt)
                no_jobs_distinct (@no_jobs_fresh "a1b2c3d4")) as H.
  destruct (setEnabled Cron.utc every_30m (createHeartbeat every_30m)
              (Cron.createCronEngine None) true "a1b2c3d4" 1000 1000
              (Err "EACCES: permission denied") (Ok tt)) as [[[h' e'] eff] w].
  exact (proj1 H).
Defined.

(** A cold enable whose engine write is rejected: the call rejects, the
    heartbeat says it is enabled and its job is in memory, but nothing is
    subscribed and nothing is written. *)
Example rejected_setEnabled_is_half_done :
  let '(h', e', eff, written) :=
    setEnabled Cron.utc every_30m (createHeartbeat every_30m) (Cron.createCronEngine None)
               true "a1b2c3d4" 1000 1000 (Err "EACCES: permission denied") (Ok tt) in
  settlement eff = Err "EACCES: permission denied"
  /\ isEnabled h' = true /\ unsubscribe h' = false /\ jobId h' = None
  /\ List.map (fun j => (Cron.name j, Cron.enabled j)) (Cron.list_ e')
     = [("__heartbeat__", true)]
  /\ Cron.store e' = None /\ written = None.
Proof. vm_compute. repeat split; reflexivity. Qed.

Lemma second_id_fresh :
  ~ In "0f1e2d3c"
       ("a1b2c3d4" :: List.map Cron.id (Cron.list_ (Cron.createCronEngine None))).
Proof. intros [H|[]]. discriminate H. Defined.

Lemma start_twice_keeps_one_job_and_one_subscription_witness :
  NoDup (List.map Cron.id (Cron.list_ (Cron.createCronEngine None)))
  /\ ~ In "a1b2c3d4" (List.map Cron.id (Cron.list_ (Cron.createCronEngine None)))
  /\ ~ In "0f1e2d3c"
          ("a1b2c3d4" :: List.map Cron.id (Cron.list_ (Cron.createCronEngine None)))
  /\ subscribed
       (snd (start Cron.utc every_30m
               (fst (fst (start Cron.utc every_30m (createHeartbeat every_30m)
                            (Cron.createCronEngine None) "a1b2c3d4" 1000 1000)))
               (snd (fst (start Cron.utc every_30m (createHeartbeat every_30m)
                            (Cron.createCronEngine None) "a1b2c3d4" 1000 1000)))
               "0f1e2d3c" 2000 2000))
     = false.
Proof.
  split; [exact no_jobs_distinct|]. split; [exact (@no_jobs_fresh "a1b2c3d4")|].
  split; [exact second_id_fresh|].
  pose proof (@start_twice_keeps_one_job_and_one_subscription Cron.utc every_30m
                (createHeartbeat every_30m) (Cron.createCronEngine None)
                "a1b2c3d4" "0f1e2d3c" 1000 1000 2000 2000 3000 3000
                no_jobs_distinct (@no_jobs_fresh "a1b2c3d4") second_id_fresh) as H.
  destruct (start Cron.utc every_30m (createHeartbeat every_30m)
              (Cron.createCronEngine None) "a1b2c3d4" 1000 1000) as [[h1 e1] eff1].
  cbn [fst snd].
  destruct (start Cron.utc every_30m h1 e1 "0f1e2d3c" 2000 2000) as [[h2 e2] eff2].
  destruct (start Cron.utc every_30m (fst (stop h2)) e2 "0f1e2d3c" 3000 3000)
    as [[h3 e3] eff3].
  exact (proj1 (proj2 H)).
Defined.

(** The scenario of the test 'should be idempotent': two starts leave one
    heartbeat job. *)
Example start_twice_has_one_job :
  let '(h1, e1, _) :=
    start Cron.utc every_30m (createHeartbeat every_30m) (Cron.createCronEngine None)
          "a1b2c3d4" 1000 1000 in
  let '(_, e2, _) := start Cron.utc every_30m h1 e1 "0f1e2d3c" 2000 2000 in
  List.map (fun j => (Cron.id j, Cron.name j, Cron.enabled j)) (Cron.list_ e2)
  = [("a1b2c3d4", "__heartbeat__", false)].
Proof. vm_compute. reflexivity. Qed.

End HeartbeatJob.

(** ** Cron tools ([createCronTools] of [src/task/cron/tools.ts])

    The [execute] functions of the five tools, on the arguments the schemas
    let through.  Each returns the engine it leaves and the settlement of its
    promise: [Ok v] when it resolves with the value [v], [Err] when it
    rejects; [w] is the outcome of the write of the engine. *)

Module CronTools.

Section Tools.

Variable P : Cron.Platform.

(** The values the tools resolve to: the job list, [{ id }], [{ ok: true }]
    and [{ error }]. *)
Inductive tool_result : Type :=
| Jobs (jobs : list Cron.CronJob)
| Id (id : string)
| OkTrue
| Error (error : string).

(** [try { await call; return { ok: true } } catch (err) { return { error:
    err.message } }] *)
Definition answer {A : Type} (r : result A) : result tool_result :=
  match r with
  | Ok _ => Ok OkTrue
  | Err message => Ok (Error message)
  end.

Definition cronList (e : Cron.CronEngine) : result tool_result := Ok (Jobs (Cron.list_ e)).

(** [cronAdd] awaits [cronEngine.add] outside any [try]. *)
Definition cronAdd (e : Cron.CronEngine) (name payload : string)
    (schedule : option Cron.CronSchedule) (enabled : option bool)
    (newId : string) (now armNow : Z) (w : result unit)
  : Cron.CronEngine * result tool_result :=
  match schedule with
  | None => (e, Ok (Error "schedule is required"))
  | Some s =>
      match Cron.add_saving P e newId
              {| Cron.create_name := name; Cron.create_schedule := s;
                 Cron.create_payload := payload; Cron.create_enabled := enabled |}
              now armNow w with
      | (e', Ok i) => (e', Ok (Id i))
      | (e', Err msg) => (e', Err msg)
      end
  end.

Definition cronUpdate (e : Cron.CronEngine) (id : string) (name payload : option string)
    (schedule : option Cron.CronSchedule) (enabled : option bool) (now armNow : Z)
    (w : result unit) : Cron.CronEngine * result tool_result :=
  let '(e', r) :=
    Cron.update_saving P e id
      {| Cron.patch_name := name; Cron.patch_schedule := schedule;
         Cron.patch_payload := payload; Cron.patch_enabled := enabled |}
      now armNow w in
  (e', answer r).

Definition cronRemove (e : Cron.CronEngine) (id : string) (w : result unit)
  : Cron.CronEngine * result tool_result :=
  let '(e', r) := Cron.remove_saving e id w in (e', answer r).

Definition cronRunNow (e : Cron.CronEngine) (id : string) (now : Z) (appended : bool)
    (w : result unit) : Cron.CronEngine * result tool_result :=
  let '(e', _, r) := Cron.runNow_saving P e id now appended w in (e', answer r).

(** The answer of a tool that catches: [{ ok: true }] when the write
    resolves, and the error of the write as a value when it is rejected. *)
Definition caught (w : result unit) : result tool_result :=
  match w with
  | Ok _ => Ok OkTrue
  | Err msg => Ok (Error msg)
  end.

(** X24. [cronUpdate], [cronRemove] and [cronRunNow] never reject: they
    resolve to [{ ok: true }] when the collection holds the id and the write
    of the engine resolves, and report every failure as a value, an unknown
    id as [{ error: "cron job not found: <id>" }] with the engine left as it
    was, and a rejected write as [{ error }] with the message of the write,
    although the job has then been changed, removed or fired in memory.
    [cronAdd] without a schedule resolves to
    [{ error: "schedule is required" }] and does not reach the engine; with
    one it resolves to the new id when the write resolves and is the one tool
    that rejects when the write is rejected; either way [cronList] then ends
    with the new job. *)
Theorem cron_tools_report_failures_as_values (e : Cron.CronEngine) (id : string)
    (name payload : option string) (schedule : option Cron.CronSchedule)
    (enabled : option bool) (now armNow : Z) (appended : bool)
    (newName newPayload newId : string) (s : Cron.CronSchedule) (w : result unit) :
  (~ In id (List.map Cron.id (Cron.list_ e)) ->
     cronUpdate e id name payload schedule enabled now armNow w
     = (e, Ok (Error ("cron job not found: " ++ id)%string))
     /\ cronRemove e id w = (e, Ok (Error ("cron job not found: " ++ id)%string))
     /\ cronRunNow e id now appended w
        = (e, Ok (Error ("cron job not found: " ++ id)%string)))
  /\ (forall j, Cron.get e id = Some j ->
        snd (cronUpdate e id name payload schedule enabled now armNow w) = caught w
        /\ snd (cronRemove e id w) = caught w
        /\ snd (cronRunNow e id now appended w) = caught w
        /\ Cron.get (fst (cronUpdate e id name payload schedule enabled now armNow w)) id
           = Some (Cron.patch_job P
                     {| Cron.patch_name := name; Cron.patch_schedule := schedule;
                        Cron.patch_payload := payload; Cron.patch_enabled := enabled |}
                     now j)
        /\ Cron.list_ (fst (cronRemove e id w)) = Cron.remove_first id (Cron.list_ e)
        /\ Cron.get (fst (cronRunNow e id now appended w)) id
           = Some (Cron.fireJob P j now appended))
  /\ cronAdd e newName newPayload None enabled newId now armNow w
     = (e, Ok (Error "schedule is required"))
  /\ snd (cronAdd e newName newPayload (Some s) enabled newId now armNow w)
     = match w with Ok _ => Ok (Id newId) | Err msg => Err msg end
  /\ cronList (fst (cronAdd e newName newPayload (Some s) enabled newId now armNow w))
     = Ok (Jobs (Cron.list_ e
                 ++ [Cron.new_job P newId
                       {| Cron.create_name := newName; Cron.create_schedule := s;
                          Cron.create_payload := newPayload;
                          Cron.create_enabled := enabled |} now])).
Proof.
  unfold Cron.list_, Cron.get. split; [|split; [|split; [|split]]].
  - intros Hno. apply Cron.find_absent in Hno.
    unfold cronUpdate, cronRemove, cronRunNow, Cron.update_saving, Cron.remove_saving,
      Cron.runNow_saving.
    rewrite Hno. repeat split; reflexivity.
  - intros j Hj.
    set (patch := {| Cron.patch_name := name; Cron.patch_schedule := schedule;
                     Cron.patch_payload := payload; Cron.patch_enabled := enabled |}).
    destruct (@Cron.find_update_first (Cron.jobs e) id (Cron.patch_job P patch now) j
                (Cron.patch_job_id P patch now) Hj) as (Hu & _).
    destruct (@Cron.find_update_first (Cron.jobs e) id
                (fun x => Cron.fireJob P x now appended) j
                (fun x => Cron.fireJob_id P x now appended) Hj) as (Hf & _).
    unfold cronUpdate, cronRemove, cronRunNow, Cron.update_saving, Cron.remove_saving,
      Cron.runNow_saving.
    rewrite Hj. fold patch.
    destruct w as [u|msg]; cbn [Cron.save_settled fst snd answer caught].
    + match goal with
      | |- context [Cron.armTimer ?x armNow] =>
          destruct (Cron.armTimer_jobs x armNow) as [-> _]
      end.
      cbn [Cron.clearTimer Cron.with_timer Cron.save Cron.with_jobs Cron.jobs].
      repeat split; auto.
    + cbn [Cron.with_jobs Cron.jobs]. repeat split; auto.
  - reflexivity.
  - unfold cronAdd. rewrite Cron.add_saving_spec. destruct w; reflexivity.
  - unfold cronList, cronAdd, Cron.list_. rewrite Cron.add_saving_spec.
    destruct w as [u|msg]; cbn [fst Cron.with_jobs Cron.jobs]; [|reflexivity].
    now rewrite Cron.add_jobs.
Qed.

End Tools.

End CronTools.

(** ** Asynchronous handlers

    [handleFire] of the cron listener and of the heartbeat are [async]
    functions over the mutable variables of their closure.  A handler is a
    tree of requests; an awaited request suspends the invocation until its
    promise settles, every other request is served at once, so the code
    between two awaits runs without interleaving, as on the JavaScript event
    loop. *)

Module Async.

Import HeartbeatParse.

(** A delivery target of the connector registry, known by its channel. *)
Definition Target : Type := string.

Inductive level : Type := log | warn | error_.

(** The payloads the two listeners append. *)
Inductive event_payload : Type :=
| CronDone (jobId jobName reply : string) (durationMs : Z)
| CronError (jobId jobName error : string) (durationMs : Z)
| HeartbeatSkip (reason : string) (parsedReason : option string)
| HeartbeatDone (reply reason : string) (durationMs : Z) (delivered : bool)
| HeartbeatError (error : string) (durationMs : Z).

Inductive request : Type -> Type :=
(* awaited *)
| AskWithSession (prompt historyPreamble : string) : request (result string)
| Deliver (target : Target) (text : string) : request (result unit)
| Append (type : string) (payload : event_payload) : request (result unit)
(* the environment, synchronously *)
| Now : request Z
| Console (l : level) : request unit
| ResolveDeliveryTarget : request (option Target)
(* the variables of the closure *)
| GetProcessing : request bool
| SetProcessing (b : bool) : request unit
| IsDuplicate (text : string) (nowMs : Z) : request bool
| Record_ (text : string) (nowMs : Z) : request unit.

Inductive prog (A : Type) : Type :=
| Ret (a : A)
| Throw (e : string)
| Do (X : Type) (req : request X) (k : X -> prog A).

Arguments Ret {A} a.
Arguments Throw {A} e.
Arguments Do {A X} req k.

Fixpoint bind {A B : Type} (p : prog A) (f : A -> prog B) : prog B :=
  match p with
  | Ret a => f a
  | Throw e => Throw e
  | Do req k => Do req (fun x => bind (k x) f)
  end.

(** A synchronous call. *)
Definition call {X : Type} (req : request X) : prog X := Do req Ret.

(** [await promise]: a rejection is thrown where it is awaited. *)
Definition await {X : Type} (req : request (result X)) : prog X :=
  Do req (fun r => match r with Ok x => Ret x | Err e => Throw e end).

(** [try { p } catch (err) { h err }] *)
Fixpoint try_catch {A : Type} (p : prog A) (h : string -> prog A) : prog A :=
  match p with
  | Ret a => Ret a
  | Throw e => h e
  | Do req k => Do req (fun x => try_catch (k x) h)
  end.

(** [try { p } finally { f }] *)
Fixpoint finally_ {A : Type} (p : prog A) (f : prog unit) : prog A :=
  match p with
  | Ret a => bind f (fun _ => Ret a)
  | Throw e => bind f (fun _ => Throw e)
  | Do req k => Do req (fun x => finally_ (k x) f)
  end.

Declare Scope prog_scope.
Delimit Scope prog_scope with prog.
Notation "x <- p ;; q" := (bind p (fun x => q))
  (at level 61, p at next level, right associativity) : prog_scope.
Notation "p ;; q" := (bind p (fun _ => q))
  (at level 61, right associativity) : prog_scope.

(** The mutable variables of a listener closure.  The cron listener has no
    dedup object and never asks for it. *)
Record vars : Type := mkVars {
  processing : bool;
  dedup : HeartbeatDedup
}.

Definition init_vars : vars := {| processing := false; dedup := new_HeartbeatDedup |}.

(** What an invocation did, request by request, with the answers. *)
Inductive event : Type :=
| EAsk (prompt historyPreamble : string) (r : result string)
| EDeliver (target : Target) (text : string) (r : result unit)
| EAppend (type : string) (payload : event_payload) (r : result unit)
| ENow (t : Z)
| EConsole (l : level)
| EResolve (target : option Target)
| EGetProcessing (b : bool)
| ESetProcessing (b : bool)
| EIsDuplicate (text : string) (nowMs : Z) (b : bool)
| ERecord (text : string) (nowMs : Z)
(* an awaited request was issued; its promise is pending *)
| EIssue (X : Type) (req : request X).

Definition event_of {X : Type} (req : request X) : X -> event :=
  match req in request T return T -> event with
  | AskWithSession p h => EAsk p h
  | Deliver t x => EDeliver t x
  | Append ty p => EAppend ty p
  | Now => ENow
  | Console l => fun _ => EConsole l
  | ResolveDeliveryTarget => EResolve
  | GetProcessing => EGetProcessing
  | SetProcessing b => fun _ => ESetProcessing b
  | IsDuplicate x t => EIsDuplicate x t
  | Record_ x t => fun _ => ERecord x t
  end.

(** A request on the closure variables: the new variables and the answer. *)
Definition local {X : Type} (req : request X) (v : vars) : option (vars * X) :=
  match req in request T return option (vars * T) with
  | GetProcessing => Some (v, processing v)
  | SetProcessing b => Some ({| processing := b; dedup := dedup v |}, tt)
  | IsDuplicate x t => Some (v, isDuplicate (dedup v) x t)
  | Record_ x t => Some ({| processing := processing v; dedup := record (dedup v) x t |}, tt)
  | _ => None
  end.

Definition awaited {X : Type} (req : request X) : bool :=
  match req with
  | AskWithSession _ _ | Deliver _ _ | Append _ _ => true
  | _ => false
  end.

(** The environment of an invocation: its answer to the [n]-th request that
    leaves the closure. *)
Definition env : Type := forall X : Type, nat -> request X -> X.

Inductive outcome (A : Type) : Type :=
| Returned (a : A)
| Thrown (e : string).

Arguments Returned {A} a.
Arguments Thrown {A} e.

(** A whole invocation, from its first statement to its settlement. *)
Fixpoint run {A : Type} (p : prog A) (ev : env) (n : nat) (v : vars)
  : vars * list event * outcome A :=
  match p with
  | Ret a => (v, [], Returned a)
  | Throw e => (v, [], Thrown e)
  | Do req k =>
      match local req v with
      | Some (v', x) =>
          let '(v'', tr, o) := run (k x) ev n v' in (v'', event_of req x :: tr, o)
      | None =>
          let x := ev _ n req in
          let '(v'', tr, o) := run (k x) ev (S n) v in (v'', event_of req x :: tr, o)
      end
  end.

(** An invocation suspended on an awaited request. *)
Record suspended : Type := mkSuspended {
  answer : Type;
  pending : request answer;
  resume : answer -> prog unit
}.

(** One turn of the event loop: the invocation runs up to its next await,
    whose request it issues ([EIssue]), or to its end.  [ev] answers the
    synchronous requests to the environment. *)
Fixpoint turn (p : prog unit) (ev : env) (n : nat) (v : vars)
  : vars * list event * option suspended :=
  match p with
  | Ret _ => (v, [], None)
  | Throw _ => (v, [EConsole error_], None)
  | Do req k =>
      match local req v with
      | Some (v', x) =>
          let '(v'', tr, s) := turn (k x) ev n v' in (v'', event_of req x :: tr, s)
      | None =>
          if awaited req
          then (v, [EIssue req], Some {| pending := req; resume := k |})
          else
            let x := ev _ n req in
            let '(v'', tr, s) := turn (k x) ev (S n) v in (v'', event_of req x :: tr, s)
      end
  end.

(** A listener between two turns: its variables and its suspended
    invocations. *)
Record world : Type := mkWorld {
  closure : vars;
  pool : list suspended
}.

Definition init_world : world := {| closure := init_vars; pool := [] |}.

Definition opt_list {A : Type} (o : option A) : list A :=
  match o with Some a => [a] | None => [] end.

Definition remove_nth {A : Type} (i : nat) (l : list A) : list A :=
  firstn i l ++ skipn (S i) l.

Section Listener.

(** The subscriber of [cron.fire]: [handleFire(entry)], with the [.catch]
    that logs a rejection (the console error of [turn]). *)
Variable handleFire : Cron.CronFirePayload -> prog unit.

(** A [cron.fire] entry reaches the listener. *)
Definition dispatch (w : world) (entry : Cron.CronFirePayload) (ev : env)
  : world * list event :=
  let '(v, tr, s) := turn (handleFire entry) ev 0 (closure w) in
  ({| closure := v; pool := pool w ++ opt_list s |}, tr).

(** The promise a suspended invocation awaits settles with [x]. *)
Definition settle (w : world) (i : nat) (s : suspended) (x : answer s) (ev : env)
  : world * list event :=
  let '(v, tr, s') := turn (resume s x) ev 0 (closure w) in
  ({| closure := v; pool := remove_nth i (pool w) ++ opt_list s' |}, tr).

Inductive reachable : world -> Prop :=
| reach_init : reachable init_world
| reach_dispatch w entry ev : reachable w -> reachable (fst (dispatch w entry ev))
| reach_settle w i s x ev :
    reachable w -> nth_error (pool w) i = Some s -> reachable (fst (settle w i s x ev)).

End Listener.

(** An invocation is in progress. *)
Definition busy (w : world) : Prop := pool w <> [].

(** The events that reach the engine, a channel or the log. *)
Definition outward (e : event) : bool :=
  match e with
  | EAsk _ _ _ | EDeliver _ _ _ | EAppend _ _ _ | EIssue _ => true
  | _ => false
  end.

Definition touches_flag {X : Type} (req : request X) : bool :=
  match req with
  | GetProcessing | SetProcessing _ => true
  | _ => false
  end.

(** [p] never reads or writes [processing]. *)
Fixpoint no_flag {A : Type} (p : prog A) : Prop :=
  match p with
  | Ret _ | Throw _ => True
  | Do req k => touches_flag req = false /\ forall x, no_flag (k x)
  end.

(** [p] is the rest of a guarded invocation: a body that leaves
    [processing] alone, inside [finally { processing = false }]. *)
Definition releases (p : prog unit) : Prop :=
  exists body, no_flag body /\ p = finally_ body (call (SetProcessing false)).

(** The invariant of the in-progress guard. *)
Definition guarded (w : world) : Prop :=
  (processing (closure w) = false /\ pool w = [])
  \/ (processing (closure w) = true
      /\ exists s, pool w = [s] /\ forall x, releases (resume s x)).

(** What a guarded handler does in the turn a [cron.fire] entry starts. *)
Definition well_guarded (handleFire : Cron.CronFirePayload -> prog unit) : Prop :=
  forall entry ev v,
    (processing v = true ->
       exists tr, turn (handleFire entry) ev 0 v = (v, tr, None)
                  /\ forallb (fun e => negb (outward e)) tr = true)
    /\ (processing v = false ->
          let '(v', _, s) := turn (handleFire entry) ev 0 v in
          match s with
          | None => processing v' = false
          | Some s => processing v' = true /\ forall x, releases (resume s x)
          end).

(** *** The in-progress guard *)

Lemma no_flag_bind (A B : Type) (p : prog A) (f : A -> prog B) :
  no_flag p -> (forall a, no_flag (f a)) -> no_flag (bind p f).
Proof.
  intros Hp Hf. induction p as [a|e|X req k IH]; cbn; auto.
  destruct Hp as [Hreq Hk]. split; [exact Hreq|]. intros x. apply IH, Hk.
Qed.

Lemma no_flag_try_catch (A : Type) (p : prog A) (h : string -> prog A) :
  no_flag p -> (forall e, no_flag (h e)) -> no_flag (try_catch p h).
Proof.
  intros Hp Hh. induction p as [a|e|X req k IH]; cbn; auto.
  destruct Hp as [Hreq Hk]. split; [exact Hreq|]. intros x. apply IH, Hk.
Qed.

Lemma no_flag_call (X : Type) (req : request X) :
  touches_flag req = false -> no_flag (call req).
Proof. intros H. cbn. auto. Qed.

Lemma no_flag_await (X : Type) (req : request (result X)) :
  touches_flag req = false -> no_flag (await req).
Proof. intros H. cbn. split; [exact H|]. intros [x|e]; exact I. Qed.

Ltac no_flag_tac :=
  repeat first
    [ exact I
    | apply no_flag_call; reflexivity
    | apply no_flag_await; reflexivity
    | apply no_flag_bind
    | apply no_flag_try_catch
    | progress intros
    | progress cbv beta
    | match goal with
      | |- no_flag (if ?b then _ else _) => destruct b
      | |- no_flag (match ?x with _ => _ end) => destruct x
      end ].

(** Inside [finally { processing = false }], a turn either suspends with the
    flag still set or ends with the flag cleared. *)
Lemma turn_releases (body : prog unit) :
  no_flag body -> forall ev n v,
  processing v = true ->
  let '(v', _, s) := turn (finally_ body (call (SetProcessing false))) ev n v in
  match s with
  | None => processing v' = false
  | Some s => processing v' = true /\ forall x, releases (resume s x)
  end.
Proof.
  induction body as [a|e|X req k IH]; intros Hnf ev n v Hv.
  - reflexivity.
  - reflexivity.
  - destruct Hnf as [Hreq Hk]. cbn [finally_ turn].
    destruct req; cbn [local awaited]; try discriminate Hreq;
      try (split; [exact Hv|]; intros x; exists (k x); split; [apply Hk | reflexivity]).
    + specialize (IH (ev Z n Now) (Hk _) ev (S n) v Hv).
      destruct (turn _ ev (S n) v) as [[v' tr] s]. exact IH.
    + specialize (IH (ev unit n (Console l)) (Hk _) ev (S n) v Hv).
      destruct (turn _ ev (S n) v) as [[v' tr] s]. exact IH.
    + specialize (IH (ev _ n ResolveDeliveryTarget) (Hk _) ev (S n) v Hv).
      destruct (turn _ ev (S n) v) as [[v' tr] s]. exact IH.
    + specialize (IH (isDuplicate (dedup v) text nowMs) (Hk _) ev n v Hv).
      destruct (turn _ ev n v) as [[v' tr] s]. exact IH.
    + specialize (IH tt (Hk _) ev n
                    {| processing := processing v; dedup := record (dedup v) text nowMs |} Hv).
      destruct (turn _ ev n _) as [[v' tr] s]. exact IH.
Qed.

Lemma world_eta (w : world) : {| closure := closure w; pool := pool w |} = w.
Proof. destruct w; reflexivity. Qed.

Section Guard.

Variable handleFire : Cron.CronFirePayload -> prog unit.
Hypothesis Hguard : well_guarded handleFire.

Lemma reachable_guarded (w : world) : reachable handleFire w -> guarded w.
Proof.
  induction 1 as [|w entry ev Hw IH|w i s x ev Hw IH Hnth].
  - left. split; reflexivity.
  - unfold dispatch. destruct (Hguard entry ev (closure w)) as [Hbusy Hidle].
    destruct IH as [[Hp Hpool]|[Hp (s & Hpool & Hs)]].
    + specialize (Hidle Hp).
      destruct (turn (handleFire entry) ev 0 (closure w)) as [[v tr] [s|]]; cbn.
      * right. destruct Hidle as [Hv Hr]. split; [exact Hv|].
        exists s. rewrite Hpool. split; [reflexivity | exact Hr].
      * left. rewrite Hpool. split; [exact Hidle | reflexivity].
    + destruct (Hbusy Hp) as (tr & Ht & _). rewrite Ht. cbn.
      right. split; [exact Hp|]. exists s. rewrite Hpool. split; [reflexivity | exact Hs].
  - destruct IH as [[Hp Hpool]|[Hp (s0 & Hpool & Hs)]].
    + rewrite Hpool in Hnth. destruct i; discriminate Hnth.
    + rewrite Hpool in Hnth. destruct i as [|i]; [|destruct i; discriminate Hnth].
      cbn in Hnth. inversion Hnth; subst s0. clear Hnth.
      destruct (Hs x) as (body & Hnf & Hbody).
      pose proof (@turn_releases body Hnf ev 0%nat (closure w) Hp) as Ht.
      unfold settle. rewrite Hbody, Hpool.
      destruct (turn _ ev 0 (closure w)) as [[v tr] [s'|]]; cbn.
      * right. destruct Ht as [Hv Hr]. split; [exact Hv|]. exists s'. auto.
      * left. auto.
Qed.

End Guard.

End Async.

(** ** Cron listener ([createCronListener] of [task/cron/listener]) *)

Module CronListener.

Import Async.
Local Open Scope prog_scope.

Definition HEARTBEAT_JOB_NAME : string := HeartbeatParse.HEARTBEAT_JOB_NAME.

Definition HISTORY_PREAMBLE : string :=
  "The following is the recent cron session conversation. This is an automated cron job execution.".

(** The [try] / [catch] of [handleFire]. *)
Definition process (payload : Cron.CronFirePayload) (startMs : Z) : prog unit :=
  try_catch
    (result <- await (AskWithSession (Cron.firePayload payload) HISTORY_PREAMBLE) ;;
     target <- call ResolveDeliveryTarget ;;
     match target with
     | Some t => try_catch (await (Deliver t result)) (fun _ => call (Console warn))
     | None => Ret tt
     end ;;
     t <- call Now ;;
     await (Append "cron.done"
              (CronDone (Cron.jobId payload) (Cron.jobName payload) result (t - startMs))))
    (fun err =>
       call (Console error_) ;;
       t <- call Now ;;
       await (Append "cron.error"
                (CronError (Cron.jobId payload) (Cron.jobName payload) err (t - startMs)))).

Definition handleFire (payload : Cron.CronFirePayload) : prog unit :=
  if String.eqb (Cron.jobName payload) HEARTBEAT_JOB_NAME then Ret tt
  else
    busy <- call GetProcessing ;;
    if busy then call (Console warn)
    else
      call (SetProcessing true) ;;
      startMs <- call Now ;;
      finally_ (process payload startMs) (call (SetProcessing false)).

Lemma cron_process_no_flag (payload : Cron.CronFirePayload) (startMs : Z) :
  no_flag (process payload startMs).
Proof. unfold process. no_flag_tac. Qed.

Lemma cron_handleFire_well_guarded : well_guarded handleFire.
Proof.
  intros payload ev v. unfold handleFire.
  destruct (String.eqb (Cron.jobName payload) HEARTBEAT_JOB_NAME).
  - split; intros Hv; cbn; [exists []; auto | exact Hv].
  - split; intros Hv.
    + cbn. rewrite Hv. cbn. eexists. split; reflexivity.
    + cbn -[finally_ process]. rewrite Hv. cbn -[finally_ process].
      pose proof (@turn_releases _ (cron_process_no_flag payload (ev Z 0%nat Now)) ev 1%nat
                    {| processing := true; dedup := dedup v |} eq_refl) as H.
      destruct (turn (finally_ _ _) ev 1 _) as [[v' tr] s]. exact H.
Qed.

End CronListener.

(** ** Heartbeat handler ([src/task/heartbeat/heartbeat.ts], [handleFire]) *)

Module Heartbeat.

Import HeartbeatParse Async.
Local Open Scope prog_scope.

Definition HISTORY_PREAMBLE : string :=
  "The following is the recent heartbeat conversation history.".

Section Handler.

Variable config : HeartbeatConfig.
Variable currentMinutesInTimezone : string -> option Z -> Z.

(** Step 5 and 6: deliver, record, and the [heartbeat.done] event. *)
Definition deliver_and_finish (text reason : string) (durationMs : Z) : prog unit :=
  target <- call ResolveDeliveryTarget ;;
  delivered <-
    match target with
    | Some t =>
        try_catch
          (await (Deliver t text) ;;
           now <- call Now ;;
           call (Record_ text now) ;;
           Ret true)
          (fun _ => call (Console warn) ;; Ret false)
    | None => Ret false
    end ;;
  call (Console log) ;;
  await (Append "heartbeat.done" (HeartbeatDone text reason durationMs delivered)).

(** Step 3 and 4, on the reply of the engine. *)
Definition on_reply (resultText : string) (durationMs : Z) : prog unit :=
  let parsed := parseHeartbeatResponse resultText in
  match status parsed with
  | HEARTBEAT_OK =>
      call (Console log) ;;
      await (Append "heartbeat.skip" (HeartbeatSkip "ack" (Some (reason parsed))))
  | CHAT_NO =>
      call (Console log) ;;
      await (Append "heartbeat.skip" (HeartbeatSkip "chat-no" (Some (reason parsed))))
  | CHAT_YES =>
      let text := if JS.is_empty (content parsed) then resultText else content parsed in
      if JS.is_empty (JS.trim text) then
        call (Console log) ;;
        await (Append "heartbeat.skip" (HeartbeatSkip "empty" None))
      else
        now <- call Now ;;
        duplicate <- call (IsDuplicate text now) ;;
        if duplicate then
          call (Console log) ;;
          await (Append "heartbeat.skip" (HeartbeatSkip "duplicate" None))
        else deliver_and_finish text (reason parsed) durationMs
  end.

(** The [try] / [catch] of [handleFire]. *)
Definition process (payload : Cron.CronFirePayload) (startMs : Z) : prog unit :=
  try_catch
    (now <- call Now ;;
     if negb (isWithinActiveHours currentMinutesInTimezone (activeHours config) (Some now))
     then
       call (Console log) ;;
       await (Append "heartbeat.skip" (HeartbeatSkip "outside-active-hours" None))
     else
       result <- await (AskWithSession (Cron.firePayload payload) HISTORY_PREAMBLE) ;;
       now' <- call Now ;;
       on_reply result (now' - startMs))
    (fun err =>
       call (Console error_) ;;
       now <- call Now ;;
       await (Append "heartbeat.error" (HeartbeatError err (now - startMs)))).

Definition handleFire (payload : Cron.CronFirePayload) : prog unit :=
  if negb (String.eqb (Cron.jobName payload) HEARTBEAT_JOB_NAME) then Ret tt
  else
    busy <- call GetProcessing ;;
    if busy then Ret tt
    else
      call (SetProcessing true) ;;
      startMs <- call Now ;;
      call (Console log) ;;
      finally_ (process payload startMs) (call (SetProcessing false)).

End Handler.

(** *** Traces *)

(** [dedup.record(text, _)] was called. *)
Definition recorded (tr : list event) (text : string) : bool :=
  existsb (fun e => match e with ERecord x _ => String.eqb x text | _ => false end) tr.

(** [target.deliver(text)] was called. *)
Definition attempted (tr : list event) (text : string) : bool :=
  existsb (fun e => match e with EDeliver _ x _ => String.eqb x text | _ => false end) tr.

(** [target.deliver(text)] was called and resolved. *)
Definition delivered_ok (tr : list event) (text : string) : bool :=
  existsb (fun e => match e with EDeliver _ x (Ok _) => String.eqb x text | _ => false end) tr.

Definition delivered_any (tr : list event) : bool :=
  existsb (fun e => match e with EDeliver _ _ (Ok _) => true | _ => false end) tr.

(** A [heartbeat.skip] event with reason [empty] was appended. *)
Definition skipped_empty (tr : list event) : bool :=
  existsb (fun e => match e with
                    | EAppend _ (HeartbeatSkip r _) _ => String.eqb r "empty"
                    | _ => false
                    end) tr.

(** An environment for concrete runs: the engine replies [reply], a target
    is registered, [deliver] settles as [delivery], appends succeed, and the
    clock ticks at every request. *)
Definition scripted (reply : string) (delivery : result unit) : env :=
  fun X n req =>
    match req in request T return T with
    | AskWithSession _ _ => Ok reply
    | Deliver _ _ => delivery
    | Append _ _ => Ok tt
    | Now => 1700000000000 + Z.of_nat n
    | Console _ => tt
    | ResolveDeliveryTarget => Some "telegram"
    | GetProcessing => false
    | SetProcessing _ => tt
    | IsDuplicate _ _ => false
    | Record_ _ _ => tt
    end.

Definition demo_config : HeartbeatConfig :=
  {| enabled := true; every := "30m"; prompt := "Check if anything needs attention.";
     activeHours := None |}.

Definition heartbeat_fire : Cron.CronFirePayload :=
  {| Cron.jobId := "a1b2c3d4"; Cron.jobName := HEARTBEAT_JOB_NAME;
     Cron.firePayload := "Check if anything needs attention." |}.

Definition no_clock : string -> option Z -> Z := fun _ _ => 0.

(** The reply of the test 'should handle CHAT_YES without CONTENT field'. *)
Definition chat_yes_no_content : string :=
  "STATUS: CHAT_YES" ++ NL ++ "REASON: Want to say hi.".

Definition cron_fire : Cron.CronFirePayload :=
  {| Cron.jobId := "0f1e2d3c"; Cron.jobName := "check-eth";
     Cron.firePayload := "Check ETH price" |}.

Definition asking : world :=
  fst (dispatch CronListener.handleFire init_world cron_fire (scripted "ok" (Ok tt))).

Definition market_alert : string :=
  "STATUS: CHAT_YES" ++ NL ++ "REASON: x" ++ NL ++ "CONTENT: Market alert: BTC dropped 5%".

Definition daytime_only : HeartbeatConfig :=
  {| enabled := true; every := "30m"; prompt := "Check if anything needs attention.";
     activeHours := Some {| start := "09:00"; end_ := "22:00"; timezone := "local" |} |}.

(** The two listeners of [cron.fire]. *)
Inductive listener : Type :=
| TheCronListener
| TheHeartbeat (config : HeartbeatConfig) (currentMinutesInTimezone : string -> option Z -> Z).

Definition handler (l : listener) : Cron.CronFirePayload -> prog unit :=
  match l with
  | TheCronListener => CronListener.handleFire
  | TheHeartbeat config clock => handleFire config clock
  end.

(** *** The in-progress guard *)

Lemma heartbeat_process_no_flag config clock (payload : Cron.CronFirePayload) (startMs : Z) :
  no_flag (process config clock payload startMs).
Proof. unfold process, on_reply, deliver_and_finish. no_flag_tac. Qed.

Lemma heartbeat_handleFire_well_guarded config clock : well_guarded (handleFire config clock).
Proof.
  intros payload ev v. unfold handleFire.
  destruct (negb (String.eqb (Cron.jobName payload) HEARTBEAT_JOB_NAME)).
  - split; intros Hv; cbn; [exists []; auto | exact Hv].
  - split; intros Hv.
    + cbn. rewrite Hv. cbn. eexists. split; reflexivity.
    + cbn -[finally_ process]. rewrite Hv. cbn -[finally_ process].
      pose proof (@turn_releases _ (heartbeat_process_no_flag config clock payload (ev Z 0%nat Now))
                    ev 2%nat {| processing := true; dedup := dedup v |} eq_refl) as H.
      destruct (turn (finally_ _ _) ev 2 _) as [[v' tr] s]. exact H.
Qed.

Lemma handler_well_guarded (l : listener) : well_guarded (handler l).
Proof.
  destruct l; [apply CronListener.cron_handleFire_well_guarded | apply heartbeat_handleFire_well_guarded].
Qed.

(** C3. A [cron.fire] entry that reaches a listener (the cron listener or
    the heartbeat) while an invocation of that listener is in progress is
    dropped: the handler returns in the same turn without calling the
    engine, delivering or appending, and the listener is left exactly as it
    was, with nothing kept of the entry for later. *)
Theorem busy_listener_drops_fire (l : listener) (w : world)
    (entry : Cron.CronFirePayload) (ev : env) :
  reachable (handler l) w -> busy w ->
  exists tr, dispatch (handler l) w entry ev = (w, tr)
             /\ forallb (fun e => negb (outward e)) tr = true.
Proof.
  intros Hw Hbusy.
  pose proof (handler_well_guarded l) as Hguard.
  (* an invocation in progress holds the flag *)
  destruct (reachable_guarded Hguard Hw) as [[_ Hpool]|[Hp _]]; [contradiction|].
  (* with the flag set the handler returns within the turn *)
  destruct (Hguard entry ev (closure w)) as [Hdrop _].
  destruct (Hdrop Hp) as (tr & Ht & Hquiet).
  exists tr. unfold dispatch. rewrite Ht. cbn [opt_list].
  rewrite app_nil_r, world_eta. auto.
Qed.

Lemma busy_listener_drops_fire_witness :
  reachable (handler TheCronListener) asking
  /\ busy asking
  /\ exists tr, dispatch (handler TheCronListener) asking cron_fire (scripted "ok" (Ok tt))
                = (asking, tr)
                /\ forallb (fun e => negb (outward e)) tr = true.
Proof.
  assert (Hr : reachable (handler TheCronListener) asking)
    by (apply reach_dispatch, reach_init).
  assert (Hb : busy asking) by (intros H; discriminate H).
  split; [exact Hr|]. split; [exact Hb|].
  exact (@busy_listener_drops_fire TheCronListener asking cron_fire
           (scripted "ok" (Ok tt)) Hr Hb).
Defined.

(** An idle listener starts the engine call; the busy one only warns. *)
Example idle_then_busy :
  snd (dispatch CronListener.handleFire init_world cron_fire (scripted "ok" (Ok tt)))
  = [EGetProcessing false; ESetProcessing true; ENow 1700000000000;
     EIssue (AskWithSession "Check ETH price" CronListener.HISTORY_PREAMBLE)]
  /\ snd (dispatch CronListener.handleFire asking cron_fire (scripted "ok" (Ok tt)))
     = [EGetProcessing true; EConsole warn].
Proof. vm_compute. split; reflexivity. Qed.

(** *** Symbolic runs of the handler *)

Ltac head_block p :=
  lazymatch p with
  | finally_ ?q _ => head_block q
  | try_catch ?q _ => head_block q
  | bind ?q _ => head_block q
  | (if ?c then _ else _) => destruct c eqn:?
  | (match ?c with _ => _ end) => destruct c eqn:?
  end.

Ltac walk :=
  repeat (cbn -[parseHeartbeatResponse isWithinActiveHours JS.trim JS.is_empty String.eqb];
          match goal with
          | |- context [run ?p _ _ _] => head_block p
          end);
  cbn -[parseHeartbeatResponse isWithinActiveHours JS.trim JS.is_empty String.eqb].

(** *** The deliverable branch *)

Lemma trimmed_group_not_blank (m : option Regex.captures) :
  JS.is_empty (trimmed_group m) = false ->
  JS.is_empty (JS.trim (trimmed_group m)) = false.
Proof.
  unfold trimmed_group. destruct m as [cs|]; [|discriminate].
  destruct (Regex.group 1 cs); [|discriminate]. apply JS.trim_trim_not_empty.
Qed.

(** The text of the deliverable branch is never blank. *)
Lemma deliverable_text_not_blank (raw : string) :
  status (parseHeartbeatResponse raw) = CHAT_YES ->
  JS.is_empty
    (JS.trim (if JS.is_empty (content (parseHeartbeatResponse raw)) then raw
              else content (parseHeartbeatResponse raw))) = false.
Proof.
  unfold parseHeartbeatResponse.
  destruct (JS.is_empty (JS.trim raw)) eqn:E; [discriminate|].
  destruct (Regex.exec STATUS_RE (JS.trim raw)) as [m|]; cbn [status content]; intros _.
  - destruct (JS.is_empty (trimmed_group _)) eqn:Ec; [exact E|].
    apply trimmed_group_not_blank, Ec.
  - rewrite E. apply JS.trim_trim_not_empty, E.
Qed.

(** No run of the handler appends a skip with reason [empty]. *)
Lemma empty_skip_unreachable config clock payload (ev : env) (v : vars) :
  let '(_, tr, _) := run (handleFire config clock payload) ev 0 v in
  skipped_empty tr = false.
Proof.
  unfold handleFire, process, on_reply, deliver_and_finish. walk.
  all: try reflexivity.
  all: match goal with
       | Hs : status (parseHeartbeatResponse ?r) = CHAT_YES,
         Hb : JS.is_empty (JS.trim _) = true |- _ =>
           rewrite (deliverable_text_not_blank r Hs) in Hb; discriminate Hb
       end.
Qed.

(** C7. On the reply [STATUS: CHAT_YES] with a reason and no content
    (parsed status CHAT_YES, empty content), with a delivery target
    registered, the handler delivers the raw reply and appends
    [heartbeat.done]; it appends no [heartbeat.skip]. *)
Theorem chat_yes_without_content_is_delivered :
  status (parseHeartbeatResponse chat_yes_no_content) = CHAT_YES
  /\ content (parseHeartbeatResponse chat_yes_no_content) = EmptyString
  /\ run (handleFire demo_config no_clock heartbeat_fire)
         (scripted chat_yes_no_content (Ok tt)) 0 init_vars
     = ({| processing := false;
           dedup := record new_HeartbeatDedup chat_yes_no_content 1700000000008 |},
        [EGetProcessing false; ESetProcessing true; ENow 1700000000000; EConsole log;
         ENow 1700000000002;
         EAsk "Check if anything needs attention." HISTORY_PREAMBLE (Ok chat_yes_no_content);
         ENow 1700000000004; ENow 1700000000005;
         EIsDuplicate chat_yes_no_content 1700000000005 false;
         EResolve (Some "telegram");
         EDeliver "telegram" chat_yes_no_content (Ok tt);
         ENow 1700000000008;
         ERecord chat_yes_no_content 1700000000008;
         EConsole log;
         EAppend "heartbeat.done"
           (HeartbeatDone chat_yes_no_content "Want to say hi." 4 true) (Ok tt);
         ESetProcessing false],
        Returned tt).
Proof. vm_compute. repeat split; reflexivity. Qed.

(** *** The handlers on the scenarios of the test suites *)

Example delivers_content_once_then_suppresses_duplicate :
  let '(v1, tr1, _) :=
    run (handleFire demo_config no_clock heartbeat_fire) (scripted market_alert (Ok tt))
        0 init_vars in
  let '(_, tr2, _) :=
    run (handleFire demo_config no_clock heartbeat_fire) (scripted market_alert (Ok tt))
        0 v1 in
  List.filter outward tr1
  = [EAsk "Check if anything needs attention." HISTORY_PREAMBLE (Ok market_alert);
     EDeliver "telegram" "Market alert: BTC dropped 5%" (Ok tt);
     EAppend "heartbeat.done" (HeartbeatDone "Market alert: BTC dropped 5%" "x" 4 true) (Ok tt)]
  /\ List.filter outward tr2
     = [EAsk "Check if anything needs attention." HISTORY_PREAMBLE (Ok market_alert);
        EAppend "heartbeat.skip" (HeartbeatSkip "duplicate" None) (Ok tt)].
Proof. vm_compute. split; reflexivity. Qed.

Example ack_is_skipped :
  let '(_, tr, _) :=
    run (handleFire demo_config no_clock heartbeat_fire)
        (scripted ("STATUS: HEARTBEAT_OK" ++ NL ++ "REASON: All good.") (Ok tt)) 0 init_vars in
  List.filter outward tr
  = [EAsk "Check if anything needs attention." HISTORY_PREAMBLE
       (Ok ("STATUS: HEARTBEAT_OK" ++ NL ++ "REASON: All good.")%string);
     EAppend "heartbeat.skip" (HeartbeatSkip "ack" (Some "All good.")) (Ok tt)].
Proof. vm_compute. reflexivity. Qed.

(** At 03:00 on the wall clock, outside 09:00-22:00, the engine is not called. *)
Example outside_active_hours_is_skipped :
  let '(_, tr, _) :=
    run (handleFire daytime_only (fun _ _ => 180) heartbeat_fire)
        (scripted market_alert (Ok tt)) 0 init_vars in
  List.filter outward tr
  = [EAppend "heartbeat.skip" (HeartbeatSkip "outside-active-hours" None) (Ok tt)].
Proof. vm_compute. reflexivity. Qed.

Example cron_listener_delivers_and_logs :
  let '(_, tr, _) :=
    run (CronListener.handleFire cron_fire) (scripted "ETH is at 3000" (Ok tt)) 0 init_vars in
  List.filter outward tr
  = [EAsk "Check ETH price" CronListener.HISTORY_PREAMBLE (Ok "ETH is at 3000");
     EDeliver "telegram" "ETH is at 3000" (Ok tt);
     EAppend "cron.done" (CronDone "0f1e2d3c" "check-eth" "ETH is at 3000" 4) (Ok tt)].
Proof. vm_compute. reflexivity. Qed.

(** *** Dedup *)

Lemma failed_delivery_is_not_recorded :
  ~ (forall config clock payload (ev : env) (v : vars) (text : string),
       let '(_, tr, _) := run (handleFire config clock payload) ev 0 v in
       recorded tr text = attempted tr text).
Proof.
  intros H.
  specialize (H demo_config no_clock heartbeat_fire
                (scripted ("STATUS: CHAT_YES" ++ NL ++ "CONTENT: hi") (Err "delivery failed"))
                init_vars "hi").
  vm_compute in H. discriminate H.
Qed.

(** C8 (amended). In every run of the handler, the dedup entry is recorded
    for a text exactly when a delivery of that text was attempted and
    succeeded: without a successful delivery (no target, or a delivery that
    failed) the dedup state is unchanged, and after a successful delivery of
    a text that text is the last recorded one. *)
Theorem dedup_recorded_iff_delivered config clock payload (ev : env) (v : vars) :
  let '(v', tr, _) := run (handleFire config clock payload) ev 0 v in
  (forall text, recorded tr text = delivered_ok tr text)
  /\ (delivered_any tr = false -> dedup v' = dedup v)
  /\ (forall text, delivered_ok tr text = true -> lastText (dedup v') = Some text).
Proof.
  unfold handleFire, process, on_reply, deliver_and_finish. walk.
  all: repeat split; try reflexivity; try discriminate.
  all: intros text H; rewrite orb_false_r in H; apply String.eqb_eq in H; now subst.
Qed.

(** *** What a fire leaves in the log *)

Definition is_append (e : event) : bool :=
  match e with EAppend _ _ _ => true | _ => false end.

Definition is_deliver (e : event) : bool :=
  match e with EDeliver _ _ _ => true | _ => false end.

Definition is_ask (e : event) : bool :=
  match e with EAsk _ _ _ => true | _ => false end.

(** How an invocation settles when its last awaited request settles as [r]. *)
Definition settled (r : result unit) : outcome unit :=
  match r with Ok _ => Returned tt | Err e => Thrown e end.

Ltac in_tac := cbn [In]; repeat (first [left; reflexivity | right]).

Ltac pick H :=
  cbn [In] in H; repeat (destruct H as [H|H]; [try discriminate H|]); try contradiction.

(** X25. A heartbeat fire that finds the handler idle leaves it idle again
    and exactly one record in the log: one [heartbeat.skip], [heartbeat.done]
    or [heartbeat.error] event.  Only when the append of a skip or done event
    is rejected is a second event appended, the [heartbeat.error] carrying
    that rejection.  A failure of the engine is logged as [heartbeat.error]
    with the engine's message.  The handler rejects only when the append of
    the error event itself is rejected. *)
Theorem heartbeat_fire_is_logged_once config clock payload (ev : env) (v : vars) :
  Cron.jobName payload = HEARTBEAT_JOB_NAME ->
  processing v = false ->
  let '(v', tr, o) := run (handleFire config clock payload) ev 0 v in
  processing v' = false
  /\ ((exists ty p r,
         List.filter is_append tr = [EAppend ty p r] /\ o = settled r
         /\ (ty = "heartbeat.error"
             \/ (r = Ok tt /\ (ty = "heartbeat.skip" \/ ty = "heartbeat.done"))))
      \/ (exists ty p e d r,
            List.filter is_append tr
            = [EAppend ty p (Err e); EAppend "heartbeat.error" (HeartbeatError e d) r]
            /\ (ty = "heartbeat.skip" \/ ty = "heartbeat.done") /\ o = settled r))
  /\ (forall prompt preamble e, In (EAsk prompt preamble (Err e)) tr ->
        List.filter is_deliver tr = []
        /\ exists d r,
             List.filter is_append tr = [EAppend "heartbeat.error" (HeartbeatError e d) r]).
Proof.
  intros Hname Hidle. destruct v as [pr dd]. cbn in Hidle. subst pr.
  unfold handleFire. rewrite Hname, String.eqb_refl. cbn [negb].
  unfold process, on_reply, deliver_and_finish. walk.
  all: split; [reflexivity|].
  all: repeat match goal with u : unit |- _ => destruct u end.
  all: split;
    [|intros prompt preamble e Hin; pick Hin;
      (inversion Hin; subst; clear Hin;
       split; [reflexivity | do 2 eexists; reflexivity])].
  all: first
    [ left; do 3 eexists; split; [reflexivity|]; split; [reflexivity|];
      first [ left; reflexivity
            | right; split; [reflexivity|]; first [left; reflexivity | right; reflexivity] ]
    | right; do 5 eexists; split; [reflexivity|];
      split; [first [left; reflexivity | right; reflexivity] | reflexivity] ].
Qed.

(** *** When the heartbeat delivers *)

(** A text is handed to [deliver] only after the dedup check has passed. *)
Lemma delivery_follows_dedup_check config clock payload (ev : env) (v : vars) :
  let '(v', tr, o) := run (handleFire config clock payload) ev 0 v in
  forall tg text r, In (EDeliver tg text r) tr ->
    exists now, In (EIsDuplicate text now false) tr
                /\ isDuplicate (dedup v) text now = false.
Proof.
  unfold handleFire, process, on_reply, deliver_and_finish. walk.
  all: intros tg text r Hin; pick Hin.
  all: inversion Hin; subst; clear Hin.
  all: eexists; split; [in_tac | assumption].
Qed.

(** X26. The heartbeat delivers at most once per fire, and only a fresh
    CHAT_YES: every call of [deliver] in a run of the handler is the only one
    of the run, goes to the target the registry resolved, and carries the
    content of a reply parsed as CHAT_YES (the raw reply when the content is
    empty), which is not blank and which the dedup state at the start of
    the run did not hold as a duplicate, at a time inside the active hours.
    Acknowledgements, CHAT_NO replies, duplicates and fires outside the
    active hours are never delivered. *)
Theorem heartbeat_delivers_only_fresh_chat_yes config clock payload (ev : env) (v : vars) :
  let '(v', tr, o) := run (handleFire config clock payload) ev 0 v in
  forall tg text r, In (EDeliver tg text r) tr ->
    Cron.jobName payload = HEARTBEAT_JOB_NAME
    /\ List.filter is_deliver tr = [EDeliver tg text r]
    /\ In (EResolve (Some tg)) tr
    /\ JS.is_empty (JS.trim text) = false
    /\ (exists reply,
          In (EAsk (Cron.firePayload payload) HISTORY_PREAMBLE (Ok reply)) tr
          /\ status (parseHeartbeatResponse reply) = CHAT_YES
          /\ text = (if JS.is_empty (content (parseHeartbeatResponse reply)) then reply
                     else content (parseHeartbeatResponse reply)))
    /\ (exists now, In (EIsDuplicate text now false) tr
                    /\ isDuplicate (dedup v) text now = false)
    /\ (exists t, In (ENow t) tr
                  /\ isWithinActiveHours clock (activeHours config) (Some t) = true).
Proof.
  unfold handleFire.
  destruct (String.eqb_spec (Cron.jobName payload) HEARTBEAT_JOB_NAME) as [Hname|Hname];
    cbn [negb]; [|cbn; intros tg text r []].
  unfold process, on_reply, deliver_and_finish. walk.
  all: intros tg text r Hin; pick Hin.
  all: inversion Hin; subst; clear Hin.
  all: split; [exact Hname|].
  all: split; [reflexivity|].
  all: split; [in_tac|].
  all: split; [assumption|].
  all: split; [eexists; split; [in_tac|]; split; [eassumption|reflexivity]|].
  all: split; [eexists; split; [in_tac|]; assumption|].
  all: exists (ev Z 2%nat Now); split; [in_tac|].
  all: apply negb_false_iff; assumption.
Qed.

Lemma heartbeat_record_state config clock payload (ev : env) (v : vars) :
  let '(v', tr, _) := run (handleFire config clock payload) ev 0 v in
  forall text t, In (ERecord text t) tr -> dedup v' = record (dedup v) text t.
Proof.
  unfold handleFire, process, on_reply, deliver_and_finish. walk.
  all: intros text0 time0 Hin; pick Hin.
  all: inversion Hin; subst; reflexivity.
Qed.

(** A run without a successful delivery leaves the dedup state as it was. *)
Lemma heartbeat_quiet_state config clock payload (ev : env) (v : vars) :
  let '(v', tr, _) := run (handleFire config clock payload) ev 0 v in
  (forall tg text, ~ In (EDeliver tg text (Ok tt)) tr) -> dedup v' = dedup v.
Proof.
  unfold handleFire, process, on_reply, deliver_and_finish. walk.
  all: repeat match goal with u : unit |- _ => destruct u end.
  all: intros Hq; try reflexivity.
  all: exfalso; eapply Hq; in_tac.
Qed.

(** A series of fires handled one after the other, each run to its end: the
    variables the last run leaves, and the traces of the runs in order. *)
Fixpoint runs (config : HeartbeatConfig) (clock : string -> option Z -> Z)
    (fires : list (Cron.CronFirePayload * env)) (v : vars) : vars * list (list event) :=
  match fires with
  | [] => (v, [])
  | (payload, ev) :: rest =>
      let '(v', tr, _) := run (handleFire config clock payload) ev 0 v in
      let '(v'', trs) := runs config clock rest v' in
      (v'', tr :: trs)
  end.

Lemma runs_quiet config clock (fires : list (Cron.CronFirePayload * env)) : forall v,
  let '(v', trs) := runs config clock fires v in
  (forall tr tg text, In tr trs -> ~ In (EDeliver tg text (Ok tt)) tr) -> dedup v' = dedup v.
Proof.
  induction fires as [|[payload ev] rest IH]; intros v; cbn [runs]; [reflexivity|].
  pose proof (heartbeat_quiet_state config clock payload ev v) as H1.
  destruct (run (handleFire config clock payload) ev 0 v) as [[v1 tr] o].
  specialize (IH v1). destruct (runs config clock rest v1) as [v2 trs].
  intros Hq. rewrite IH, H1; [reflexivity | |].
  - intros tg text. apply Hq. now left.
  - intros tr' tg text Hin. apply Hq. now right.
Qed.

(** X27. The last delivered message is not delivered again within the
    dedup window.  When a run of the handler has delivered a text and
    recorded it at time [t], and the runs after it delivered nothing, a later
    run of the same heartbeat calls [deliver] with that text only if its
    clock reads at least [windowMs] (24 h by default) after [t].  The dedup
    holds one text only: a different message delivered in between clears the
    way for the first one. *)
Theorem no_repeat_delivery_within_window config clock payload1 payload2
    (between : list (Cron.CronFirePayload * env)) (ev1 ev2 : env) (v : vars)
    (text : string) (t : Z) :
  let '(v1, tr1, _) := run (handleFire config clock payload1) ev1 0 v in
  let '(v2, trs) := runs config clock between v1 in
  let '(_, tr3, _) := run (handleFire config clock payload2) ev2 0 v2 in
  In (ERecord text t) tr1 ->
  (forall tr tg x, In tr trs -> ~ In (EDeliver tg x (Ok tt)) tr) ->
  forall tg r, In (EDeliver tg text r) tr3 ->
  exists now, In (EIsDuplicate text now false) tr3 /\ windowMs (dedup v) <= now - t.
Proof.
  pose proof (heartbeat_record_state config clock payload1 ev1 v) as H1.
  destruct (run (handleFire config clock payload1) ev1 0 v) as [[v1 tr1] o1].
  pose proof (runs_quiet config clock between v1) as Hmid.
  destruct (runs config clock between v1) as [v2 trs].
  pose proof (delivery_follows_dedup_check config clock payload2 ev2 v2) as H2.
  destruct (run (handleFire config clock payload2) ev2 0 v2) as [[v3 tr3] o3].
  intros Hrec Hquiet tg r Hdel. specialize (H1 _ _ Hrec). specialize (Hmid Hquiet).
  destruct (H2 _ _ _ Hdel) as (now & Hin & Hdup).
  exists now. split; [exact Hin|].
  rewrite Hmid, H1 in Hdup. unfold isDuplicate, record in Hdup. cbn in Hdup.
  rewrite String.eqb_refl in Hdup. cbn in Hdup. apply Z.ltb_ge in Hdup. exact Hdup.
Qed.

(** *** The cron listener *)

(** X28. A fire of a job other than the heartbeat that finds the cron
    listener idle leaves it idle again, asks the engine once with the job's
    payload, and is logged.  When the engine replies, the reply goes to the
    delivery target if the registry resolves one, and [cron.done] is appended
    with the reply whether or not the delivery succeeded.  When the engine
    fails, nothing is delivered and [cron.error] is appended with its message.
    When the append of [cron.done] is rejected, [cron.error] is appended with
    that rejection; the handler rejects only when the append of [cron.error]
    itself is rejected. *)
Theorem cron_fire_is_answered_and_logged payload (ev : env) (v : vars) :
  Cron.jobName payload <> HEARTBEAT_JOB_NAME ->
  processing v = false ->
  let '(v', tr, o) := run (CronListener.handleFire payload) ev 0 v in
  let prompt := Cron.firePayload payload in
  let i := Cron.jobId payload in
  let n := Cron.jobName payload in
  processing v' = false
  /\ (exists r, List.filter is_ask tr = [EAsk prompt CronListener.HISTORY_PREAMBLE r])
  /\ (forall reply, In (EAsk prompt CronListener.HISTORY_PREAMBLE (Ok reply)) tr ->
        (exists d r, In (EAppend "cron.done" (CronDone i n reply d) r) tr)
        /\ (forall tg, In (EResolve (Some tg)) tr ->
              exists dr, List.filter is_deliver tr = [EDeliver tg reply dr])
        /\ (In (EResolve None) tr -> List.filter is_deliver tr = []))
  /\ (forall e, In (EAsk prompt CronListener.HISTORY_PREAMBLE (Err e)) tr ->
        List.filter is_deliver tr = []
        /\ exists d r, List.filter is_append tr = [EAppend "cron.error" (CronError i n e d) r])
  /\ ((exists ty p r,
         List.filter is_append tr = [EAppend ty p r] /\ o = settled r
         /\ (ty = "cron.error" \/ (r = Ok tt /\ ty = "cron.done")))
      \/ (exists p e d r,
            List.filter is_append tr
            = [EAppend "cron.done" p (Err e); EAppend "cron.error" (CronError i n e d) r]
            /\ o = settled r)).
Proof.
  intros Hname Hidle. destruct v as [pr dd]. cbn in Hidle. subst pr.
  unfold CronListener.handleFire.
  destruct (String.eqb_spec (Cron.jobName payload) CronListener.HEARTBEAT_JOB_NAME)
    as [E|_]; [contradiction|].
  unfold CronListener.process. walk.
  all: repeat match goal with u : unit |- _ => destruct u end.
  all: split; [reflexivity|]; split; [eexists; reflexivity|].
  all: split;
    [intros reply Hin; pick Hin;
     (inversion Hin; subst; clear Hin;
      split; [do 2 eexists; in_tac|];
      split; [intros tg Hin; pick Hin; (inversion Hin; subst; clear Hin;
                                        eexists; reflexivity)
             | intros Hin; pick Hin; reflexivity])
    |].
  all: split;
    [intros e Hin; pick Hin;
     (inversion Hin; subst; clear Hin;
      split; [reflexivity | do 2 eexists; reflexivity])
    |].
  all: first
    [ left; do 3 eexists; split; [reflexivity|]; split; [reflexivity|];
      first [ left; reflexivity | right; split; reflexivity ]
    | right; do 4 eexists; split; reflexivity ].
Qed.

(** *** Routing *)

(** X29. Every [cron.fire] entry has one handler: the cron listener
    ignores the fires of the heartbeat job and the heartbeat ignores all
    others; the listener that ignores an entry returns at once, with no
    request at all, and is left exactly as it was, busy or idle. *)
Theorem fire_has_one_handler config clock (payload : Cron.CronFirePayload)
    (w : world) (ev : env) :
  (Cron.jobName payload = HEARTBEAT_JOB_NAME ->
   dispatch CronListener.handleFire w payload ev = (w, []))
  /\ (Cron.jobName payload <> HEARTBEAT_JOB_NAME ->
      dispatch (handleFire config clock) w payload ev = (w, [])).
Proof.
  split; intros H; unfold dispatch, CronListener.handleFire, handleFire.
  - unfold CronListener.HEARTBEAT_JOB_NAME. rewrite H, String.eqb_refl. cbn.
    now rewrite app_nil_r, world_eta.
  - destruct (String.eqb_spec (Cron.jobName payload) HEARTBEAT_JOB_NAME); [contradiction|].
    cbn. now rewrite app_nil_r, world_eta.
Qed.

(** *** Active hours *)

(** X30. The heartbeat calls the engine at most once per fire, with the
    payload of the fire, and only after a clock reading inside the active
    hours.  With a window that no time is inside, a fire that finds the
    handler idle reaches neither the engine nor a delivery target, and
    appends [heartbeat.skip] with reason [outside-active-hours]. *)
Theorem heartbeat_asks_only_inside_active_hours config clock payload (ev : env) (v : vars) :
  let '(v', tr, o) := run (handleFire config clock payload) ev 0 v in
  (forall p h r, In (EAsk p h r) tr ->
     p = Cron.firePayload payload /\ h = HISTORY_PREAMBLE
     /\ List.filter is_ask tr = [EAsk p h r]
     /\ exists t, In (ENow t) tr
                  /\ isWithinActiveHours clock (activeHours config) (Some t) = true)
  /\ ((forall t, isWithinActiveHours clock (activeHours config) (Some t) = false) ->
      Cron.jobName payload = HEARTBEAT_JOB_NAME ->
      processing v = false ->
      List.filter is_ask tr = [] /\ List.filter is_deliver tr = []
      /\ exists r, In (EAppend "heartbeat.skip"
                         (HeartbeatSkip "outside-active-hours" None) r) tr).
Proof.
  unfold handleFire, process, on_reply, deliver_and_finish. walk.
  all: split;
    [intros p0 h0 r0 Hin; pick Hin;
     (inversion Hin; subst; clear Hin;
      split; [reflexivity|]; split; [reflexivity|]; split; [reflexivity|];
      exists (ev Z 2%nat Now); split; [in_tac | apply negb_false_iff; assumption])
    |].
  all: intros Hout Hname Hidle;
    try (rewrite Hname, String.eqb_refl in *; discriminate);
    try congruence.
  all: try (split; [reflexivity|]; split; [reflexivity|]; eexists; in_tac).
  all: match goal with
       | H : negb (isWithinActiveHours _ _ (Some ?t)) = false |- _ =>
           rewrite (Hout t) in H; discriminate H
       end.
Qed.

(** The statements above on the runs of the test suite. *)

Lemma heartbeat_fire_is_logged_once_witness :
  Cron.jobName heartbeat_fire = HEARTBEAT_JOB_NAME
  /\ processing init_vars = false
  /\ processing (fst (fst (run (handleFire demo_config no_clock heartbeat_fire)
                               (scripted market_alert (Ok tt)) 0 init_vars))) = false.
Proof.
  split; [reflexivity|]. split; [reflexivity|].
  pose proof (@heartbeat_fire_is_logged_once demo_config no_clock heartbeat_fire
                (scripted market_alert (Ok tt)) init_vars eq_refl eq_refl) as H.
  destruct (run (handleFire demo_config no_clock heartbeat_fire)
                (scripted market_alert (Ok tt)) 0 init_vars) as [[v' tr] o].
  exact (proj1 H).
Defined.

Lemma cron_fire_name : Cron.jobName cron_fire <> HEARTBEAT_JOB_NAME.
Proof. intros H. discriminate H. Defined.

Lemma cron_fire_is_answered_and_logged_witness :
  Cron.jobName cron_fire <> HEARTBEAT_JOB_NAME
  /\ processing init_vars = false
  /\ processing (fst (fst (run (CronListener.handleFire cron_fire)
                               (scripted "ETH is at 3000" (Err "offline")) 0 init_vars)))
     = false.
Proof.
  split; [exact cron_fire_name|]. split; [reflexivity|].
  pose proof (@cron_fire_is_answered_and_logged cron_fire
                (scripted "ETH is at 3000" (Err "offline")) init_vars
                cron_fire_name eq_refl) as H.
  destruct (run (CronListener.handleFire cron_fire)
                (scripted "ETH is at 3000" (Err "offline")) 0 init_vars) as [[v' tr] o].
  exact (proj1 H).
Defined.

(** A delivery that fails is swallowed: the cron listener still logs
    [cron.done] with the reply. *)
Example cron_listener_logs_done_after_failed_delivery :
  let '(_, tr, o) :=
    run (CronListener.handleFire cron_fire) (scripted "ETH is at 3000" (Err "offline"))
        0 init_vars in
  List.filter outward tr
  = [EAsk "Check ETH price" CronListener.HISTORY_PREAMBLE (Ok "ETH is at 3000");
     EDeliver "telegram" "ETH is at 3000" (Err "offline");
     EAppend "cron.done" (CronDone "0f1e2d3c" "check-eth" "ETH is at 3000" 5) (Ok tt)]
  /\ o = Returned tt.
Proof. vm_compute. split; reflexivity. Qed.

(** The statements about deliveries on the runs of the test suite. *)

Definition alert_text : string := "Market alert: BTC dropped 5%".

Definition first_run : vars * list event * outcome unit :=
  run (handleFire demo_config no_clock heartbeat_fire) (scripted market_alert (Ok tt))
      0 init_vars.

Lemma first_run_delivers : In (EDeliver "telegram" alert_text (Ok tt)) (snd (fst first_run)).
Proof. vm_compute. repeat (first [left; reflexivity | right]). Defined.

Lemma first_run_asks :
  In (EAsk "Check if anything needs attention." HISTORY_PREAMBLE (Ok market_alert))
     (snd (fst first_run)).
Proof. vm_compute. repeat (first [left; reflexivity | right]). Defined.

Lemma first_run_records : In (ERecord alert_text 1700000000008) (snd (fst first_run)).
Proof. vm_compute. repeat (first [left; reflexivity | right]). Defined.

Lemma heartbeat_delivers_only_fresh_chat_yes_witness :
  In (EDeliver "telegram" alert_text (Ok tt)) (snd (fst first_run))
  /\ List.filter is_deliver (snd (fst first_run)) = [EDeliver "telegram" alert_text (Ok tt)].
Proof.
  split; [exact first_run_delivers|].
  pose proof (@heartbeat_delivers_only_fresh_chat_yes demo_config no_clock heartbeat_fire
                (scripted market_alert (Ok tt)) init_vars) as H.
  pose proof first_run_delivers as Hin. unfold first_run in *.
  destruct (run (handleFire demo_config no_clock heartbeat_fire)
                (scripted market_alert (Ok tt)) 0 init_vars) as [[v' tr] o].
  exact (proj1 (proj2 (H _ _ _ Hin))).
Defined.

Lemma heartbeat_asks_only_inside_active_hours_witness :
  In (EAsk "Check if anything needs attention." HISTORY_PREAMBLE (Ok market_alert))
     (snd (fst first_run))
  /\ List.filter is_ask (snd (fst first_run))
     = [EAsk "Check if anything needs attention." HISTORY_PREAMBLE (Ok market_alert)].
Proof.
  split; [exact first_run_asks|].
  pose proof (@heartbeat_asks_only_inside_active_hours demo_config no_clock heartbeat_fire
                (scripted market_alert (Ok tt)) init_vars) as H.
  pose proof first_run_asks as Hin. unfold first_run in *.
  destruct (run (handleFire demo_config no_clock heartbeat_fire)
                (scripted market_alert (Ok tt)) 0 init_vars) as [[v' tr] o].
  exact (proj1 (proj2 (proj2 (proj1 H _ _ _ Hin)))).
Defined.

(** The environment of a fire at a later time: the engine gives [reply] and
    the clock starts at [base]. *)
Definition scripted_at (base : Z) (reply : string) : env :=
  fun X n req =>
    match req in request T return T with
    | Now => base + Z.of_nat n
    | r => scripted reply (Ok tt) n r
    end.

(** An acknowledgement the day after the alert, and the same alert two days
    after it. *)
Definition next_day : list (Cron.CronFirePayload * env) :=
  [(heartbeat_fire,
    scripted_at 1700086400000 ("STATUS: HEARTBEAT_OK" ++ NL ++ "REASON: All good."))].

Definition later_runs : vars * list (list event) :=
  runs demo_config no_clock next_day (fst (fst first_run)).

Definition last_run : vars * list event * outcome unit :=
  run (handleFire demo_config no_clock heartbeat_fire) (scripted_at 1700172800000 market_alert)
      0 (fst later_runs).

Lemma last_run_delivers : In (EDeliver "telegram" alert_text (Ok tt)) (snd (fst last_run)).
Proof. vm_compute. repeat (first [left; reflexivity | right]). Defined.

Lemma next_day_is_quiet (tr : list event) (tg : Target) (x : string) :
  In tr (snd later_runs) -> ~ In (EDeliver tg x (Ok tt)) tr.
Proof.
  intros [<-|[]] Hin. vm_compute in Hin.
  repeat (destruct Hin as [Hin|Hin]; [discriminate Hin|]). exact Hin.
Defined.

Lemma no_repeat_delivery_within_window_witness :
  In (ERecord alert_text 1700000000008) (snd (fst first_run))
  /\ In (EDeliver "telegram" alert_text (Ok tt)) (snd (fst last_run))
  /\ exists now, In (EIsDuplicate alert_text now false) (snd (fst last_run))
                 /\ windowMs (dedup init_vars) <= now - 1700000000008.
Proof.
  split; [exact first_run_records|]. split; [exact last_run_delivers|].
  pose proof (@no_repeat_delivery_within_window demo_config no_clock heartbeat_fire
                heartbeat_fire next_day (scripted market_alert (Ok tt))
                (scripted_at 1700172800000 market_alert) init_vars
                alert_text 1700000000008) as H.
  pose proof first_run_records as Hrec. pose proof last_run_delivers as Hdel.
  pose proof next_day_is_quiet as Hquiet.
  unfold last_run, later_runs, first_run in *.
  destruct (run (handleFire demo_config no_clock heartbeat_fire)
                (scripted market_alert (Ok tt)) 0 init_vars) as [[v1 tr1] o1].
  cbn [fst snd] in *.
  destruct (runs demo_config no_clock next_day v1) as [v2 trs].
  cbn [fst snd] in *.
  destruct (run (handleFire demo_config no_clock heartbeat_fire)
                (scripted_at 1700172800000 market_alert) 0 v2) as [[v3 tr3] o3].
  exact (H Hrec Hquiet _ _ Hdel).
Defined.

(** The dedup holds one text: of three different-then-same messages a minute
    apart, all three are delivered. *)
Example dedup_holds_one_text :
  let reply x := ("STATUS: CHAT_YES" ++ NL ++ "CONTENT: " ++ x)%string in
  let fire base x v :=
    run (handleFire demo_config no_clock heartbeat_fire) (scripted_at base (reply x)) 0 v in
  let '(v1, tr1, _) := fire 1700000000000 "A" init_vars in
  let '(v2, tr2, _) := fire 1700000060000 "B" v1 in
  let '(_, tr3, _) := fire 1700000120000 "A" v2 in
  List.filter is_deliver tr1 = [EDeliver "telegram" "A" (Ok tt)]
  /\ List.filter is_deliver tr2 = [EDeliver "telegram" "B" (Ok tt)]
  /\ List.filter is_deliver tr3 = [EDeliver "telegram" "A" (Ok tt)].
Proof. vm_compute. repeat split; reflexivity. Qed.

End Heartbeat.
